(** * pynmea2_ais: AIVDM fragment reassembly and payload interpretation

    A shallow embedding of [pynmea2_ais/ais_parser.py]: the sentence
    pattern [NMEASentence.sentence_re], the class [VDM] with its shared
    reassembly map [SEQUENTIAL_MSG], [VDM.parse_payload] and
    [VDM.parse_complete_payload]. *)

From Stdlib Require Import ZArith String Ascii List Bool Lia DecimalString DecimalZ.
From stdpp Require Import base list.
Import ListNotations.
Local Open Scope string_scope.
Local Open Scope Z_scope.
Local Open Scope list_scope.

(** ** Ordered dictionaries

    [collections.OrderedDict] with [str] keys: an association list in
    insertion order.  Assigning to a key that is present keeps its
    position, a new key goes to the end. *)
Module OrderedDict.

Section Ops.
Context {V : Type}.

Definition t := list (string * V).

Definition keys (d : t) : list string := map fst d.

(** [d.get(k, None)] *)
Fixpoint get (k : string) (d : t) : option V :=
  match d with
  | [] => None
  | (k', v) :: d' => if String.eqb k k' then Some v else get k d'
  end.

(** [d[k] = v] *)
Fixpoint set (k : string) (v : V) (d : t) : t :=
  match d with
  | [] => [(k, v)]
  | (k', v') :: d' =>
      if String.eqb k k' then (k, v) :: d' else (k', v') :: set k v d'
  end.

(** [d.pop(k)]: [None] stands for [KeyError]. *)
Fixpoint pop (k : string) (d : t) : option t :=
  match d with
  | [] => None
  | (k', v') :: d' =>
      if String.eqb k k' then Some d'
      else match pop k d' with
           | Some r => Some ((k', v') :: r)
           | None => None
           end
  end.

(** [list(d)[0]]: [None] stands for [IndexError]. *)
Definition first (d : t) : option string :=
  match d with
  | [] => None
  | (k, _) :: _ => Some k
  end.

End Ops.
Arguments t : clear implicits.

End OrderedDict.

Module OD := OrderedDict.

(** ** Python integers as text: [repr(n)] for an [int] *)
Definition repr_int (n : Z) : string := NilZero.string_of_int (Z.to_int n).

(** [digits] is the decimal numeral of [n]: a minus sign for a negative
    number, then the digits without leading zeros.  It is said through
    the Standard Library's reader of numerals, which reads [digits] back
    as [n] in normal form. *)
Definition decimal_numeral (n : Z) (digits : string) : Prop :=
  NilZero.int_of_string digits = Some (Z.to_int n).



(** ** Regular expressions

    What [re.compile] needs for [sentence_re]: character classes, sequence,
    alternation and repetition.  [re_match] is [pattern.match(line)] for a
    pattern that ends in [$]: it decides by derivatives whether the whole
    line is in the pattern's language. *)
Inductive regex :=
| Void
| Eps
| Class (p : ascii -> bool)
| Seq (r1 r2 : regex)
| Alt (r1 r2 : regex)
| Star (r : regex).

(** [r?] and [r{n}] *)
Definition Opt (r : regex) : regex := Alt r Eps.

Fixpoint Rep (n : nat) (r : regex) : regex :=
  match n with
  | O => Eps
  | S n' => Seq r (Rep n' r)
  end.

Fixpoint nullable (r : regex) : bool :=
  match r with
  | Void => false
  | Eps => true
  | Class _ => false
  | Seq r1 r2 => nullable r1 && nullable r2
  | Alt r1 r2 => nullable r1 || nullable r2
  | Star _ => true
  end.

Fixpoint deriv (c : ascii) (r : regex) : regex :=
  match r with
  | Void => Void
  | Eps => Void
  | Class p => if p c then Eps else Void
  | Seq r1 r2 =>
      if nullable r1
      then Alt (Seq (deriv c r1) r2) (deriv c r2)
      else Seq (deriv c r1) r2
  | Alt r1 r2 => Alt (deriv c r1) (deriv c r2)
  | Star r1 => Seq (deriv c r1) (Star r1)
  end.

Fixpoint derivs (l : list ascii) (r : regex) : regex :=
  match l with
  | [] => r
  | c :: l' => derivs l' (deriv c r)
  end.

Definition re_match (r : regex) (line : string) : bool :=
  nullable (derivs (list_ascii_of_string line) r).

(** The language of a pattern. *)
Fixpoint lang (r : regex) (s : list ascii) : Prop :=
  match r with
  | Void => False
  | Eps => s = []
  | Class p => exists c, s = [c] /\ p c = true
  | Seq r1 r2 => exists s1 s2, s = s1 ++ s2 /\ lang r1 s1 /\ lang r2 s2
  | Alt r1 r2 => lang r1 s \/ lang r2 s
  | Star r1 => exists ss, s = concat ss /\ Forall (lang r1) ss
  end.

(** ** Character classes of a [str] pattern

    A line is text of code points below 256 (Latin-1, of which ASCII is
    the lower half); a character is its code point.  The pattern is a
    [str] pattern compiled without [re.ASCII], so its classes are the
    Unicode ones; they are given here as Python has them on these code
    points. *)
Definition code (c : ascii) : N := N_of_ascii c.

Definition between (lo hi : N) (c : ascii) : bool :=
  ((lo <=? code c) && (code c <=? hi))%N.

Definition is_digit : ascii -> bool := between 48 57.
Definition is_upper : ascii -> bool := between 65 90.
Definition is_lower : ascii -> bool := between 97 122.

(** The alphanumeric characters above ASCII: the ordinal indicators, the
    superscript digits, the micro sign, the fractions and the letters. *)
Definition is_latin1_alnum (c : ascii) : bool :=
  (code c =? 170)%N || between 178 179 c || (code c =? 181)%N
  || between 185 186 c || between 188 190 c
  || between 192 214 c || between 216 246 c || between 248 255 c.

(** [\w]: what [str.isalnum] accepts, and the underscore. *)
Definition word (c : ascii) : bool :=
  is_digit c || is_upper c || is_lower c || (code c =? 95)%N
  || is_latin1_alnum c.

(** [\s]: what [str.isspace] accepts, that is tab, newline, vertical tab,
    form feed, carriage return, the four separators 28-31, the space, the
    next-line control 133 and the no-break space 160. *)
Definition space (c : ascii) : bool :=
  between 9 13 c || between 28 31 c || (code c =? 32)%N
  || (code c =? 133)%N || (code c =? 160)%N.

(** A literal letter under [re.IGNORECASE]: the pattern's literals are
    ASCII, and an ASCII letter matches itself in either case.
    [fold_case] puts an ASCII letter in lower case and leaves every other
    character. *)
Definition fold_case (c : ascii) : ascii :=
  if is_upper c then ascii_of_N (code c + 32) else c.

Definition same_letter (a c : ascii) : bool :=
  Ascii.eqb (fold_case a) (fold_case c).

Definition lit (a : ascii) : regex := Class (same_letter a).

(** [[\$|\!]]: inside a class the bar is a character like the others. *)
Definition start_flag (c : ascii) : bool :=
  Ascii.eqb c "$" || Ascii.eqb c "|" || Ascii.eqb c "!".

(** [[^*]] *)
Definition not_star (c : ascii) : bool := negb (Ascii.eqb c "*").

(** [[A-F0-9]] under [re.IGNORECASE] *)
Definition hex (c : ascii) : bool :=
  between 65 70 c || between 97 102 c || is_digit c.

(** [[\r\n]] *)
Definition cr_lf (c : ascii) : bool := (code c =? 13)%N || (code c =? 10)%N.

Definition newline (c : ascii) : bool := (code c =? 10)%N.

(** ** [NMEASentence.sentence_re], lines 31-60 *)

(** [(P\w{3})] *)
Definition re_proprietary : regex := Seq (lit "P") (Rep 3 (Class word)).

(** [(\w{2}\w{2}Q,\w{3})] *)
Definition re_query : regex :=
  Seq (Rep 2 (Class word))
      (Seq (Rep 2 (Class word))
           (Seq (lit "Q") (Seq (lit ",") (Rep 3 (Class word))))).

(** [(\w{2}\w{3},)] *)
Definition re_talker : regex :=
  Seq (Rep 2 (Class word)) (Seq (Rep 3 (Class word)) (lit ",")).

Definition re_sentence_type : regex := Alt re_proprietary (Alt re_query re_talker).

(** [(?:[*](?P<checksum>[A-F0-9]{2}))?] *)
Definition re_checksum : regex := Opt (Seq (lit "*") (Rep 2 (Class hex))).

(** [$] without [re.MULTILINE]: the end of the line, or just before a
    newline that ends it. *)
Definition re_end : regex := Opt (Class newline).

Definition sentence_re : regex :=
  (* ^\s*[\$|\!]? *)
  Seq (Star (Class space))
  (Seq (Opt (Class start_flag))
  (* nmea_str: sentence_type, then data [^*]* *)
  (Seq re_sentence_type
  (Seq (Star (Class not_star))
  (* checksum *)
  (Seq re_checksum
  (* \s*[\r\n]*$ *)
  (Seq (Star (Class space))
  (Seq (Star (Class cr_lf)) re_end)))))).

(** Modelled from the spec: the tokenizer of the sentence framework
    ([NMEASentence.parse]), whose code is not among these sources.  Of it
    the description says (4.1): "given a raw text line, produce a Sentence
    Record or fail with MalformedSentenceError if the line does not match
    the expected grammar"; and (6) that the framework brings "a
    checksum-validated tokenizer" and "a sentence-type dispatch mechanism"
    for "a registered talker identifier", of which "this core only widens
    which characters are accepted as the sentence-start marker".  So a line
    that the pattern does not match fails with [MalformedSentenceError].
    What becomes of a line that the pattern matches is the framework's
    business: it validates the checksum and dispatches on the registered
    sentence types, and makes a record of the line or refuses it.  That
    part is the parameter [framework]; the grammar is [sentence_re], which
    [ais_parser.py] installs.  A record's fields are left with the line. *)
Inductive Tokenized :=
| SentenceRecord (line : string)
| MalformedSentenceError
| FrameworkError (why : string).

Definition parse (framework : string -> Tokenized) (line : string) : Tokenized :=
  if re_match sentence_re line then framework line
  else MalformedSentenceError.

(** A framework that compares no checksum and has every sentence type
    registered: it makes a record of every line it is handed. *)
Definition every_type_registered (line : string) : Tokenized :=
  SentenceRecord line.

(** ** The shape of a sentence, in the words of the description

    The parts are those the description lists; what a word character,
    whitespace or a hexadecimal digit is, and that letters match in either
    case, is taken from the pattern. *)
Definition is_proprietary (ty : list ascii) : Prop :=
  exists p a b c,
    ty = [p; a; b; c] /\ same_letter "P" p = true
    /\ word a = true /\ word b = true /\ word c = true.

Definition is_query (ty : list ascii) : Prop :=
  exists a b c d q k x y z,
    ty = [a; b; c; d; q; k; x; y; z]
    /\ word a = true /\ word b = true /\ word c = true /\ word d = true
    /\ same_letter "Q" q = true /\ k = ","%char
    /\ word x = true /\ word y = true /\ word z = true.

Definition is_talker (ty : list ascii) : Prop :=
  exists a b c d e k,
    ty = [a; b; c; d; e; k]
    /\ word a = true /\ word b = true /\ word c = true /\ word d = true
    /\ word e = true /\ k = ","%char.

Definition is_sentence_type (ty : list ascii) : Prop :=
  is_proprietary ty \/ is_query ty \/ is_talker ty.

Definition is_checksum (cks : list ascii) : Prop :=
  cks = [] \/
  exists h1 h2, cks = ["*"%char; h1; h2] /\ hex h1 = true /\ hex h2 = true.

(** Start marker, sentence type, data, checksum, trailing whitespace; the
    markers that count are given by [marker]. *)
Definition shaped (marker : ascii -> bool) (line : list ascii) : Prop :=
  exists start ty data cks trail,
    line = start ++ ty ++ data ++ cks ++ trail
    /\ (start = [] \/ exists m, start = [m] /\ marker m = true)
    /\ is_sentence_type ty
    /\ Forall (fun c => c <> "*"%char) data
    /\ is_checksum cks
    /\ Forall (fun c => space c = true) trail.

Definition dollar_or_bang (c : ascii) : bool :=
  Ascii.eqb c "$" || Ascii.eqb c "!".

(** The shape as the description has it: nothing before the optional [$]
    or [!]. *)
Definition described_shape (line : list ascii) : Prop := shaped dollar_or_bang line.

(** The same behind optional whitespace. *)
Definition padded_shape (line : list ascii) : Prop :=
  exists lead rest,
    line = lead ++ rest
    /\ Forall (fun c => space c = true) lead
    /\ described_shape rest.

(** The first character of a line that is not whitespace. *)
Fixpoint first_visible (line : list ascii) : option ascii :=
  match line with
  | [] => None
  | c :: l => if space c then first_visible l else Some c
  end.


(** ** Rewriting a line character by character *)

(** A pattern none of whose classes tells [c] from [f c]. *)
Fixpoint blind_to (f : ascii -> ascii) (r : regex) : Prop :=
  match r with
  | Void | Eps => True
  | Class p => forall c, p (f c) = p c
  | Seq r1 r2 | Alt r1 r2 => blind_to f r1 /\ blind_to f r2
  | Star r1 => blind_to f r1
  end.

Definition map_line (f : ascii -> ascii) (line : string) : string :=
  string_of_list_ascii (map f (list_ascii_of_string line)).

(** An ASCII letter in upper case; every other character is left.  On
    ASCII text [map_line upper_case] is [str.upper] and
    [map_line fold_case] is [str.lower]; above ASCII they are not
    ([str.upper] turns the sharp s into two letters). *)
Definition upper_case (c : ascii) : ascii :=
  if is_lower c then ascii_of_N (code c - 32) else c.

(** [!] for [$] and [$] for [!]. *)
Definition swap_marker (c : ascii) : ascii :=
  if Ascii.eqb c "!" then "$"%char
  else if Ascii.eqb c "$" then "!"%char
  else c.

(** ** A sample universe of values

    Integers, text, one formatter function and one lookup table, with a bit
    decoder that answers every payload but ["?"] with the same four raw
    fields: enough to run the parser on concrete sentences. *)
Module Sample.

Inductive Obj :=
| ONone
| OInt (z : Z)
| OStr (s : string)
| OTimesTen
| OStatus.

(** [OTimesTen] is [lambda n: 10 * n]. *)
Definition call (f x : Obj) : option Obj :=
  match f, x with
  | OTimesTen, OInt z => Some (OInt (10 * z))
  | _, _ => None
  end.

(** [OStatus] is the table [{0: "Under way", 1: "At anchor"}]. *)
Definition getitem (t k : Obj) : option Obj :=
  match t, k with
  | OStatus, OInt 0 => Some (OStr "Under way")
  | OStatus, OInt 1 => Some (OStr "At anchor")
  | _, _ => None
  end.

Definition str (v : Obj) : option string :=
  match v with
  | OStr s => Some s
  | _ => None
  end.

Definition int (s : string) : option Obj :=
  match NilZero.int_of_string s with
  | Some d => Some (OInt (Z.of_int d))
  | None => None
  end.

Definition float (s : string) : option Obj := None.

Definition repr (s : string) : string := ("'" ++ s ++ "'")%string.

Definition raw_fields : list (list Obj) :=
  [[OStr "type"; OInt 1; OStr "u"; OStr "Message Type"];
   [OStr "status"; OInt 1; OStr "e"; OStr "Navigation Status"; OStatus];
   [OStr "speed"; OInt 7; OStr "U1"; OStr "Speed"; OTimesTen];
   [OStr "shipname"; OStr "42"; OStr "t"; OStr "Name"; ONone]].

Definition unpack (payload : string) : string + list (list Obj) :=
  if String.eqb payload "?" then inl "bad armor" else inr raw_fields.

End Sample.

Section AIS.

(** ** The Python values the field lists carry

    The fields that the bit decoder returns hold arbitrary Python objects
    (numbers, text, formatter functions, lookup tables).  The operations
    the parser applies to them are builtins of the language; each is a
    partial function here, [None] standing for "raises". *)
Variable PyObj : Type.
(** [f(x)] *)
Variable py_call : PyObj -> PyObj -> option PyObj.
(** [t[k]] *)
Variable py_getitem : PyObj -> PyObj -> option PyObj.
(** [isinstance(v, str)], with the text of [v] *)
Variable py_str : PyObj -> option string.
(** [int(s)] and [float(s)] for a [str] *)
Variable py_int : string -> option PyObj.
Variable py_float : string -> option PyObj.
(** [repr(s)] for a [str] *)
Variable repr_str : string -> string.

(** The bit decoder of [_ais.py], which [ais_parser.py] only calls:
    [BitVector().from_sixbit(payload)] followed by
    [aivdm_unpack(bits, 0, {}, aivdm_decode)].  It returns the raw fields or
    raises ([inl], with the error's text).  Each raw field is a Python
    list: line 240 appends [field[4:]] to a list, which Python does for
    lists only. *)
Variable aivdm_unpack : string -> string + list (list PyObj).

(** ** Exceptions *)
Inductive Raised :=
| IncompleteMessageError (msg : string)
| KeyError (key : string)
| IndexError
| DecodeError (msg : string)
| InvalidReference.
(** [InvalidReference] is no Python exception: it is what the model answers
    when asked to follow a reference that is not in the heap, which no
    Python program can hold. *)

(** ** [VDM.parse_complete_payload] *)

(** Lines 223-229: the formatter as a function, else as a table, else the
    raw value. *)
Definition apply_decoder (decoder raw : PyObj) : PyObj :=
  match py_call decoder raw with
  | Some val => val
  | None =>
      match py_getitem decoder raw with
      | Some val => val
      | None => raw
      end
  end.

(** Lines 231-238: text becomes an [int], else a [float], else stays. *)
Definition coerce_numeric (val : PyObj) : PyObj :=
  match py_str val with
  | Some s =>
      match py_int s with
      | Some i => i
      | None =>
          match py_float s with
          | Some f => f
          | None => val
          end
      end
  | None => val
  end.

(** The body of the loop, lines 222-241: [len(field) == 5] picks the fields
    with a formatter; [drop 4 field] is [field[4:]]. *)
Definition interpret_field (field : list PyObj) : list PyObj :=
  match field with
  | [f0; f1; f2; f3; f4] =>
      let val := coerce_numeric (apply_decoder f4 f1) in
      [f0; val; f2; f3; f1] ++ drop 4 field
  | _ => field
  end.

Definition parse_complete_payload (payload : string)
  : Raised + list (list PyObj) :=
  match aivdm_unpack payload with
  | inl e => inl (DecodeError e)
  | inr sub_fields => inr (map interpret_field sub_fields)
  end.

(** ** Sentences and [VDM] objects *)

(** The six fields of an [AIVDM] sentence as the talker-sentence framework
    hands them over.  [count] and [fragment] are declared [int] in
    [VDM.fields]; lines 160-161 read them as integers. *)
Record Sentence := mkSentence {
  s_count : Z;
  s_fragment : Z;
  s_sequential_msg_id : string;
  s_radio_code : string;
  s_payload : string;
  s_fill_bits : string
}.

Record VDM := mkVDM {
  count : Z;
  fragment : Z;
  sequential_msg_id : string;
  radio_code : string;
  payload : string;
  fill_bits : string;
  sub_fields : list (list PyObj)
}.

Definition set_payload (p : string) (o : VDM) : VDM :=
  mkVDM (count o) (fragment o) (sequential_msg_id o) (radio_code o)
        p (fill_bits o) (sub_fields o).

Definition set_sub_fields (sf : list (list PyObj)) (o : VDM) : VDM :=
  mkVDM (count o) (fragment o) (sequential_msg_id o) (radio_code o)
        (payload o) (fill_bits o) sf.

(** [VDM.is_complete]; between integers the comparison does not raise. *)
Definition is_complete (o : VDM) : bool := count o =? fragment o.

(** ** The program state

    [SEQUENTIAL_MSG] holds the [VDM] objects themselves, so an assignment
    to [self.payload] after [self] was stored is seen through the map.
    Objects live in [heap]; a reference is an index into it.  [notified]
    collects the messages passed to [NOTIFY]. *)
Abbreviation ref := nat.

Record World := mkWorld {
  SEQUENTIAL_MSG : OD.t ref;
  heap : list VDM;
  notified : list string
}.

(** [SEQ_LIMIT]: [float("inf")] or an integer. *)
Inductive Limit := Unbounded | Bounded (n : Z).

(** [len(cls.SEQUENTIAL_MSG) > cls.SEQ_LIMIT] *)
Definition exceeds (len : nat) (limit : Limit) : bool :=
  match limit with
  | Unbounded => false
  | Bounded n => n <? Z.of_nat len
  end.

(** State and exceptions: the state survives a raise. *)
Definition M (A : Type) : Type := World -> (Raised + A) * World.

Definition ret {A} (a : A) : M A := fun w => (inr a, w).
Definition raise {A} (e : Raised) : M A := fun w => (inl e, w).
Definition bind {A B} (m : M A) (k : A -> M B) : M B :=
  fun w => match m w with
           | (inr a, w') => k a w'
           | (inl e, w') => (inl e, w')
           end.

Notation "x <- m ;; k" := (bind m (fun x => k))
  (at level 100, m at next level, right associativity).
Notation "m ;;; k" := (bind m (fun _ => k))
  (at level 100, right associativity).

Definition deref (r : ref) : M VDM :=
  fun w => match heap w !! r with
           | Some o => (inr o, w)
           | None => (inl InvalidReference, w)
           end.

Definition modify (r : ref) (f : VDM -> VDM) : M unit :=
  fun w => match heap w !! r with
           | Some o =>
               (inr tt, mkWorld (SEQUENTIAL_MSG w) (<[r := f o]> (heap w))
                                (notified w))
           | None => (inl InvalidReference, w)
           end.

Definition alloc (o : VDM) : M ref :=
  fun w => (inr (length (heap w)),
            mkWorld (SEQUENTIAL_MSG w) (heap w ++ [o]) (notified w)).

Definition seq_get (k : string) : M (option ref) :=
  fun w => (inr (OD.get k (SEQUENTIAL_MSG w)), w).

Definition seq_set (k : string) (r : ref) : M unit :=
  fun w => (inr tt, mkWorld (OD.set k r (SEQUENTIAL_MSG w)) (heap w)
                            (notified w)).

Definition seq_len : M nat :=
  fun w => (inr (length (SEQUENTIAL_MSG w)), w).

Definition seq_first : M string :=
  fun w => match OD.first (SEQUENTIAL_MSG w) with
           | Some k => (inr k, w)
           | None => (inl IndexError, w)
           end.

Definition seq_pop (k : string) : M unit :=
  fun w => match OD.pop k (SEQUENTIAL_MSG w) with
           | Some d => (inr tt, mkWorld d (heap w) (notified w))
           | None => (inl (KeyError k), w)
           end.

Definition NOTIFY (msg : string) : M unit :=
  fun w => (inr tt, mkWorld (SEQUENTIAL_MSG w) (heap w) (notified w ++ [msg])).

Definition lift {A} (r : Raised + A) : M A := fun w => (r, w).

Definition limit_message (old : string) : string :=
  ("Failed to complete a sequential message with id " ++ repr_str old
   ++ " (limit reached).")%string.

Definition missing_message (expected : Z) : string :=
  ("Missing sequential message fragment " ++ repr_int expected ++ "!")%string.

(** ** [VDM.parse_payload] *)

(** Lines 167-172: remove the oldest if greater than the limit. *)
Definition enforce_limit (limit : Limit) : M unit :=
  n <- seq_len ;;
  if exceeds n limit
  then old <- seq_first ;;
       seq_pop old ;;;
       NOTIFY (limit_message old)
  else ret tt.

Definition parse_payload (limit : Limit) (self : ref) : M (option ref) :=
  me <- deref self ;;
  (* Handle the sequential message id *)
  prev_seq <- seq_get (sequential_msg_id me) ;;
  seq_set (sequential_msg_id me) self ;;;
  enforce_limit limit ;;;
  (* Check fragment *)
  let prev_seq := if fragment me =? 1 then None else prev_seq in
  (* Check the previous sequential message *)
  prev <- match prev_seq with
          | None => ret (0, "")
          | Some p => o <- deref p ;; ret (fragment o, payload o)
          end ;;
  let '(last, prev_payload) := prev in
  (* Check if this is the expected fragment *)
  if negb (last + 1 =? fragment me)
  then seq_pop (sequential_msg_id me) ;;;
       raise (IncompleteMessageError (missing_message (last + 1)))
  else
    (* Add the previous payload *)
    modify self (set_payload (prev_payload ++ payload me)%string) ;;;
    me <- deref self ;;
    (* Check for a complete payload *)
    if is_complete me
    then seq_pop (sequential_msg_id me) ;;;
         fields <- lift (parse_complete_payload (payload me)) ;;
         modify self (set_sub_fields fields) ;;;
         ret (Some self)
    else ret None.

(** [VDM.__init__]: the object is built from the sentence's fields with
    empty [sub_fields]; a sentence with a payload is parsed. *)
Definition new_VDM (s : Sentence) : VDM :=
  mkVDM (s_count s) (s_fragment s) (s_sequential_msg_id s) (s_radio_code s)
        (s_payload s) (s_fill_bits s) [].

Definition VDM_init (limit : Limit) (s : Sentence) : M ref :=
  self <- alloc (new_VDM s) ;;
  (if negb (String.eqb (s_payload s) "")
   then parse_payload limit self ;;; ret tt
   else ret tt) ;;;
  ret self.


(** ** Describing the states a call passes through *)

(** The world once [__init__] has built the object. *)
Definition allocated (s : Sentence) (w : World) : World :=
  mkWorld (SEQUENTIAL_MSG w) (heap w ++ [new_VDM s]) (notified w).

(** What lines 168-172 leave of a non-empty map. *)
Definition evicted (limit : Limit) (w : World) : World :=
  if exceeds (length (SEQUENTIAL_MSG w)) limit then
    match SEQUENTIAL_MSG w with
    | (old, _) :: rest =>
        mkWorld rest (heap w) (notified w ++ [limit_message old])
    | [] => w
    end
  else w.

(** The world after lines 164-172 for a new object built from [s]. *)
Definition stored (limit : Limit) (s : Sentence) (w : World) : World :=
  evicted limit
    (mkWorld (OD.set (s_sequential_msg_id s) (length (heap w)) (SEQUENTIAL_MSG w))
             (heap w ++ [new_VDM s]) (notified w)).

(** Lines 174-183: [last] and [prev_payload] for the sentence [s]. *)
Definition previous (s : Sentence) (w : World) : Z * string :=
  if s_fragment s =? 1 then (0, "")
  else match OD.get (s_sequential_msg_id s) (SEQUENTIAL_MSG w) with
       | Some p =>
           match heap w !! p with
           | Some o => (fragment o, payload o)
           | None => (0, "")
           end
       | None => (0, "")
       end.

(** The fragment number line 186 expects. *)
Definition expected_next (s : Sentence) (w : World) : Z := (previous s w).1 + 1.

(** The map after [pop k]. *)
Definition without {V} (k : string) (d : OD.t V) : OD.t V :=
  match OD.pop k d with
  | Some d' => d'
  | None => d
  end.

(** ** The invariant of the reassembly state

    Keys are distinct, every slot holds an object of the heap that carries
    the slot's id, and the map holds no more slots than a limit of at least
    one allows. *)
Definition keyed_in (h : list VDM) (d : OD.t ref) : Prop :=
  Forall (fun kr : string * ref =>
            exists o, h !! kr.2 = Some o /\ sequential_msg_id o = kr.1) d.

Definition within (limit : Limit) (n : nat) : Prop :=
  match limit with
  | Unbounded => True
  | Bounded b => 1 <= b /\ Z.of_nat n <= b
  end.

Definition wf_world (limit : Limit) (w : World) : Prop :=
  NoDup (OD.keys (SEQUENTIAL_MSG w))
  /\ keyed_in (heap w) (SEQUENTIAL_MSG w)
  /\ within limit (length (SEQUENTIAL_MSG w)).

(** The state at program start, and the states that calls of the constructor
    reach from it while [SEQ_LIMIT] stays what it is. *)
Definition init_world : World := mkWorld [] [] [].

Inductive reachable (limit : Limit) : World -> Prop :=
| reach_init : reachable limit init_world
| reach_step w s :
    reachable limit w -> reachable limit (VDM_init limit s w).2.

(** Sentences delivered one after the other; the first exception ends the
    run. *)
Fixpoint accept_all (limit : Limit) (l : list Sentence) : M (list ref) :=
  match l with
  | [] => ret []
  | s :: l' =>
      r <- VDM_init limit s ;;
      rs <- accept_all limit l' ;;
      ret (r :: rs)
  end.

(** The fragments [k+1 .. k+length l] of one message with [total] fragments,
    in order, each with a payload. *)
Definition in_order (id : string) (total : Z) (k : Z) (l : list Sentence) : Prop :=
  forall (i : nat) s, l !! i = Some s ->
    s_fragment s = k + 1 + Z.of_nat i
    /\ s_count s = total
    /\ s_sequential_msg_id s = id
    /\ s_payload s <> ""%string.

Definition concat_payloads (l : list Sentence) : string :=
  fold_right String.append ""%string (map s_payload l).

(** ** The interpretation of one field, in the words of the pipeline's
    description *)
Inductive decoded (decoder raw : PyObj) : PyObj -> Prop :=
| decoded_by_function val :
    py_call decoder raw = Some val -> decoded decoder raw val
| decoded_by_table val :
    py_call decoder raw = None -> py_getitem decoder raw = Some val ->
    decoded decoder raw val
| decoded_raw :
    py_call decoder raw = None -> py_getitem decoder raw = None ->
    decoded decoder raw raw.

Inductive coerced (val : PyObj) : PyObj -> Prop :=
| coerced_not_text : py_str val = None -> coerced val val
| coerced_int t i :
    py_str val = Some t -> py_int t = Some i -> coerced val i
| coerced_float t f :
    py_str val = Some t -> py_int t = None -> py_float t = Some f ->
    coerced val f
| coerced_text t :
    py_str val = Some t -> py_int t = None -> py_float t = None ->
    coerced val val.


(** ** Describing runs of several calls *)

(** An object that waits in the map for its next fragment: it went through
    lines 186-195 without completing. *)
Definition in_flight (o : VDM) : Prop :=
  1 <= fragment o /\ count o <> fragment o
  /\ payload o <> ""%string /\ sub_fields o = [].

Definition pending_slots (w : World) : Prop :=
  forall k r, OD.get k (SEQUENTIAL_MSG w) = Some r ->
    exists o, heap w !! r = Some o /\ in_flight o.

(** Sentences handed to the constructor one after the other by a caller
    that catches what a call raises and goes on with the next sentence. *)
Definition deliver (limit : Limit) (l : list Sentence) (w : World) : World :=
  fold_left (fun w s => (VDM_init limit s w).2) l w.

(** The fragments of one message, each preceded by sentences of other
    traffic. *)
Definition interleaved (l : list (list Sentence * Sentence)) : list Sentence :=
  flat_map (fun p => p.1 ++ [p.2]) l.

(** Storing a fragment of [s] does not make the map longer than the limit
    allows: its id has a slot already, or the map can take one more. *)
Definition has_room (limit : Limit) (s : Sentence) (w : World) : Prop :=
  is_Some (OD.get (s_sequential_msg_id s) (SEQUENTIAL_MSG w))
  \/ within limit (S (length (SEQUENTIAL_MSG w))).

(** ** Facts about ordered dictionaries *)
Section OrderedDictFacts.
Context {V : Type}.
Implicit Types (d : OD.t V) (k : string) (v : V).

Lemma od_get_None_keys k d : OD.get k d = None <-> k ∉ OD.keys d.
Proof.
  induction d as [|[k' v'] d IH]; simpl.
  - split; [intros _; apply not_elem_of_nil | done].
  - destruct (String.eqb_spec k k') as [->|Hne].
    + split; [done|]. intros H. exfalso. apply H. left.
    + rewrite IH. rewrite not_elem_of_cons. tauto.
Qed.

Lemma od_get_Some_keys k d v : OD.get k d = Some v -> k ∈ OD.keys d.
Proof.
  induction d as [|[k' v'] d IH]; simpl; [done|].
  destruct (String.eqb_spec k k') as [->|Hne]; [intros _; left|].
  intros H. right. by apply IH.
Qed.

Lemma od_get_set_eq k v d : OD.get k (OD.set k v d) = Some v.
Proof.
  induction d as [|[k' v'] d IH]; simpl.
  - by rewrite String.eqb_refl.
  - destruct (String.eqb_spec k k') as [->|Hne]; simpl.
    + by rewrite String.eqb_refl.
    + destruct (String.eqb_spec k k'); [done|]. apply IH.
Qed.

Lemma od_get_set_ne k k' v d : k <> k' -> OD.get k' (OD.set k v d) = OD.get k' d.
Proof.
  intros Hne. induction d as [|[k0 v0] d IH]; simpl.
  - destruct (String.eqb_spec k' k); congruence.
  - destruct (String.eqb_spec k k0) as [->|Hk]; simpl.
    + destruct (String.eqb_spec k' k0); congruence.
    + destruct (String.eqb_spec k' k0); [done|]. apply IH.
Qed.

Lemma od_set_absent k v d : OD.get k d = None -> OD.set k v d = d ++ [(k, v)].
Proof.
  induction d as [|[k' v'] d IH]; simpl; [done|].
  destruct (String.eqb_spec k k'); [done|]. intros H. by rewrite IH.
Qed.

Lemma od_set_present k v d :
  is_Some (OD.get k d) ->
  OD.keys (OD.set k v d) = OD.keys d /\ length (OD.set k v d) = length d.
Proof.
  induction d as [|[k' v'] d IH]; simpl.
  - intros [? ?]; done.
  - destruct (String.eqb_spec k k') as [->|Hne]; simpl; [done|].
    intros H. destruct (IH H) as [-> ->]. done.
Qed.

Lemma od_set_NoDup k v d : NoDup (OD.keys d) -> NoDup (OD.keys (OD.set k v d)).
Proof.
  intros Hd. destruct (OD.get k d) as [v'|] eqn:Hg.
  - destruct (od_set_present k v d) as [-> _]; [by eexists|done].
  - rewrite od_set_absent by done. unfold OD.keys. rewrite map_app. simpl.
    apply NoDup_app. split; [done|]. split.
    + intros x Hx Hx'. apply list_elem_of_singleton in Hx'. subst x.
      by apply od_get_None_keys in Hg.
    + apply NoDup_singleton.
Qed.

Lemma od_set_Forall (P : string * V -> Prop) k v d :
  P (k, v) -> Forall P d -> Forall P (OD.set k v d).
Proof.
  intros Hp. induction 1 as [|[k' v'] d Hx Hd IH]; simpl.
  - by constructor.
  - destruct (String.eqb k k'); constructor; done.
Qed.

Lemma od_set_not_nil k v d : OD.set k v d <> [].
Proof. destruct d as [|[k' v'] d]; simpl; [done|]. by destruct (String.eqb k k'). Qed.

Lemma od_get_Forall (P : string * V -> Prop) k v d :
  Forall P d -> OD.get k d = Some v -> P (k, v).
Proof.
  induction 1 as [|[k' v'] d Hx Hd IH]; simpl; [done|].
  destruct (String.eqb_spec k k') as [->|Hne]; [congruence|done].
Qed.

(** What [pop] leaves behind when the keys are distinct. *)
Lemma od_pop_Some k d v :
  NoDup (OD.keys d) -> OD.get k d = Some v ->
  exists d', OD.pop k d = Some d' /\ OD.get k d' = None
    /\ (forall k', k' <> k -> OD.get k' d' = OD.get k' d)
    /\ NoDup (OD.keys d') /\ length d = S (length d')
    /\ (forall P : string * V -> Prop, Forall P d -> Forall P d').
Proof.
  induction d as [|[k0 v0] d IH]; simpl; [done|].
  rewrite NoDup_cons. intros [Hk0 Hd].
  destruct (String.eqb_spec k k0) as [->|Hne].
  - intros _. exists d. repeat split; try done.
    + by apply od_get_None_keys.
    + intros k' Hk'. by destruct (String.eqb_spec k' k0).
    + intros P HP. by inversion HP.
  - intros Hg. destruct (IH Hd Hg) as (d' & -> & Hn & Ho & Hnd & Hl & HF).
    exists ((k0, v0) :: d'). simpl. repeat split.
    + destruct (String.eqb_spec k k0); done.
    + intros k' Hk'. destruct (String.eqb_spec k' k0); [done|]. by apply Ho.
    + apply NoDup_cons. split; [|done]. intros Hin.
      destruct (OD.get k0 d') as [x|] eqn:Hx; [|by apply od_get_None_keys in Hx].
      rewrite Ho in Hx; [|congruence]. apply od_get_Some_keys in Hx. done.
    + by rewrite Hl.
    + intros P HP. inversion HP; subst. constructor; [done|]. by apply HF.
Qed.

Lemma od_pop_None k d : OD.get k d = None -> OD.pop k d = None.
Proof.
  induction d as [|[k0 v0] d IH]; simpl; [done|].
  destruct (String.eqb_spec k k0); [done|]. intros H. by rewrite IH.
Qed.

End OrderedDictFacts.

(** ** Running the state *)

Lemma bind_inr {A B} (m : M A) (k : A -> M B) w a w' :
  m w = (inr a, w') -> bind m k w = k a w'.
Proof. intros H. unfold bind. by rewrite H. Qed.

Lemma bind_inl {A B} (m : M A) (k : A -> M B) w e w' :
  m w = (inl e, w') -> bind m k w = (inl e, w').
Proof. intros H. unfold bind. by rewrite H. Qed.

Lemma deref_eq r o w : heap w !! r = Some o -> deref r w = (inr o, w).
Proof. intros H. unfold deref. by rewrite H. Qed.

Lemma modify_eq r f o w :
  heap w !! r = Some o ->
  modify r f w =
    (inr tt, mkWorld (SEQUENTIAL_MSG w) (<[r := f o]> (heap w)) (notified w)).
Proof. intros H. unfold modify. by rewrite H. Qed.

Lemma seq_pop_eq k d w :
  OD.pop k (SEQUENTIAL_MSG w) = Some d ->
  seq_pop k w = (inr tt, mkWorld d (heap w) (notified w)).
Proof. intros H. unfold seq_pop. by rewrite H. Qed.

Lemma enforce_limit_eq limit w :
  SEQUENTIAL_MSG w <> [] -> enforce_limit limit w = (inr tt, evicted limit w).
Proof.
  destruct w as [[|[old r] rest] h l]; [done|]. intros _.
  unfold enforce_limit, evicted, bind, seq_len, seq_first, seq_pop, NOTIFY, ret.
  cbn [SEQUENTIAL_MSG heap notified]. destruct (exceeds _ limit); [|done].
  cbn [OD.first OD.pop SEQUENTIAL_MSG heap notified].
  by rewrite String.eqb_refl.
Qed.

(** [stored] is the world that lines 165-172 make of the allocated one. *)
Lemma stored_eq limit s w :
  bind (seq_set (s_sequential_msg_id s) (length (heap w)))
       (fun _ => enforce_limit limit) (allocated s w)
  = (inr tt, stored limit s w).
Proof.
  erewrite bind_inr by reflexivity.
  apply enforce_limit_eq. apply od_set_not_nil.
Qed.

Lemma insert_last {A} (l : list A) (x y : A) :
  <[length l := y]> (l ++ [x]) = l ++ [y].
Proof. rewrite insert_app_r_alt by done. by rewrite Nat.sub_diag. Qed.

Lemma append_empty_r (a : string) : (a ++ "")%string = a.
Proof. induction a as [|c a IH]; simpl; [done|]. by rewrite IH. Qed.

Lemma append_assoc (a b c : string) :
  ((a ++ b) ++ c)%string = (a ++ (b ++ c))%string.
Proof. induction a as [|x a IH]; simpl; [done|]. by rewrite IH. Qed.


(** ** The slot of the new fragment *)

Lemma evicted_heap limit w : heap (evicted limit w) = heap w.
Proof.
  unfold evicted. destruct (exceeds _ _); [|done].
  by destruct (SEQUENTIAL_MSG w) as [|[? ?] ?].
Qed.

Lemma stored_heap limit s w : heap (stored limit s w) = heap w ++ [new_VDM s].
Proof. unfold stored. by rewrite evicted_heap. Qed.

Lemma keyed_in_app h x d : keyed_in h d -> keyed_in (h ++ [x]) d.
Proof.
  unfold keyed_in. intros H. eapply Forall_impl; [exact H|].
  intros [k r] (o & Ho & Hk). exists o. split; [by apply lookup_app_l_Some|done].
Qed.

Lemma keyed_in_last h x y d :
  sequential_msg_id y = sequential_msg_id x ->
  keyed_in (h ++ [x]) d -> keyed_in (h ++ [y]) d.
Proof.
  intros Hid. unfold keyed_in. intros H. eapply Forall_impl; [exact H|].
  intros [k r] (o & Ho & Hk). simpl in *.
  destruct (decide (r < length h)%nat) as [Hlt|Hge].
  - exists o. rewrite lookup_app_l in Ho |- * by done. done.
  - assert (r = length h) as ->.
    { apply lookup_lt_Some in Ho. rewrite length_app in Ho. simpl in Ho. lia. }
    rewrite list_lookup_middle in Ho by done. injection Ho as <-.
    exists y. rewrite list_lookup_middle by done. split; congruence.
Qed.

(** When the limit is exceeded the map was full and the id is new: the
    slot at the front goes, the new one sits at the back. *)
Lemma stored_evicts limit s w :
  wf_world limit w ->
  exceeds (length (OD.set (s_sequential_msg_id s) (length (heap w))
                          (SEQUENTIAL_MSG w))) limit = true ->
  exists old r rest,
    SEQUENTIAL_MSG w = (old, r) :: rest
    /\ old <> s_sequential_msg_id s
    /\ OD.get (s_sequential_msg_id s) rest = None
    /\ stored limit s w =
         mkWorld (rest ++ [(s_sequential_msg_id s, length (heap w))])
                 (heap w ++ [new_VDM s])
                 (notified w ++ [limit_message old]).
Proof.
  intros (Hnd & Hrefs & Hlim) Hex. unfold stored, evicted.
  cbn [SEQUENTIAL_MSG heap notified]. rewrite Hex.
  set (id := s_sequential_msg_id s) in *. set (self := length (heap w)) in *.
  destruct limit as [|b]; [done|]. simpl in Hex, Hlim.
  destruct Hlim as [Hb Hlen]. apply Z.ltb_lt in Hex.
  destruct (OD.get id (SEQUENTIAL_MSG w)) as [p|] eqn:Hg.
  { destruct (od_set_present id self (SEQUENTIAL_MSG w)) as [_ Hl]; [by eexists|].
    rewrite Hl in Hex. lia. }
  rewrite od_set_absent in Hex |- * by done.
  destruct (SEQUENTIAL_MSG w) as [|[old r] rest] eqn:E.
  { simpl in Hex. lia. }
  simpl in Hg. destruct (String.eqb_spec id old) as [|Hne]; [done|].
  exists old, r, rest. done.
Qed.

Lemma stored_keeps limit s w :
  exceeds (length (OD.set (s_sequential_msg_id s) (length (heap w))
                          (SEQUENTIAL_MSG w))) limit = false ->
  stored limit s w =
    mkWorld (OD.set (s_sequential_msg_id s) (length (heap w)) (SEQUENTIAL_MSG w))
            (heap w ++ [new_VDM s]) (notified w).
Proof.
  intros Hex. unfold stored, evicted. cbn [SEQUENTIAL_MSG]. by rewrite Hex.
Qed.

Lemma stored_present limit s w :
  wf_world limit w ->
  is_Some (OD.get (s_sequential_msg_id s) (SEQUENTIAL_MSG w)) ->
  stored limit s w =
    mkWorld (OD.set (s_sequential_msg_id s) (length (heap w)) (SEQUENTIAL_MSG w))
            (heap w ++ [new_VDM s]) (notified w).
Proof.
  intros Hwf Hsome. apply stored_keeps.
  destruct (od_set_present (s_sequential_msg_id s) (length (heap w))
              (SEQUENTIAL_MSG w) Hsome) as [_ ->].
  destruct Hwf as (_ & _ & Hlim). destruct limit as [|b]; [done|].
  simpl in *. apply Z.ltb_ge. lia.
Qed.

(** Under the limit, the eviction of lines 168-172 never takes the slot
    that line 165 has just written. *)
Lemma stored_slot limit s w :
  wf_world limit w ->
  let d := SEQUENTIAL_MSG (stored limit s w) in
  OD.get (s_sequential_msg_id s) d = Some (length (heap w))
  /\ NoDup (OD.keys d)
  /\ within limit (length d)
  /\ keyed_in (heap w ++ [new_VDM s]) d.
Proof.
  intros Hwf. pose proof Hwf as (Hnd & Hrefs & Hlim).
  set (id := s_sequential_msg_id s). set (self := length (heap w)).
  assert (HF : keyed_in (heap w ++ [new_VDM s])
                        (OD.set id self (SEQUENTIAL_MSG w))).
  { apply od_set_Forall.
    - exists (new_VDM s). simpl. by rewrite list_lookup_middle.
    - by apply keyed_in_app. }
  destruct (exceeds (length (OD.set id self (SEQUENTIAL_MSG w))) limit) eqn:Hex.
  - destruct (stored_evicts limit s w Hwf Hex) as (old & r & rest & E & Hne & Hg & ->).
    fold id self in Hg |- *. cbn [SEQUENTIAL_MSG].
    rewrite E in Hnd, HF, Hex, Hlim.
    assert (Hset : OD.set id self ((old, r) :: rest)
                   = (old, r) :: OD.set id self rest).
    { simpl. by destruct (String.eqb_spec id old). }
    rewrite Hset in HF, Hex. rewrite <- (od_set_absent id self rest) by done.
    repeat split.
    + apply od_get_set_eq.
    + apply od_set_NoDup. simpl in Hnd. by apply NoDup_cons in Hnd as [_ ?].
    + destruct limit as [|b]; [done|]. simpl in Hlim, Hex |- *.
      rewrite od_set_absent by done. rewrite length_app. simpl. lia.
    + by inversion HF.
  - rewrite (stored_keeps limit s w Hex). cbn [SEQUENTIAL_MSG]. fold id self.
    repeat split.
    + apply od_get_set_eq.
    + by apply od_set_NoDup.
    + destruct limit as [|b]; [done|]. simpl in Hex, Hlim |- *.
      apply Z.ltb_ge in Hex. split; [by destruct Hlim|done].
    + done.
Qed.

Lemma without_slot limit s w :
  wf_world limit w ->
  OD.pop (s_sequential_msg_id s) (SEQUENTIAL_MSG (stored limit s w))
  = Some (without (s_sequential_msg_id s) (SEQUENTIAL_MSG (stored limit s w))).
Proof.
  intros Hwf. destruct (stored_slot limit s w Hwf) as (Hself & Hnd1 & _).
  destruct (od_pop_Some _ _ _ Hnd1 Hself) as (d' & Hpop & _).
  unfold without. by rewrite Hpop.
Qed.

Lemma without_wf limit s w y n :
  wf_world limit w ->
  sequential_msg_id y = s_sequential_msg_id s ->
  wf_world limit
    (mkWorld (without (s_sequential_msg_id s) (SEQUENTIAL_MSG (stored limit s w)))
             (heap w ++ [y]) n)
  /\ OD.get (s_sequential_msg_id s)
       (without (s_sequential_msg_id s) (SEQUENTIAL_MSG (stored limit s w))) = None
  /\ forall k, k <> s_sequential_msg_id s ->
       OD.get k (without (s_sequential_msg_id s) (SEQUENTIAL_MSG (stored limit s w)))
       = OD.get k (SEQUENTIAL_MSG (stored limit s w)).
Proof.
  intros Hwf Hy.
  destruct (stored_slot limit s w Hwf) as (Hself & Hnd1 & Hlim1 & Hrefs1).
  destruct (od_pop_Some _ _ _ Hnd1 Hself) as (d' & Hpop & Hnone & Hoth & Hnd' & Hlen & HF).
  unfold without. rewrite Hpop. repeat split; try done.
  - cbn [heap SEQUENTIAL_MSG]. apply (keyed_in_last _ (new_VDM s)); [done|].
    by apply HF.
  - cbn [SEQUENTIAL_MSG]. destruct limit as [|b]; [done|]. simpl in *. lia.
Qed.

Lemma stored_wf limit s w y n :
  wf_world limit w ->
  sequential_msg_id y = s_sequential_msg_id s ->
  wf_world limit (mkWorld (SEQUENTIAL_MSG (stored limit s w)) (heap w ++ [y]) n).
Proof.
  intros Hwf Hy.
  destruct (stored_slot limit s w Hwf) as (Hself & Hnd1 & Hlim1 & Hrefs1).
  repeat split; try done.
  cbn [heap SEQUENTIAL_MSG]. by apply (keyed_in_last _ (new_VDM s)).
Qed.


(** ** The fragment before *)

Lemma previous_eq s w :
  keyed_in (heap w) (SEQUENTIAL_MSG w) ->
  match (if s_fragment s =? 1 then None
         else OD.get (s_sequential_msg_id s) (SEQUENTIAL_MSG w)) with
  | None => previous s w = (0, ""%string)
  | Some p => exists o, heap w !! p = Some o
                        /\ previous s w = (fragment o, payload o)
  end.
Proof.
  intros Hrefs. unfold previous. destruct (s_fragment s =? 1); [done|].
  destruct (OD.get _ _) as [p|] eqn:Hg; [|done].
  destruct (od_get_Forall _ _ _ _ Hrefs Hg) as (o & Ho & _). simpl in Ho.
  exists o. by rewrite Ho.
Qed.

Lemma prev_step limit s w :
  keyed_in (heap w) (SEQUENTIAL_MSG w) ->
  (match (if s_fragment s =? 1 then None
          else OD.get (s_sequential_msg_id s) (SEQUENTIAL_MSG w)) with
   | Some p => o <- deref p ;; ret (fragment o, payload o)
   | None => ret (0, ""%string)
   end) (stored limit s w) = (inr (previous s w), stored limit s w).
Proof.
  intros Hrefs. pose proof (previous_eq s w Hrefs) as H.
  destruct (if s_fragment s =? 1 then None else _) as [p|].
  - destruct H as (o & Ho & ->).
    erewrite bind_inr; [reflexivity|].
    apply deref_eq. rewrite stored_heap. by apply lookup_app_l_Some.
  - by rewrite H.
Qed.


(** The expected fragment number is 1 for a fragment numbered 1 and for an id
    without a slot, else one more than the number of the slot's object. *)
Lemma expected_next_spec s w :
  (s_fragment s = 1 -> expected_next s w = 1)
  /\ (OD.get (s_sequential_msg_id s) (SEQUENTIAL_MSG w) = None ->
      expected_next s w = 1)
  /\ (forall p o,
        s_fragment s <> 1 ->
        OD.get (s_sequential_msg_id s) (SEQUENTIAL_MSG w) = Some p ->
        heap w !! p = Some o ->
        expected_next s w = fragment o + 1).
Proof.
  unfold expected_next, previous. repeat split.
  - intros ->. done.
  - intros ->. by destruct (s_fragment s =? 1).
  - intros p o Hf -> ->. apply Z.eqb_neq in Hf. by rewrite Hf.
Qed.

(** ** The ways a call ends *)

(** Symbolic execution of [parse_payload] on a freshly allocated object, up to
    the check of line 186. *)
Ltac run_prefix Hwf :=
  unfold parse_payload;
  erewrite bind_inr;
    [|apply deref_eq; cbn [heap]; by apply list_lookup_middle];
  erewrite bind_inr by reflexivity;
  erewrite bind_inr by reflexivity;
  erewrite bind_inr; [|apply enforce_limit_eq; apply od_set_not_nil];
  cbn [new_VDM sequential_msg_id fragment payload count SEQUENTIAL_MSG heap
       notified];
  match goal with
  | |- context [evicted ?l (mkWorld (OD.set (s_sequential_msg_id ?s) _ (SEQUENTIAL_MSG ?w)) _ _)] =>
      fold (stored l s w)
  end;
  erewrite bind_inr; [|apply prev_step; apply Hwf].

Lemma parse_payload_out_of_turn limit s w last prev_payload :
  wf_world limit w ->
  previous s w = (last, prev_payload) -> last + 1 <> s_fragment s ->
  parse_payload limit (length (heap w)) (allocated s w) =
    (inl (IncompleteMessageError (missing_message (last + 1))),
     mkWorld (without (s_sequential_msg_id s) (SEQUENTIAL_MSG (stored limit s w)))
             (heap w ++ [new_VDM s]) (notified (stored limit s w))).
Proof.
  intros Hwf Hprev Hne. unfold allocated. run_prefix Hwf.
  rewrite Hprev. apply Z.eqb_neq in Hne. rewrite Hne. cbn [negb].
  erewrite bind_inr; [|apply seq_pop_eq; by apply without_slot].
  unfold raise. by rewrite stored_heap.
Qed.

Lemma parse_payload_pending limit s w last prev_payload :
  wf_world limit w ->
  previous s w = (last, prev_payload) -> last + 1 = s_fragment s ->
  s_count s <> s_fragment s ->
  parse_payload limit (length (heap w)) (allocated s w) =
    (inr None,
     mkWorld (SEQUENTIAL_MSG (stored limit s w))
             (heap w ++ [set_payload (prev_payload ++ s_payload s)%string (new_VDM s)])
             (notified (stored limit s w))).
Proof.
  intros Hwf Hprev He Hc. unfold allocated. run_prefix Hwf.
  rewrite Hprev. apply Z.eqb_eq in He. rewrite He. cbn [negb].
  erewrite bind_inr;
    [|apply modify_eq; rewrite stored_heap; by apply list_lookup_middle].
  cbn [SEQUENTIAL_MSG heap notified]. rewrite stored_heap, insert_last.
  erewrite bind_inr;
    [|apply deref_eq; cbn [heap]; by apply list_lookup_middle].
  unfold is_complete. cbn [set_payload new_VDM count fragment].
  apply Z.eqb_neq in Hc. by rewrite Hc.
Qed.

Lemma parse_payload_complete limit s w last prev_payload :
  wf_world limit w ->
  previous s w = (last, prev_payload) -> last + 1 = s_fragment s ->
  s_count s = s_fragment s ->
  let o := set_payload (prev_payload ++ s_payload s)%string (new_VDM s) in
  let d := without (s_sequential_msg_id s) (SEQUENTIAL_MSG (stored limit s w)) in
  parse_payload limit (length (heap w)) (allocated s w) =
    match parse_complete_payload (prev_payload ++ s_payload s)%string with
    | inl e => (inl e, mkWorld d (heap w ++ [o]) (notified (stored limit s w)))
    | inr fields =>
        (inr (Some (length (heap w))),
         mkWorld d (heap w ++ [set_sub_fields fields o])
                 (notified (stored limit s w)))
    end.
Proof.
  intros Hwf Hprev He Hc o d. unfold allocated. run_prefix Hwf.
  rewrite Hprev. apply Z.eqb_eq in He. rewrite He. cbn [negb].
  erewrite bind_inr;
    [|apply modify_eq; rewrite stored_heap; by apply list_lookup_middle].
  cbn [SEQUENTIAL_MSG heap notified]. rewrite stored_heap, insert_last.
  erewrite bind_inr;
    [|apply deref_eq; cbn [heap]; by apply list_lookup_middle].
  unfold is_complete. cbn [set_payload new_VDM count fragment sequential_msg_id payload].
  apply Z.eqb_eq in Hc. rewrite Hc.
  erewrite bind_inr; [|apply seq_pop_eq; by apply without_slot].
  fold d. unfold lift.
  destruct (parse_complete_payload _) as [e|fields].
  - by erewrite bind_inl by reflexivity.
  - erewrite bind_inr by reflexivity.
    erewrite bind_inr;
      [|apply modify_eq; cbn [heap]; by apply list_lookup_middle].
    cbn [SEQUENTIAL_MSG heap notified]. by rewrite insert_last.
Qed.

Lemma VDM_init_unparsed limit s w :
  s_payload s = ""%string ->
  VDM_init limit s w =
    (inr (length (heap w)),
     mkWorld (SEQUENTIAL_MSG w) (heap w ++ [new_VDM s]) (notified w)).
Proof.
  intros H. unfold VDM_init, bind, alloc, ret. rewrite H. reflexivity.
Qed.

Lemma VDM_init_eq limit s w :
  s_payload s <> ""%string ->
  VDM_init limit s w =
    match parse_payload limit (length (heap w)) (allocated s w) with
    | (inr _, w') => (inr (length (heap w)), w')
    | (inl e, w') => (inl e, w')
    end.
Proof.
  intros Hp. unfold VDM_init. erewrite bind_inr by reflexivity.
  destruct (String.eqb_spec (s_payload s) "") as [|_]; [done|]. cbn [negb].
  fold (allocated s w). unfold bind, ret.
  by destruct (parse_payload _ _ _) as [[e|r] w'].
Qed.

(** A first fragment of a longer message is stored as it came. *)
Lemma VDM_init_first limit s w :
  wf_world limit w -> s_payload s <> ""%string ->
  s_fragment s = 1 -> s_count s <> 1 ->
  VDM_init limit s w =
    (inr (length (heap w)),
     mkWorld (SEQUENTIAL_MSG (stored limit s w)) (heap w ++ [new_VDM s])
             (notified (stored limit s w))).
Proof.
  intros Hwf Hp Hf Hc. rewrite VDM_init_eq by done.
  assert (Hprev : previous s w = (0, ""%string)).
  { unfold previous. by rewrite Hf. }
  rewrite (parse_payload_pending limit s w _ _ Hwf Hprev); [done|lia|lia].
Qed.

(** A fragment that continues its message without ending it. *)
Lemma VDM_init_next limit s w last prev_payload :
  wf_world limit w -> s_payload s <> ""%string ->
  previous s w = (last, prev_payload) -> last + 1 = s_fragment s ->
  s_count s <> s_fragment s ->
  VDM_init limit s w =
    (inr (length (heap w)),
     mkWorld (SEQUENTIAL_MSG (stored limit s w))
             (heap w ++ [set_payload (prev_payload ++ s_payload s)%string
                                     (new_VDM s)])
             (notified (stored limit s w))).
Proof.
  intros Hwf Hp Hprev He Hc. rewrite VDM_init_eq by done.
  by rewrite (parse_payload_pending limit s w _ _ Hwf Hprev He Hc).
Qed.

(** A fragment that ends its message. *)
Lemma VDM_init_last limit s w last prev_payload fields :
  wf_world limit w -> s_payload s <> ""%string ->
  previous s w = (last, prev_payload) -> last + 1 = s_fragment s ->
  s_count s = s_fragment s ->
  parse_complete_payload (prev_payload ++ s_payload s)%string = inr fields ->
  VDM_init limit s w =
    (inr (length (heap w)),
     mkWorld (without (s_sequential_msg_id s) (SEQUENTIAL_MSG (stored limit s w)))
             (heap w ++ [set_sub_fields fields
                           (set_payload (prev_payload ++ s_payload s)%string
                                        (new_VDM s))])
             (notified (stored limit s w))).
Proof.
  intros Hwf Hp Hprev He Hc Hdec. rewrite VDM_init_eq by done.
  rewrite (parse_payload_complete limit s w _ _ Hwf Hprev He Hc).
  by rewrite Hdec.
Qed.

(** A fragment numbered 1 starts afresh, whatever the map holds for its id:
    the new object keeps its own payload and takes the slot, or completes at
    once when it is the only fragment and the decoder accepts it. *)
Lemma VDM_init_restart limit s w :
  wf_world limit w -> s_payload s <> ""%string -> s_fragment s = 1 ->
  (s_count s = 1 -> exists raw, aivdm_unpack (s_payload s) = inr raw) ->
  exists w' o,
    VDM_init limit s w = (inr (length (heap w)), w')
    /\ heap w' = heap w ++ [o]
    /\ payload o = s_payload s
    /\ OD.get (s_sequential_msg_id s) (SEQUENTIAL_MSG w')
       = (if s_count s =? 1 then None else Some (length (heap w)))
    /\ (forall k, k <> s_sequential_msg_id s ->
          OD.get k (SEQUENTIAL_MSG w')
          = OD.get k (SEQUENTIAL_MSG (stored limit s w))).
Proof.
  intros Hwf Hp Hf Hdec.
  assert (Hprev : previous s w = (0, ""%string)).
  { unfold previous. by rewrite Hf. }
  destruct (without_wf limit s w (new_VDM s) [] Hwf eq_refl) as (_ & Hnone & Hoth).
  destruct (Z.eqb_spec (s_count s) 1) as [Hc|Hc].
  - destruct (Hdec Hc) as [raw Hraw].
    eexists. eexists. split.
    { apply (VDM_init_last limit s w 0 ""%string (map interpret_field raw));
        [done|done|done|lia|lia|].
      unfold parse_complete_payload. cbn [String.append]. by rewrite Hraw. }
    cbn [SEQUENTIAL_MSG heap]. done.
  - eexists. eexists. split; [by apply VDM_init_first|].
    cbn [SEQUENTIAL_MSG heap]. split; [done|]. split; [done|].
    split; [|done]. by destruct (stored_slot limit s w Hwf) as (-> & _).
Qed.

(** The three ways a call that parses can end. *)
Lemma VDM_init_outcome limit s w :
  wf_world limit w -> s_payload s <> ""%string ->
  (VDM_init limit s w).1 =
    let '(last, prev_payload) := previous s w in
    if last + 1 =? s_fragment s
    then if s_count s =? s_fragment s
         then match parse_complete_payload (prev_payload ++ s_payload s)%string with
              | inl e => inl e
              | inr _ => inr (length (heap w))
              end
         else inr (length (heap w))
    else inl (IncompleteMessageError (missing_message (last + 1))).
Proof.
  intros Hwf Hp. rewrite VDM_init_eq by done.
  destruct (previous s w) as [last prev_payload] eqn:Hprev.
  destruct (Z.eqb_spec (last + 1) (s_fragment s)) as [He|Hne].
  - destruct (Z.eqb_spec (s_count s) (s_fragment s)) as [Hc|Hc].
    + rewrite (parse_payload_complete limit s w _ _ Hwf Hprev He Hc).
      by destruct (parse_complete_payload _).
    + by rewrite (parse_payload_pending limit s w _ _ Hwf Hprev He Hc).
  - by rewrite (parse_payload_out_of_turn limit s w _ _ Hwf Hprev Hne).
Qed.

(** The outcome of a call that parses, and what it leaves of the map. *)
Lemma VDM_init_world limit s w :
  wf_world limit w -> s_payload s <> ""%string ->
  let w' := (VDM_init limit s w).2 in
  let d := SEQUENTIAL_MSG (stored limit s w) in
  notified w' = notified (stored limit s w)
  /\ (SEQUENTIAL_MSG w' = d \/ SEQUENTIAL_MSG w' = without (s_sequential_msg_id s) d)
  /\ exists y, heap w' = heap w ++ [y]
               /\ sequential_msg_id y = s_sequential_msg_id s.
Proof.
  intros Hwf Hp. rewrite VDM_init_eq by done.
  destruct (previous s w) as [last prev_payload] eqn:Hprev.
  destruct (Z.eq_dec (last + 1) (s_fragment s)) as [He|Hne].
  - destruct (Z.eq_dec (s_count s) (s_fragment s)) as [Hc|Hc].
    + rewrite (parse_payload_complete limit s w _ _ Hwf Hprev He Hc).
      destruct (parse_complete_payload _); cbn; eauto 6.
    + rewrite (parse_payload_pending limit s w _ _ Hwf Hprev He Hc).
      cbn. eauto 6.
  - rewrite (parse_payload_out_of_turn limit s w _ _ Hwf Hprev Hne).
    cbn. eauto 6.
Qed.


(** ** The invariant holds in every state that is reached *)

Lemma wf_world_Unbounded limit w : wf_world limit w -> wf_world Unbounded w.
Proof. intros (Hnd & Hk & _). by repeat split. Qed.

(** The invariant is kept by every call, whatever its outcome. *)
Lemma VDM_init_wf limit s w :
  wf_world limit w -> wf_world limit (VDM_init limit s w).2.
Proof.
  intros Hwf. destruct (String.eqb_spec (s_payload s) "") as [He|Hp].
  - rewrite VDM_init_unparsed by done. destruct Hwf as (Hnd & Hrefs & Hlim).
    repeat split; try done. by apply keyed_in_app.
  - rewrite VDM_init_eq by done.
    destruct (previous s w) as [last prev_payload] eqn:Hprev.
    destruct (Z.eq_dec (last + 1) (s_fragment s)) as [He|Hne].
    + destruct (Z.eq_dec (s_count s) (s_fragment s)) as [Hc|Hc].
      * rewrite (parse_payload_complete limit s w _ _ Hwf Hprev He Hc).
        destruct (parse_complete_payload _); by apply without_wf.
      * rewrite (parse_payload_pending limit s w _ _ Hwf Hprev He Hc).
        by apply stored_wf.
    + rewrite (parse_payload_out_of_turn limit s w _ _ Hwf Hprev Hne).
      by apply without_wf.
Qed.

Lemma reachable_wf limit w :
  within limit 0 -> reachable limit w -> wf_world limit w.
Proof.
  intros Hok. induction 1 as [|w s Hw IH].
  - repeat split; [apply NoDup_nil_2|apply Forall_nil_2|done].
  - by apply VDM_init_wf.
Qed.


(** ** A message delivered fragment by fragment *)

Lemma in_order_tail id total k s l :
  in_order id total k (s :: l) -> in_order id total (k + 1) l.
Proof.
  intros H i s' Hi. destruct (H (S i) s' Hi) as (Hf & Hrest).
  split; [lia|done].
Qed.

Lemma accept_chain limit id total l :
  forall k acc w fields,
    wf_world limit w -> 0 <= k -> l <> [] ->
    in_order id total k l -> total = k + Z.of_nat (length l) ->
    (forall s, head l = Some s -> previous s w = (k, acc)) ->
    parse_complete_payload (acc ++ concat_payloads l)%string = inr fields ->
    exists rs r w' o,
      accept_all limit l w = (inr rs, w')
      /\ last rs = Some r
      /\ heap w' !! r = Some o
      /\ payload o = (acc ++ concat_payloads l)%string
      /\ is_complete o = true
      /\ sub_fields o = fields
      /\ OD.get id (SEQUENTIAL_MSG w') = None.
Proof.
  induction l as [|s l IH]; [done|].
  intros k acc w fields Hwf Hk _ Hord Htot Hprev Hdec.
  destruct (Hord 0%nat s eq_refl) as (Hf & Hc & Hid & Hp).
  specialize (Hprev s eq_refl). rewrite Z.add_0_r in Hf.
  destruct l as [|s' l].
  - (* the last fragment *)
    unfold concat_payloads in Hdec |- *. simpl in Hdec, Htot |- *.
    rewrite append_empty_r in Hdec |- *.
    assert (Hcf : s_count s = s_fragment s) by lia.
    exists [length (heap w)], (length (heap w)).
    eexists. eexists. split.
    { erewrite bind_inr; [reflexivity|].
      apply (VDM_init_last limit s w k acc fields); auto. }
    cbn [SEQUENTIAL_MSG heap notified].
    split; [done|]. split; [by apply list_lookup_middle|].
    split; [done|]. split.
    { unfold is_complete. cbn. by apply Z.eqb_eq. }
    split; [done|]. rewrite <- Hid.
    by apply (without_wf limit s w (new_VDM s) []).
  - (* a fragment in the middle *)
    assert (Hcf : s_count s <> s_fragment s).
    { simpl in Htot. lia. }
    pose proof (VDM_init_next limit s w k acc Hwf Hp Hprev (eq_sym Hf) Hcf) as Hs.
    set (o1 := set_payload (acc ++ s_payload s)%string (new_VDM s)) in *.
    set (w1 := mkWorld _ _ _) in Hs.
    assert (Hwf1 : wf_world limit w1) by (by apply stored_wf).
    destruct (Hord 1%nat s' eq_refl) as (Hf' & Hc' & Hid' & Hp').
    destruct (IH (k + 1) (acc ++ s_payload s)%string w1 fields)
      as (rs & r & w' & o & Hrun & Hlast & Ho & Hpay & Hco & Hsf & Hnone).
    + done.
    + lia.
    + done.
    + by apply (in_order_tail _ _ _ s).
    + simpl in Htot |- *. lia.
    + intros s0 [= <-]. unfold previous.
      destruct (Z.eqb_spec (s_fragment s') 1) as [|_]; [lia|].
      rewrite Hid', <- Hid. unfold w1. cbn [SEQUENTIAL_MSG heap].
      destruct (stored_slot limit s w Hwf) as (-> & _).
      rewrite list_lookup_middle by done. unfold o1.
      cbn [set_payload new_VDM fragment payload]. by rewrite Hf.
    + rewrite append_assoc. exact Hdec.
    + exists (length (heap w) :: rs), r, w', o. split.
      { change (accept_all limit (s :: s' :: l) w)
          with (bind (VDM_init limit s)
                  (fun r => rs <- accept_all limit (s' :: l) ;; ret (r :: rs)) w).
        erewrite bind_inr by exact Hs.
        erewrite bind_inr by exact Hrun. done. }
      split.
      { destruct rs; [done|]. exact Hlast. }
      rewrite append_assoc in Hpay. done.
Qed.

(** ** Numerals in messages *)
Lemma repr_int_decimal n : decimal_numeral n (repr_int n).
Proof.
  unfold decimal_numeral, repr_int. apply NilZero.isi.
  - intros H. pose proof (DecimalZ.of_to n) as E. rewrite H in E.
    simpl in E. subst n. discriminate.
  - intros H. pose proof (DecimalZ.of_to n) as E. rewrite H in E.
    simpl in E. subst n. discriminate.
Qed.

Lemma decimal_numeral_unique n d1 d2 :
  decimal_numeral n d1 -> decimal_numeral n d2 -> d1 = d2.
Proof.
  unfold decimal_numeral. intros H1 H2.
  apply NilZero.sis in H1, H2. congruence.
Qed.

(** ** A limit below one: the slot just stored is the one evicted *)
Lemma stored_no_capacity n s w :
  n <= 0 -> SEQUENTIAL_MSG w = [] ->
  stored (Bounded n) s w =
    mkWorld [] (heap w ++ [new_VDM s])
            (notified w ++ [limit_message (s_sequential_msg_id s)]).
Proof.
  intros Hn Hw. unfold stored, evicted. rewrite Hw.
  cbn [SEQUENTIAL_MSG heap notified OD.set length exceeds].
  destruct (Z.ltb_spec n (Z.of_nat 1)) as [_|]; [done|lia].
Qed.

Lemma VDM_init_no_capacity n s w :
  n <= 0 -> SEQUENTIAL_MSG w = [] -> s_payload s <> ""%string ->
  VDM_init (Bounded n) s w =
    (if (s_fragment s =? 1) && negb (s_count s =? 1)
     then inr (length (heap w))
     else inl (KeyError (s_sequential_msg_id s)),
     mkWorld [] (heap w ++ [new_VDM s])
             (notified w ++ [limit_message (s_sequential_msg_id s)])).
Proof.
  intros Hn Hw Hp. rewrite (VDM_init_eq (Bounded n) s w Hp).
  assert (Hk : keyed_in (heap w) (SEQUENTIAL_MSG w)).
  { rewrite Hw. apply Forall_nil_2. }
  assert (Hprev : previous s w = (0, ""%string)).
  { unfold previous. rewrite Hw. simpl. by destruct (s_fragment s =? 1). }
  unfold allocated. run_prefix Hk.
  rewrite Hprev, (stored_no_capacity n s w Hn Hw). change (0 + 1) with 1.
  destruct (Z.eqb_spec 1 (s_fragment s)) as [Hf|Hf]; cbn [negb].
  - erewrite bind_inr;
      [|apply modify_eq; cbn [heap]; by apply list_lookup_middle].
    cbn [SEQUENTIAL_MSG heap notified]. rewrite insert_last.
    erewrite bind_inr;
      [|apply deref_eq; cbn [heap]; by apply list_lookup_middle].
    unfold is_complete.
    cbn [set_payload new_VDM count fragment sequential_msg_id payload].
    rewrite <- Hf. simpl (1 =? 1). cbn [andb].
    destruct (s_count s =? 1); cbn [negb]; [|by destruct s].
    erewrite bind_inl; [|unfold seq_pop; cbn [SEQUENTIAL_MSG OD.pop]; reflexivity].
    by destruct s.
  - erewrite bind_inl; [|unfold seq_pop; cbn [SEQUENTIAL_MSG OD.pop]; reflexivity].
    destruct (Z.eqb_spec (s_fragment s) 1) as [|_]; [congruence|]. done.
Qed.

Lemma reachable_no_capacity n w :
  n <= 0 -> reachable (Bounded n) w -> SEQUENTIAL_MSG w = [].
Proof.
  intros Hn. induction 1 as [|w s _ IH]; [done|].
  destruct (String.eqb_spec (s_payload s) "") as [He|Hne].
  - by rewrite (VDM_init_unparsed (Bounded n) s w He).
  - by rewrite (VDM_init_no_capacity n s w Hn IH Hne).
Qed.

(** ** The claims *)

(** C1. An n-fragment message delivered in order (fragment numbers 1..n,
    one sequential id, fragment count n, every fragment with a payload)
    to a state that satisfies the invariant: every call returns, the object
    built for the final fragment is complete, its payload is the
    concatenation of the fragments' payloads in the order of delivery, its
    [sub_fields] are the interpreted fields of that payload, and the map
    has no slot for the id afterwards.  The bit decoder is assumed to accept
    the assembled payload. *)
Theorem in_order_delivery_completes limit id l w raw :
  wf_world limit w ->
  l <> [] ->
  in_order id (Z.of_nat (length l)) 0 l ->
  aivdm_unpack (concat_payloads l) = inr raw ->
  exists rs r w' o,
    accept_all limit l w = (inr rs, w')
    /\ length rs = length l
    /\ last rs = Some r
    /\ heap w' !! r = Some o
    /\ is_complete o = true
    /\ payload o = concat_payloads l
    /\ sub_fields o = map interpret_field raw
    /\ OD.get id (SEQUENTIAL_MSG w') = None.
Proof.
  intros Hwf Hne Hord Hdec.
  destruct (accept_chain limit id (Z.of_nat (length l)) l 0 ""%string w
              (map interpret_field raw))
    as (rs & r & w' & o & Hrun & Hlast & Ho & Hpay & Hco & Hsf & Hnone);
    try done.
  - intros s Hs. destruct l as [|s0 l]; [done|]. injection Hs as ->.
    destruct (Hord 0%nat s eq_refl) as (Hf & _).
    unfold previous. by rewrite Hf.
  - unfold parse_complete_payload. cbn [String.append]. by rewrite Hdec.
  - exists rs, r, w', o. repeat split; try done.
    clear -Hrun. revert w rs w' Hrun.
    induction l as [|s l IH]; intros w rs w' Hrun.
    + by injection Hrun as <- _.
    + cbn [accept_all] in Hrun. unfold bind at 1 in Hrun.
      destruct (VDM_init limit s w) as [[e|r] w1]; [done|].
      unfold bind at 1 in Hrun.
      destruct (accept_all limit l w1) as [[e|rs'] w2] eqn:E; [done|].
      injection Hrun as <- _. simpl. by rewrite (IH _ _ _ E).
Qed.

(** C2. A fragment with a payload whose number is not the expected one fails
    with [IncompleteMessageError].  The expected number is the fragment
    number of the object in the slot of its id plus one, or 1 when the id has
    no slot (or the fragment is numbered 1, which can then not be out of
    turn).  The message of the error is the text
    "Missing sequential message fragment ", the decimal numeral of the
    expected number, and "!".  The slot of the id is gone when the error is
    raised; and a following fragment numbered 1 with that id is accepted: its
    object holds just its own payload and takes the slot of the id (a
    single-fragment message, which the decoder is assumed to accept,
    completes at once instead). *)
Theorem out_of_turn_fragment limit s w :
  wf_world limit w ->
  s_payload s <> ""%string ->
  s_fragment s <> expected_next s w ->
  let w' := (VDM_init limit s w).2 in
  (exists digits,
     (VDM_init limit s w).1
       = inl (IncompleteMessageError
                ("Missing sequential message fragment " ++ digits ++ "!")%string)
     /\ decimal_numeral (expected_next s w) digits)
  /\ (OD.get (s_sequential_msg_id s) (SEQUENTIAL_MSG w) = None ->
      expected_next s w = 1)
  /\ (forall p o,
        OD.get (s_sequential_msg_id s) (SEQUENTIAL_MSG w) = Some p ->
        heap w !! p = Some o ->
        expected_next s w = fragment o + 1)
  /\ OD.get (s_sequential_msg_id s) (SEQUENTIAL_MSG w') = None
  /\ forall s2,
       s_sequential_msg_id s2 = s_sequential_msg_id s ->
       s_fragment s2 = 1 -> s_payload s2 <> ""%string ->
       (s_count s2 = 1 -> exists raw, aivdm_unpack (s_payload s2) = inr raw) ->
       exists w'' o,
         VDM_init limit s2 w' = (inr (length (heap w')), w'')
         /\ heap w'' !! length (heap w') = Some o
         /\ payload o = s_payload s2
         /\ OD.get (s_sequential_msg_id s) (SEQUENTIAL_MSG w'')
            = (if s_count s2 =? 1 then None else Some (length (heap w'))).
Proof.
  intros Hwf Hp Hne w'.
  assert (Hwf' : wf_world limit w') by (by apply VDM_init_wf).
  destruct (expected_next_spec s w) as (Hone & Hnone & Hsome).
  assert (Hf1 : s_fragment s <> 1).
  { intros Hf. apply Hne. by rewrite Hone. }
  split; [|split; [exact Hnone|split; [intros p o; by apply Hsome|]]].
  { exists (repr_int (expected_next s w)). split; [|apply repr_int_decimal].
    unfold expected_next in *. rewrite VDM_init_eq by done.
    destruct (previous s w) as [last prev_payload] eqn:Hprev. cbn [fst] in *.
    rewrite (parse_payload_out_of_turn limit s w _ _ Hwf Hprev) by congruence.
    done. }
  clear Hone Hnone Hsome.
  unfold expected_next in *. subst w'. revert Hwf'.
  rewrite VDM_init_eq by done.
  destruct (previous s w) as [last prev_payload] eqn:Hprev. cbn [fst] in *.
  rewrite (parse_payload_out_of_turn limit s w _ _ Hwf Hprev) by congruence.
  cbn [fst snd]. set (w' := mkWorld _ _ _). intros Hwf'.
  split.
  { by apply (without_wf limit s w (new_VDM s) []). }
  intros s2 Hid Hf2 Hp2 Hdec.
  destruct (VDM_init_restart limit s2 w' Hwf' Hp2 Hf2 Hdec)
    as (w'' & o & Hrun & Hheap & Hpay & Hslot & _).
  exists w'', o. split; [done|]. split.
  { rewrite Hheap. by apply list_lookup_middle. }
  split; [done|]. by rewrite <- Hid.
Qed.

(** C4. When the map holds a chain for an id, a fragment numbered 1 with that
    id and a payload is accepted without error: the new object's payload is
    its own chunk alone, the slot of the id holds the new object (or, for a
    single-fragment message, is gone), no slot holds the old chain's object
    any more, and that object is left as it was.  For a single-fragment
    message the bit decoder is assumed to accept the payload. *)
Theorem restart_discards_chain limit s w p old :
  wf_world limit w ->
  OD.get (s_sequential_msg_id s) (SEQUENTIAL_MSG w) = Some p ->
  heap w !! p = Some old ->
  s_fragment s = 1 ->
  s_payload s <> ""%string ->
  (s_count s = 1 -> exists raw, aivdm_unpack (s_payload s) = inr raw) ->
  exists w' o,
    VDM_init limit s w = (inr (length (heap w)), w')
    /\ heap w' !! length (heap w) = Some o
    /\ payload o = s_payload s
    /\ OD.get (s_sequential_msg_id s) (SEQUENTIAL_MSG w')
       = (if s_count s =? 1 then None else Some (length (heap w)))
    /\ (forall k, OD.get k (SEQUENTIAL_MSG w') <> Some p)
    /\ heap w' !! p = Some old.
Proof.
  intros Hwf Hslot Hold Hf Hp Hdec.
  assert (Hst := stored_present limit s w Hwf (ex_intro _ p Hslot)).
  assert (Hlt : (p < length (heap w))%nat) by (by apply lookup_lt_Some in Hold).
  destruct (VDM_init_restart limit s w Hwf Hp Hf Hdec)
    as (w' & o & Hrun & Hheap & Hpay & Hnew & Hoth).
  exists w', o. split; [done|]. rewrite Hheap.
  split; [by apply list_lookup_middle|]. split; [done|]. split; [done|].
  split; [|by apply lookup_app_l_Some].
  intros k Hk. destruct (String.eqb_spec k (s_sequential_msg_id s)) as [->|Hne].
  - rewrite Hnew in Hk. destruct (s_count s =? 1); [done|].
    injection Hk as Hk. lia.
  - rewrite Hoth, Hst in Hk by done. cbn [SEQUENTIAL_MSG] in Hk.
    rewrite od_get_set_ne in Hk by done.
    destruct Hwf as (_ & Hkeyed & _).
    destruct (od_get_Forall _ _ _ _ Hkeyed Hk) as (o1 & Ho1 & Hid1).
    destruct (od_get_Forall _ _ _ _ Hkeyed Hslot) as (o2 & Ho2 & Hid2).
    simpl in *. congruence.
Qed.

(** C5, as amended. With a limit of at least 1, when storing a fragment makes
    the map hold more slots than the limit allows, the slot at the front of
    the map (the oldest by insertion) is the one slot that goes, and
    [NOTIFY] is called once, with the text
    "Failed to complete a sequential message with id ", the [repr] of the
    evicted id, and " (limit reached).".  The eviction itself raises nothing:
    the call ends as it does without a limit, never in [KeyError] or
    [IndexError].  The id of the fragment is then new to the map, so the call
    returns when the fragment is numbered 1 (a single-fragment message being
    decoded at once, which the decoder is assumed to accept), and a fragment
    with another number is refused, after the eviction and the notification,
    with the [IncompleteMessageError] that asks for fragment 1.  With a limit
    of 1 and one id in flight, a fragment of another id evicts that id and
    notifies once, naming it. *)
Theorem capacity_eviction :
  (forall limit s w,
     wf_world limit w ->
     s_payload s <> ""%string ->
     exceeds (length (OD.set (s_sequential_msg_id s) (length (heap w))
                             (SEQUENTIAL_MSG w))) limit = true ->
     exists old r rest,
       SEQUENTIAL_MSG w = (old, r) :: rest
       /\ old <> s_sequential_msg_id s
       /\ notified (VDM_init limit s w).2
          = notified w
            ++ [("Failed to complete a sequential message with id "
                 ++ repr_str old ++ " (limit reached).")%string]
       /\ OD.get old (SEQUENTIAL_MSG (VDM_init limit s w).2) = None
       /\ (forall k, k <> old -> k <> s_sequential_msg_id s ->
             OD.get k (SEQUENTIAL_MSG (VDM_init limit s w).2)
             = OD.get k (SEQUENTIAL_MSG w))
       /\ (VDM_init limit s w).1 = (VDM_init Unbounded s w).1
       /\ (forall k, (VDM_init limit s w).1 <> inl (KeyError k))
       /\ (VDM_init limit s w).1 <> inl IndexError
       /\ (s_fragment s = 1 ->
           (s_count s = 1 -> exists raw, aivdm_unpack (s_payload s) = inr raw) ->
           (VDM_init limit s w).1 = inr (length (heap w)))
       /\ (s_fragment s <> 1 ->
           (VDM_init limit s w).1
           = inl (IncompleteMessageError
                    "Missing sequential message fragment 1!")))
  /\ (forall s w first r,
        wf_world (Bounded 1) w ->
        SEQUENTIAL_MSG w = [(first, r)] ->
        s_sequential_msg_id s <> first ->
        s_payload s <> ""%string ->
        notified (VDM_init (Bounded 1) s w).2
          = notified w
            ++ [("Failed to complete a sequential message with id "
                 ++ repr_str first ++ " (limit reached).")%string]
        /\ OD.get first (SEQUENTIAL_MSG (VDM_init (Bounded 1) s w).2) = None).
Proof.
  assert (Hgen : forall limit s w,
     wf_world limit w ->
     s_payload s <> ""%string ->
     exceeds (length (OD.set (s_sequential_msg_id s) (length (heap w))
                             (SEQUENTIAL_MSG w))) limit = true ->
     exists old r rest,
       SEQUENTIAL_MSG w = (old, r) :: rest
       /\ old <> s_sequential_msg_id s
       /\ notified (VDM_init limit s w).2
          = notified w
            ++ [("Failed to complete a sequential message with id "
                 ++ repr_str old ++ " (limit reached).")%string]
       /\ OD.get old (SEQUENTIAL_MSG (VDM_init limit s w).2) = None
       /\ (forall k, k <> old -> k <> s_sequential_msg_id s ->
             OD.get k (SEQUENTIAL_MSG (VDM_init limit s w).2)
             = OD.get k (SEQUENTIAL_MSG w))
       /\ (VDM_init limit s w).1 = (VDM_init Unbounded s w).1
       /\ (forall k, (VDM_init limit s w).1 <> inl (KeyError k))
       /\ (VDM_init limit s w).1 <> inl IndexError
       /\ (s_fragment s = 1 ->
           (s_count s = 1 -> exists raw, aivdm_unpack (s_payload s) = inr raw) ->
           (VDM_init limit s w).1 = inr (length (heap w)))
       /\ (s_fragment s <> 1 ->
           (VDM_init limit s w).1
           = inl (IncompleteMessageError
                    "Missing sequential message fragment 1!"))).
  { intros limit s w Hwf Hp Hex.
    destruct (stored_evicts limit s w Hwf Hex)
      as (old & r & rest & E & Hne & Hnone & Hst).
    destruct (VDM_init_world limit s w Hwf Hp) as (Hnot & Hmap & _).
    destruct (without_wf limit s w (new_VDM s) [] Hwf eq_refl) as (_ & _ & Hoth).
    rewrite Hst in Hnot, Hmap, Hoth. cbn [SEQUENTIAL_MSG notified] in *.
    assert (Hnd : NoDup (OD.keys ((old, r) :: rest))).
    { rewrite <- E. by destruct Hwf. }
    simpl in Hnd. apply NoDup_cons in Hnd as [Hold _].
    assert (Hget : forall k, k <> s_sequential_msg_id s ->
              OD.get k (rest ++ [(s_sequential_msg_id s, length (heap w))])
              = OD.get k rest).
    { intros k Hk. rewrite <- (od_set_absent _ _ rest) by done.
      by apply od_get_set_ne. }
    assert (Hrest : forall k, k <> s_sequential_msg_id s ->
              OD.get k (SEQUENTIAL_MSG (VDM_init limit s w).2) = OD.get k rest).
    { intros k Hk. destruct Hmap as [-> | ->].
      - by apply Hget.
      - rewrite Hoth by done. by apply Hget. }
    assert (Hnew : previous s w = (0, ""%string)).
    { unfold previous. rewrite E. simpl.
      destruct (String.eqb_spec (s_sequential_msg_id s) old) as [|_];
        [congruence|].
      rewrite Hnone. by destruct (s_fragment s =? 1). }
    exists old, r, rest. repeat split; try done.
    - rewrite Hrest by done. by apply od_get_None_keys.
    - intros k Hk1 Hk2. rewrite Hrest by done. rewrite E. simpl.
      by destruct (String.eqb_spec k old).
    - rewrite !VDM_init_outcome; try done. by apply (wf_world_Unbounded limit).
    - intros k. rewrite VDM_init_outcome by done.
      destruct (previous s w) as [last prev_payload].
      destruct (_ =? _); [|done]. destruct (_ =? _); [|done].
      unfold parse_complete_payload. by destruct (aivdm_unpack _).
    - rewrite VDM_init_outcome by done.
      destruct (previous s w) as [last prev_payload].
      destruct (_ =? _); [|done]. destruct (_ =? _); [|done].
      unfold parse_complete_payload. by destruct (aivdm_unpack _).
    - intros Hf Hdec. rewrite VDM_init_outcome by done. rewrite Hnew, Hf.
      change (0 + 1 =? 1) with true. cbv iota.
      destruct (Z.eqb_spec (s_count s) 1) as [Hc|_]; [|done].
      destruct (Hdec Hc) as (raw & Hraw).
      unfold parse_complete_payload. cbn [String.append]. by rewrite Hraw.
    - intros Hf. rewrite VDM_init_outcome by done. rewrite Hnew.
      change (0 + 1) with 1.
      by destruct (Z.eqb_spec 1 (s_fragment s)) as [|_]; [congruence|]. }
  split; [exact Hgen|].
  intros s w first r Hwf E Hne Hp.
  destruct (Hgen (Bounded 1) s w Hwf Hp) as (old & r' & rest & E' & _ & Hn & Hg & _).
  - rewrite E. simpl. by destruct (String.eqb_spec (s_sequential_msg_id s) first).
  - rewrite E in E'. injection E' as <- <- <-. done.
Qed.

(** C8. A sentence with an empty payload is not parsed: the constructor
    returns the new object with its fields as they came and no
    [sub_fields]; the map and the notifications are what they were, and so
    is every object the heap already held. *)
Theorem empty_payload_untouched limit s w :
  s_payload s = ""%string ->
  exists w',
    VDM_init limit s w = (inr (length (heap w)), w')
    /\ SEQUENTIAL_MSG w' = SEQUENTIAL_MSG w
    /\ notified w' = notified w
    /\ heap w' = heap w ++ [new_VDM s]
    /\ sub_fields (new_VDM s) = [].
Proof.
  intros Hp. eexists. split; [by apply VDM_init_unparsed|]. done.
Qed.

(** C9. With a limit of at least 1 (or none), in every state that calls of
    the constructor reach from the empty map no call ends in [KeyError]: when
    [parse_payload] pops the slot of the current id (lines 187 and 197), the
    key is there.  What keeps it there is the invariant: the map never holds
    more slots than the limit, so the eviction only follows the storing of a
    new id and takes another slot.  With a limit of 0 the eviction takes the
    slot just stored, and the pop of line 197 raises [KeyError]. *)
Theorem pop_of_current_id_safe :
  (forall limit w s k,
     within limit 0 ->
     reachable limit w ->
     (VDM_init limit s w).1 <> inl (KeyError k))
  /\ (forall limit w s k,
        wf_world limit w ->
        (VDM_init limit s w).1 <> inl (KeyError k))
  /\ (forall s,
        s_payload s <> ""%string -> s_fragment s = 1 -> s_count s = 1 ->
        (VDM_init (Bounded 0) s init_world).1
        = inl (KeyError (s_sequential_msg_id s))).
Proof.
  assert (Hsafe : forall limit w s k,
            wf_world limit w -> (VDM_init limit s w).1 <> inl (KeyError k)).
  { intros limit w s k Hwf.
    destruct (String.eqb_spec (s_payload s) "") as [He|Hp].
    - by rewrite VDM_init_unparsed.
    - rewrite VDM_init_outcome by done.
      destruct (previous s w) as [last prev_payload].
      destruct (_ =? _); [|done]. destruct (_ =? _); [|done].
      unfold parse_complete_payload. by destruct (aivdm_unpack _). }
  split; [|split; [exact Hsafe|]].
  - intros limit w s k Hok Hreach. apply Hsafe. by apply reachable_wf.
  - intros [c f id rc p fb] Hp Hf Hc. simpl in *. subst c f.
    destruct p as [|a p]; [done|].
    unfold VDM_init, init_world, parse_payload, enforce_limit, bind, alloc,
      deref, seq_get, seq_set, seq_len, seq_first, seq_pop, NOTIFY, modify,
      ret, raise, new_VDM.
    simpl. rewrite String.eqb_refl. reflexivity.
Qed.

(** C3, as amended. With a limit of at least 1 or none, in a state that
    satisfies the map's invariant (as every state reached under such a
    limit does): a single-fragment sentence (count 1, fragment 1) with a
    payload that the bit decoder accepts makes the call return the
    completed object, and when it returns the map has no slot for the id
    and holds the object under no id.  Within the call the object is stored
    like any fragment: lines 165-172 leave the world [stored], in which the
    slot of its id holds it, and what the call leaves of the map and of the
    notifications is that state with the slot popped.  With a limit below 1,
    in every state reached under it, the map is empty and the call of a
    single-fragment sentence with a payload ends in [KeyError] (line 197)
    instead, the object having been stored and evicted at once. *)
Theorem single_fragment_completes :
  (forall limit s w raw,
     wf_world limit w ->
     s_count s = 1 -> s_fragment s = 1 ->
     s_payload s <> ""%string ->
     aivdm_unpack (s_payload s) = inr raw ->
     exists w' o,
       VDM_init limit s w = (inr (length (heap w)), w')
       /\ heap w' !! length (heap w) = Some o
       /\ is_complete o = true
       /\ payload o = s_payload s
       /\ sub_fields o = map interpret_field raw
       /\ OD.get (s_sequential_msg_id s) (SEQUENTIAL_MSG w') = None
       /\ (forall k, OD.get k (SEQUENTIAL_MSG w') <> Some (length (heap w)))
       /\ bind (seq_set (s_sequential_msg_id s) (length (heap w)))
               (fun _ => enforce_limit limit) (allocated s w)
          = (inr tt, stored limit s w)
       /\ OD.get (s_sequential_msg_id s) (SEQUENTIAL_MSG (stored limit s w))
          = Some (length (heap w))
       /\ SEQUENTIAL_MSG w'
          = without (s_sequential_msg_id s) (SEQUENTIAL_MSG (stored limit s w))
       /\ notified w' = notified (stored limit s w))
  /\ (forall n s w,
        n <= 0 -> reachable (Bounded n) w ->
        s_count s = 1 -> s_fragment s = 1 ->
        s_payload s <> ""%string ->
        SEQUENTIAL_MSG w = []
        /\ VDM_init (Bounded n) s w
           = (inl (KeyError (s_sequential_msg_id s)),
              mkWorld [] (heap w ++ [new_VDM s])
                      (notified w
                       ++ [("Failed to complete a sequential message with id "
                            ++ repr_str (s_sequential_msg_id s)
                            ++ " (limit reached).")%string]))).
Proof.
  split.
  - intros limit s w raw Hwf Hc Hf Hp Hraw.
    assert (Hprev : previous s w = (0, ""%string)).
    { unfold previous. by rewrite Hf. }
    destruct (stored_slot limit s w Hwf) as (Hself & Hnd & _ & Hkeyed).
    destruct (without_wf limit s w (new_VDM s) [] Hwf eq_refl)
      as (_ & Hnone & Hoth).
    eexists. eexists. split.
    { apply (VDM_init_last limit s w 0 ""%string (map interpret_field raw));
        [done|done|done|lia|lia|].
      unfold parse_complete_payload. cbn [String.append]. by rewrite Hraw. }
    cbn [SEQUENTIAL_MSG heap notified].
    split; [by apply list_lookup_middle|].
    split; [unfold is_complete; cbn; apply Z.eqb_eq; lia|].
    repeat split; try done; [|apply stored_eq].
    intros k Hk.
    destruct (String.eqb_spec k (s_sequential_msg_id s)) as [->|Hne].
    + by rewrite Hnone in Hk.
    + rewrite Hoth in Hk by done.
      destruct (od_get_Forall _ _ _ _ Hkeyed Hk) as (o & Ho & Hid). simpl in *.
      rewrite list_lookup_middle in Ho by done. injection Ho as <-. done.
  - intros n s w Hn Hreach Hc Hf Hp.
    pose proof (reachable_no_capacity n w Hn Hreach) as Hw.
    split; [done|].
    rewrite (VDM_init_no_capacity n s w Hn Hw Hp), Hc, Hf. done.
Qed.

(** C7. A raw field of five elements, the last being the decoder: the value
    of the interpreted field is the decoder applied as a function when that
    call succeeds, else the decoder's entry for the raw value when that
    lookup succeeds, else the raw value; and a value that is text is turned
    into an integer when [int] accepts it, else into a float when [float]
    accepts it, else kept.  The value is the second element of the output
    field, the raw value follows the display name. *)
Theorem decoder_field_interpreted payload raw (i : nat) f0 f1 f2 f3 f4 :
  aivdm_unpack payload = inr raw ->
  raw !! i = Some [f0; f1; f2; f3; f4] ->
  exists out v val,
    parse_complete_payload payload = inr out
    /\ decoded f4 f1 v
    /\ coerced v val
    /\ out !! i = Some [f0; val; f2; f3; f1; f4].
Proof.
  intros Hraw Hi.
  exists (map interpret_field raw), (apply_decoder f4 f1),
         (coerce_numeric (apply_decoder f4 f1)).
  split; [unfold parse_complete_payload; by rewrite Hraw|].
  split.
  { unfold apply_decoder. destruct (py_call f4 f1) as [v|] eqn:Hc.
    - by apply decoded_by_function.
    - destruct (py_getitem f4 f1) as [v|] eqn:Hg.
      + by apply decoded_by_table.
      + by apply decoded_raw. }
  split.
  { unfold coerce_numeric. destruct (py_str (apply_decoder f4 f1)) as [t|] eqn:Ht.
    - destruct (py_int t) as [n|] eqn:Hn; [by eapply coerced_int|].
      destruct (py_float t) as [f|] eqn:Hfl; [by eapply coerced_float|].
      by eapply coerced_text.
    - by apply coerced_not_text. }
  rewrite list_lookup_fmap, Hi. done.
Qed.

(** C10. The output has one field per raw field, in the decoder's order; a
    raw field of fewer than five elements comes out as it went in: nothing is
    applied to its value and no text in it is turned into a number. *)
Theorem plain_field_unchanged payload raw :
  aivdm_unpack payload = inr raw ->
  exists out,
    parse_complete_payload payload = inr out
    /\ length out = length raw
    /\ (forall i : nat, out !! i = interpret_field <$> raw !! i)
    /\ (forall (i : nat) field,
          raw !! i = Some field -> (length field < 5)%nat ->
          out !! i = Some field).
Proof.
  intros Hraw. exists (map interpret_field raw).
  split; [unfold parse_complete_payload; by rewrite Hraw|].
  split; [by rewrite length_map|]. split.
  - intros i. by rewrite list_lookup_fmap.
  - intros i field Hi Hlen. rewrite list_lookup_fmap, Hi. simpl. f_equal.
    destruct field as [|a [|b [|c [|d [|e [|g field]]]]]]; simpl in *; try done.
    lia.
Qed.

(** * Further properties of the reassembly *)

(** ** The four ways a parsing call ends *)
Lemma VDM_init_cases limit s w :
  wf_world limit w -> s_payload s <> ""%string ->
  let id := s_sequential_msg_id s in
  let self := length (heap w) in
  let st := stored limit s w in
  let acc := ((previous s w).2 ++ s_payload s)%string in
  let o := set_payload acc (new_VDM s) in
  (expected_next s w <> s_fragment s
   /\ VDM_init limit s w =
        (inl (IncompleteMessageError (missing_message (expected_next s w))),
         mkWorld (without id (SEQUENTIAL_MSG st)) (heap w ++ [new_VDM s])
                 (notified st)))
  \/ (expected_next s w = s_fragment s /\ s_count s <> s_fragment s
      /\ VDM_init limit s w =
           (inr self, mkWorld (SEQUENTIAL_MSG st) (heap w ++ [o]) (notified st)))
  \/ (expected_next s w = s_fragment s /\ s_count s = s_fragment s
      /\ exists e, aivdm_unpack acc = inl e
           /\ VDM_init limit s w =
                (inl (DecodeError e),
                 mkWorld (without id (SEQUENTIAL_MSG st)) (heap w ++ [o])
                         (notified st)))
  \/ (expected_next s w = s_fragment s /\ s_count s = s_fragment s
      /\ exists raw, aivdm_unpack acc = inr raw
           /\ VDM_init limit s w =
                (inr self,
                 mkWorld (without id (SEQUENTIAL_MSG st))
                         (heap w ++ [set_sub_fields (map interpret_field raw) o])
                         (notified st))).
Proof.
  intros Hwf Hp id self st acc o. subst id self st acc o.
  unfold expected_next. destruct (previous s w) as [last pp] eqn:Hprev.
  cbn [fst snd]. rewrite (VDM_init_eq limit s w Hp).
  destruct (Z.eq_dec (last + 1) (s_fragment s)) as [Hturn|Hturn].
  - destruct (Z.eq_dec (s_count s) (s_fragment s)) as [Hc|Hc].
    + pose proof (parse_payload_complete limit s w last pp Hwf Hprev Hturn Hc) as E.
      cbv zeta in E. rewrite E. unfold parse_complete_payload.
      destruct (aivdm_unpack (pp ++ s_payload s)%string) as [e|raw] eqn:Hu.
      * right; right; left. repeat split; try done. by exists e.
      * right; right; right. repeat split; try done. by exists raw.
    + right; left. repeat split; try done.
      by rewrite (parse_payload_pending limit s w last pp Hwf Hprev Hturn Hc).
  - left. split; [done|].
    by rewrite (parse_payload_out_of_turn limit s w last pp Hwf Hprev Hturn).
Qed.

Lemma deliver_app limit l1 l2 w :
  deliver limit (l1 ++ l2) w = deliver limit l2 (deliver limit l1 w).
Proof. unfold deliver. by rewrite fold_left_app. Qed.

Lemma deliver_cons limit s l w :
  deliver limit (s :: l) w = deliver limit l (VDM_init limit s w).2.
Proof. done. Qed.

Lemma deliver_wf limit l w :
  wf_world limit w -> wf_world limit (deliver limit l w).
Proof.
  revert w. induction l as [|s l IH]; intros w Hwf; simpl; [done|].
  apply IH. by apply VDM_init_wf.
Qed.

(** X1: with a limit of at least one, whatever sentences arrive and
    whatever the calls raise, the map never holds more ids than the limit,
    its keys stay distinct, and every slot holds an object carrying the
    slot's id. *)
Theorem buffer_stays_within_limit n l w :
  wf_world (Bounded n) w ->
  let w' := deliver (Bounded n) l w in
  Z.of_nat (length (SEQUENTIAL_MSG w')) <= n
  /\ NoDup (OD.keys (SEQUENTIAL_MSG w'))
  /\ forall k r, OD.get k (SEQUENTIAL_MSG w') = Some r ->
       exists o, heap w' !! r = Some o /\ sequential_msg_id o = k.
Proof.
  intros Hwf w'. destruct (deliver_wf (Bounded n) l w Hwf) as (Hnd & Hk & _ & Hlen).
  fold w' in Hnd, Hk, Hlen. repeat split; try done.
  intros k r Hg. apply (od_get_Forall _ _ _ _ Hk Hg).
Qed.

(** ** Objects in the map are waiting for a fragment *)
Lemma od_get_app_ne (k k' : string) (v : ref) (d : OD.t ref) :
  k <> k' -> OD.get k (d ++ [(k', v)]) = OD.get k d.
Proof.
  intros Hne. induction d as [|[k0 v0] d IH]; simpl.
  - by destruct (String.eqb_spec k k').
  - by destruct (String.eqb k k0).
Qed.

Lemma stored_get_other limit s w k r :
  wf_world limit w -> k <> s_sequential_msg_id s ->
  OD.get k (SEQUENTIAL_MSG (stored limit s w)) = Some r ->
  OD.get k (SEQUENTIAL_MSG w) = Some r.
Proof.
  intros Hwf Hne Hg.
  destruct (exceeds (length (OD.set (s_sequential_msg_id s) (length (heap w))
                                    (SEQUENTIAL_MSG w))) limit) eqn:Hex.
  - destruct (stored_evicts limit s w Hwf Hex)
      as (old & r0 & rest & E & Hold & Hnone & Hst).
    rewrite Hst in Hg. cbn [SEQUENTIAL_MSG] in Hg.
    rewrite od_get_app_ne in Hg by done.
    destruct Hwf as (Hnd & _). rewrite E in Hnd |- *. simpl in Hnd |- *.
    apply NoDup_cons in Hnd as [Hnotin _].
    destruct (String.eqb_spec k old) as [->|]; [|done].
    exfalso. apply Hnotin. by apply (od_get_Some_keys old rest r).
  - rewrite (stored_keeps limit s w Hex) in Hg. cbn [SEQUENTIAL_MSG] in Hg.
    rewrite od_get_set_ne in Hg by done. done.
Qed.

Lemma append_not_empty (a b : string) : b <> ""%string -> (a ++ b)%string <> ""%string.
Proof. destruct a; simpl; [done|]. discriminate. Qed.

Lemma previous_nonneg s w : pending_slots w -> 0 <= (previous s w).1.
Proof.
  intros Hp. unfold previous. destruct (s_fragment s =? 1); [simpl; lia|].
  destruct (OD.get (s_sequential_msg_id s) (SEQUENTIAL_MSG w)) as [p|] eqn:Hg;
    [|simpl; lia].
  destruct (Hp _ _ Hg) as (o & -> & Hfr & _). simpl. lia.
Qed.

Lemma pending_slots_app w d x n :
  pending_slots w ->
  (forall k r, OD.get k d = Some r -> OD.get k (SEQUENTIAL_MSG w) = Some r) ->
  pending_slots (mkWorld d (heap w ++ [x]) n).
Proof.
  intros Hp Hsub k r Hg. cbn [SEQUENTIAL_MSG heap] in *.
  destruct (Hp k r (Hsub k r Hg)) as (o & Ho & Hfl).
  exists o. split; [|done]. by apply lookup_app_l_Some.
Qed.

Lemma VDM_init_pending limit s w :
  wf_world limit w -> pending_slots w ->
  pending_slots (VDM_init limit s w).2.
Proof.
  intros Hwf Hp.
  destruct (String.eqb_spec (s_payload s) "") as [He|Hne].
  { rewrite (VDM_init_unparsed limit s w He). cbn [snd].
    by apply pending_slots_app. }
  destruct (without_wf limit s w (new_VDM s) [] Hwf eq_refl) as (_ & Hnone & Hoth).
  assert (Hgone : forall k r,
             OD.get k (without (s_sequential_msg_id s)
                               (SEQUENTIAL_MSG (stored limit s w))) = Some r ->
             OD.get k (SEQUENTIAL_MSG w) = Some r).
  { intros k r Hg. destruct (String.eqb_spec k (s_sequential_msg_id s)) as [->|Hk].
    - congruence.
    - rewrite Hoth in Hg by done. by apply (stored_get_other limit s w). }
  destruct (VDM_init_cases limit s w Hwf Hne)
    as [(_ & ->)|[(Hturn & Hc & ->)|[(_ & _ & e & _ & ->)|(_ & _ & raw & _ & ->)]]];
    cbn [snd]; try by apply pending_slots_app.
  intros k r Hg. cbn [SEQUENTIAL_MSG heap] in *.
  destruct (String.eqb_spec k (s_sequential_msg_id s)) as [->|Hk].
  - destruct (stored_slot limit s w Hwf) as (Hself & _).
    cbv zeta in Hself. rewrite Hself in Hg. injection Hg as <-.
    eexists. split; [by apply list_lookup_middle|].
    unfold in_flight. cbn [fragment count payload sub_fields set_payload new_VDM].
    pose proof (previous_nonneg s w Hp). unfold expected_next in Hturn.
    repeat split; try done; [lia|]. by apply append_not_empty.
  - destruct (Hp k r (stored_get_other limit s w k r Hwf Hk Hg)) as (o & Ho & Hfl).
    exists o. split; [|done]. by apply lookup_app_l_Some.
Qed.

(** X2: every object left in the map is waiting for a further fragment:
    its fragment number is at least one and differs from its count, it has
    a payload, and it has no sub-fields.  Calls keep this, whatever they
    raise. *)
Theorem slots_hold_unfinished_messages limit l w :
  wf_world limit w -> pending_slots w ->
  forall k r, OD.get k (SEQUENTIAL_MSG (deliver limit l w)) = Some r ->
    exists o, heap (deliver limit l w) !! r = Some o
      /\ 1 <= fragment o /\ is_complete o = false
      /\ payload o <> ""%string /\ sub_fields o = [].
Proof.
  intros Hwf Hp.
  assert (H : pending_slots (deliver limit l w)).
  { revert w Hwf Hp. induction l as [|s l IH]; intros w Hwf Hp; simpl; [done|].
    apply IH; [by apply VDM_init_wf|by apply VDM_init_pending]. }
  intros k r Hg. destruct (H k r Hg) as (o & Ho & Hfr & Hc & Hpay & Hsf).
  exists o. repeat split; try done. unfold is_complete. by apply Z.eqb_neq.
Qed.

(** ** Fragments that arrive in turn *)

(** X3: a fragment that follows the one its id's slot holds, and is not the
    last of its message, is accepted: the object returned carries the
    payload collected so far followed by its own, has no sub-fields yet,
    and is what the slot of the id now holds; the object of the previous
    fragment is left as it was. *)
Theorem fragment_in_turn_accumulates limit s w p old :
  wf_world limit w ->
  s_payload s <> ""%string ->
  OD.get (s_sequential_msg_id s) (SEQUENTIAL_MSG w) = Some p ->
  heap w !! p = Some old ->
  s_fragment s <> 1 ->
  s_fragment s = fragment old + 1 ->
  s_count s <> s_fragment s ->
  exists w' o,
    VDM_init limit s w = (inr (length (heap w)), w')
    /\ heap w' !! length (heap w) = Some o
    /\ payload o = (payload old ++ s_payload s)%string
    /\ fragment o = s_fragment s
    /\ is_complete o = false
    /\ sub_fields o = []
    /\ OD.get (s_sequential_msg_id s) (SEQUENTIAL_MSG w') = Some (length (heap w))
    /\ heap w' !! p = Some old.
Proof.
  intros Hwf Hpay Hslot Hold Hne1 Hfr Hc.
  assert (Hprev : previous s w = (fragment old, payload old)).
  { unfold previous. apply Z.eqb_neq in Hne1. by rewrite Hne1, Hslot, Hold. }
  rewrite (VDM_init_next limit s w _ _ Hwf Hpay Hprev (eq_sym Hfr) Hc).
  destruct (stored_slot limit s w Hwf) as (Hself & _). cbv zeta in Hself.
  eexists _, _. split; [done|]. cbn [heap SEQUENTIAL_MSG].
  split; [by apply list_lookup_middle|].
  cbn [payload fragment sub_fields set_payload new_VDM].
  repeat split; try done.
  - unfold is_complete. cbn [count fragment]. by apply Z.eqb_neq.
  - by apply lookup_app_l_Some.
Qed.

(** X4: with a limit of at least 1 or none, in a state that satisfies the
    map's invariant (as every state reached under such a limit does): when
    the last fragment arrives in turn but the bit decoder rejects the
    assembled payload, the decoder's error leaves the constructor; the
    slot of the id is gone all the same, so the message cannot be retried
    by sending its last fragment again (unless it is numbered 1, the call
    is refused with the error that asks for fragment 1), and the object
    built for the call holds the assembled payload and no sub-fields. *)
Theorem failed_decoding_drops_message limit s w e :
  wf_world limit w ->
  s_payload s <> ""%string ->
  s_fragment s = expected_next s w ->
  s_count s = s_fragment s ->
  aivdm_unpack ((previous s w).2 ++ s_payload s)%string = inl e ->
  exists w' o,
    VDM_init limit s w = (inl (DecodeError e), w')
    /\ OD.get (s_sequential_msg_id s) (SEQUENTIAL_MSG w') = None
    /\ heap w' !! length (heap w) = Some o
    /\ payload o = ((previous s w).2 ++ s_payload s)%string
    /\ sub_fields o = []
    /\ (s_fragment s <> 1 ->
        (VDM_init limit s w').1
        = inl (IncompleteMessageError
                 "Missing sequential message fragment 1!")).
Proof.
  intros Hwf Hpay Hturn Hc Hu.
  destruct (without_wf limit s w
              (set_payload ((previous s w).2 ++ s_payload s)%string (new_VDM s))
              (notified (stored limit s w)) Hwf eq_refl) as (Hwf' & Hnone & _).
  destruct (VDM_init_cases limit s w Hwf Hpay)
    as [(Hno & _)|[(_ & Hno & _)|[(_ & _ & e' & Hu' & E)|(_ & _ & raw & Hu' & _)]]];
    try congruence.
  rewrite Hu in Hu'. injection Hu' as <-.
  eexists _, _. split; [exact E|]. cbn [SEQUENTIAL_MSG heap].
  split; [done|]. split; [by apply list_lookup_middle|].
  repeat split; try done.
  intros Hne1. set (w' := mkWorld _ _ _) in *.
  destruct (expected_next_spec s w') as (_ & Hexp & _).
  specialize (Hexp Hnone).
  destruct (VDM_init_cases limit s w' Hwf' Hpay)
    as [(_ & ->)|[(Ht & _)|[(Ht & _)|(Ht & _)]]]; try congruence.
  by rewrite Hexp.
Qed.

(** ** What a call leaves alone *)
Lemma has_room_stored limit s w :
  wf_world limit w -> has_room limit s w ->
  stored limit s w =
    mkWorld (OD.set (s_sequential_msg_id s) (length (heap w)) (SEQUENTIAL_MSG w))
            (heap w ++ [new_VDM s]) (notified w).
Proof.
  intros Hwf [Hin|Hroom]; [by apply stored_present|].
  destruct (OD.get (s_sequential_msg_id s) (SEQUENTIAL_MSG w)) as [p|] eqn:Hg.
  { apply stored_present; [done|by eexists]. }
  apply stored_keeps. rewrite od_set_absent by done.
  destruct limit as [|b]; [done|]. simpl in *. apply Z.ltb_ge.
  rewrite length_app. simpl. lia.
Qed.

Lemma VDM_init_heap limit s w :
  wf_world limit w ->
  exists y, heap (VDM_init limit s w).2 = heap w ++ [y].
Proof.
  intros Hwf. destruct (String.eqb_spec (s_payload s) "") as [He|Hne].
  - rewrite (VDM_init_unparsed limit s w He). by eexists.
  - destruct (VDM_init_world limit s w Hwf Hne) as (_ & _ & y & Hy & _).
    by exists y.
Qed.

Lemma VDM_init_frame limit s w :
  wf_world limit w -> has_room limit s w ->
  let w' := (VDM_init limit s w).2 in
  notified w' = notified w
  /\ forall k, k <> s_sequential_msg_id s ->
       OD.get k (SEQUENTIAL_MSG w') = OD.get k (SEQUENTIAL_MSG w).
Proof.
  intros Hwf Hroom w'. subst w'.
  destruct (String.eqb_spec (s_payload s) "") as [He|Hne].
  { by rewrite (VDM_init_unparsed limit s w He). }
  destruct (VDM_init_world limit s w Hwf Hne) as (Hn & Hmap & _).
  destruct (without_wf limit s w (new_VDM s) [] Hwf eq_refl) as (_ & _ & Hoth).
  rewrite (has_room_stored limit s w Hwf Hroom) in Hn, Hmap, Hoth.
  cbn [SEQUENTIAL_MSG notified] in *. split; [done|].
  intros k Hk. destruct Hmap as [-> | ->].
  - by rewrite od_get_set_ne.
  - rewrite Hoth by done. by rewrite od_get_set_ne.
Qed.

(** X5: while the map has room for the sentence's id (the id has a slot, or
    one more slot stays within the limit), a call touches no message but
    its own: the slots of all other ids hold what they held, and nothing is
    passed to [NOTIFY].  This holds however the call ends. *)
Theorem other_messages_untouched limit s w :
  wf_world limit w -> has_room limit s w ->
  let w' := (VDM_init limit s w).2 in
  notified w' = notified w
  /\ forall k, k <> s_sequential_msg_id s ->
       OD.get k (SEQUENTIAL_MSG w') = OD.get k (SEQUENTIAL_MSG w).
Proof. apply VDM_init_frame. Qed.

Lemma deliver_heap limit l w r o :
  wf_world limit w -> heap w !! r = Some o ->
  heap (deliver limit l w) !! r = Some o.
Proof.
  revert w. induction l as [|s l IH]; intros w Hwf Ho; simpl; [done|].
  apply IH; [by apply VDM_init_wf|].
  destruct (VDM_init_heap limit s w Hwf) as (y & ->).
  by apply lookup_app_l_Some.
Qed.

(** X6: an object that a call has built is never changed by later calls:
    each call puts exactly one new object after those that exist, and
    assigns only to that one (lines 193 and 200 assign to [self]). *)
Theorem earlier_objects_never_change limit l w :
  wf_world limit w ->
  (forall r o, heap w !! r = Some o -> heap (deliver limit l w) !! r = Some o)
  /\ length (heap (deliver limit l w)) = (length (heap w) + length l)%nat.
Proof.
  intros Hwf. split; [intros r o; by apply deliver_heap|].
  revert w Hwf. induction l as [|s l IH]; intros w Hwf; simpl; [lia|].
  rewrite IH by (by apply VDM_init_wf).
  destruct (VDM_init_heap limit s w Hwf) as (y & ->).
  rewrite length_app. simpl. lia.
Qed.

(** X7: a fragment that is accepted without completing its message, for an
    id that has a slot, takes that slot where it is: the order of the map,
    by which the oldest id is chosen for eviction, does not change.  A
    message's age counts from the first fragment stored under its id, also
    when a fragment numbered 1 starts the id anew. *)
Theorem accepted_fragment_keeps_age limit s w :
  wf_world limit w ->
  s_payload s <> ""%string ->
  is_Some (OD.get (s_sequential_msg_id s) (SEQUENTIAL_MSG w)) ->
  s_fragment s = expected_next s w ->
  s_count s <> s_fragment s ->
  let w' := (VDM_init limit s w).2 in
  OD.keys (SEQUENTIAL_MSG w') = OD.keys (SEQUENTIAL_MSG w)
  /\ OD.get (s_sequential_msg_id s) (SEQUENTIAL_MSG w') = Some (length (heap w)).
Proof.
  intros Hwf Hpay Hin Hturn Hc w'. subst w'.
  destruct (stored_slot limit s w Hwf) as (Hself & _). cbv zeta in Hself.
  destruct (VDM_init_cases limit s w Hwf Hpay)
    as [(Hno & _)|[(_ & _ & ->)|[(_ & Hno & _)|(_ & Hno & _)]]]; try congruence.
  cbn [snd SEQUENTIAL_MSG]. split; [|done].
  rewrite (stored_present limit s w Hwf Hin). cbn [SEQUENTIAL_MSG].
  by destruct (od_set_present (s_sequential_msg_id s) (length (heap w))
                 (SEQUENTIAL_MSG w) Hin) as [-> _].
Qed.

(** X8: with a limit of at least 1 or none, in a state that satisfies the
    map's invariant (as every state reached under such a limit does): when
    a parsing call returns, the object tells what happened to the map:
    [is_complete] holds exactly when the slot of its id is gone, and then
    its sub-fields are the interpreted fields of its payload; otherwise
    the slot of its id holds this very object and it has no sub-fields.
    (With a limit below 1 the slot is gone in either case, see X12.) *)
Theorem returned_object_tells_slot limit s w r w' :
  wf_world limit w ->
  s_payload s <> ""%string ->
  VDM_init limit s w = (inr r, w') ->
  exists o,
    heap w' !! r = Some o
    /\ sequential_msg_id o = s_sequential_msg_id s
    /\ if is_complete o
       then OD.get (s_sequential_msg_id s) (SEQUENTIAL_MSG w') = None
            /\ exists raw, aivdm_unpack (payload o) = inr raw
                 /\ sub_fields o = map interpret_field raw
       else OD.get (s_sequential_msg_id s) (SEQUENTIAL_MSG w') = Some r
            /\ sub_fields o = [].
Proof.
  intros Hwf Hpay Hrun.
  destruct (stored_slot limit s w Hwf) as (Hself & _). cbv zeta in Hself.
  destruct (without_wf limit s w (new_VDM s) [] Hwf eq_refl) as (_ & Hnone & _).
  destruct (VDM_init_cases limit s w Hwf Hpay)
    as [(_ & E)|[(_ & Hc & E)|[(_ & _ & e & _ & E)|(_ & Hc & raw & Hu & E)]]];
    rewrite E in Hrun; try discriminate; injection Hrun as <- <-;
    cbn [heap SEQUENTIAL_MSG]; eexists; (split; [by apply list_lookup_middle|]);
    (split; [done|]); unfold is_complete;
    cbn [count fragment payload sub_fields set_payload set_sub_fields new_VDM].
  - apply Z.eqb_neq in Hc. by rewrite Hc.
  - rewrite Hc, Z.eqb_refl. split; [done|]. by exists raw.
Qed.

(** X9: a chain whose fragment was refused is lost as a whole: after a
    fragment with a payload was refused for arriving out of turn, every
    further fragment of that id not numbered 1 is refused as well, and the
    error asks for fragment 1. *)
Theorem refused_chain_needs_restart limit s w s2 :
  wf_world limit w ->
  s_payload s <> ""%string ->
  s_fragment s <> expected_next s w ->
  s_sequential_msg_id s2 = s_sequential_msg_id s ->
  s_payload s2 <> ""%string ->
  s_fragment s2 <> 1 ->
  (VDM_init limit s2 (VDM_init limit s w).2).1
  = inl (IncompleteMessageError (missing_message 1)).
Proof.
  intros Hwf Hpay Hturn Hid Hpay2 Hne1.
  assert (Hwf' := VDM_init_wf limit s w Hwf).
  destruct (without_wf limit s w (new_VDM s) [] Hwf eq_refl) as (_ & Hnone & _).
  destruct (VDM_init_cases limit s w Hwf Hpay)
    as [(_ & E)|[(Hno & _)|[(Hno & _)|(Hno & _)]]]; try congruence.
  rewrite E in Hwf' |- *. cbn [snd] in *. set (w' := mkWorld _ _ _) in *.
  destruct (expected_next_spec s2 w') as (_ & Hexp & _).
  rewrite Hid in Hexp. specialize (Hexp Hnone).
  destruct (VDM_init_cases limit s2 w' Hwf' Hpay2)
    as [(_ & ->)|[(Ht & _)|[(Ht & _)|(Ht & _)]]]; try congruence.
  by rewrite Hexp.
Qed.

(** ** Runs without a limit *)
Lemma Unbounded_has_room s w : has_room Unbounded s w.
Proof. by right. Qed.

Lemma deliver_other_ids l w k :
  wf_world Unbounded w ->
  Forall (fun s => s_sequential_msg_id s <> k) l ->
  OD.get k (SEQUENTIAL_MSG (deliver Unbounded l w)) = OD.get k (SEQUENTIAL_MSG w).
Proof.
  revert w. induction l as [|s l IH]; intros w Hwf Hl; simpl; [done|].
  apply Forall_cons in Hl as [Hs Hl].
  rewrite IH by (try done; by apply VDM_init_wf).
  destruct (VDM_init_frame Unbounded s w Hwf (Unbounded_has_room s w)) as [_ Hoth].
  by apply Hoth.
Qed.

Lemma deliver_quiet l w :
  wf_world Unbounded w -> notified (deliver Unbounded l w) = notified w.
Proof.
  revert w. induction l as [|s l IH]; intros w Hwf; simpl; [done|].
  rewrite IH by (by apply VDM_init_wf).
  by destruct (VDM_init_frame Unbounded s w Hwf (Unbounded_has_room s w)).
Qed.

(** X10: with the limit the class starts with ([float("inf")], line 119)
    nothing is ever evicted and [NOTIFY] is never called: after any run of
    sentences, a slot still holds what it held unless a sentence of the run
    carried its id.  An unfinished message stays in the map until a
    sentence with its id arrives. *)
Theorem unlimited_map_never_forgets l w :
  wf_world Unbounded w ->
  notified (deliver Unbounded l w) = notified w
  /\ forall k,
       Forall (fun s => s_sequential_msg_id s <> k) l ->
       OD.get k (SEQUENTIAL_MSG (deliver Unbounded l w))
       = OD.get k (SEQUENTIAL_MSG w).
Proof.
  intros Hwf. split; [by apply deliver_quiet|].
  intros k Hl. by apply deliver_other_ids.
Qed.

Lemma previous_other_ids s l w :
  wf_world Unbounded w ->
  Forall (fun s' => s_sequential_msg_id s' <> s_sequential_msg_id s) l ->
  previous s (deliver Unbounded l w) = previous s w.
Proof.
  intros Hwf Hl. unfold previous.
  rewrite (deliver_other_ids l w _ Hwf Hl).
  destruct (s_fragment s =? 1); [done|].
  destruct (OD.get (s_sequential_msg_id s) (SEQUENTIAL_MSG w)) as [p|] eqn:Hg;
    [|done].
  destruct Hwf as (Hnd & Hk & Hlim).
  destruct (od_get_Forall _ _ _ _ Hk Hg) as (o & Ho & _). simpl in Ho.
  by rewrite (deliver_heap Unbounded l w p o), Ho.
Qed.

Lemma concat_payloads_app l1 l2 :
  concat_payloads (l1 ++ l2)
  = (concat_payloads l1 ++ concat_payloads l2)%string.
Proof.
  unfold concat_payloads. induction l1 as [|s l1 IH]; simpl; [done|].
  by rewrite IH, append_assoc.
Qed.

Lemma interleaved_chain id total f :
  forall l0 g k acc w,
    wf_world Unbounded w -> 0 <= k ->
    in_order id total k (map snd l0 ++ [f]) ->
    total = k + Z.of_nat (length l0) + 1 ->
    Forall (fun s => s_sequential_msg_id s <> id) (concat (map fst l0) ++ g) ->
    (forall s, s_sequential_msg_id s = id -> s_fragment s = k + 1 ->
               previous s w = (k, acc)) ->
    let w1 := deliver Unbounded (interleaved l0 ++ g) w in
    wf_world Unbounded w1
    /\ previous f w1
       = (total - 1, (acc ++ concat_payloads (map snd l0))%string).
Proof.
  induction l0 as [|[n1 f1] l0 IH]; intros g k acc w Hwf Hk Hord Htot Hnoise Hprev w1.
  - simpl in *. subst w1. split; [by apply deliver_wf|].
    destruct (Hord 0%nat f eq_refl) as (Hf & _ & Hid & _).
    rewrite previous_other_ids; [|done|by rewrite Hid].
    unfold concat_payloads. simpl. rewrite append_empty_r.
    rewrite Hprev; [|done|lia]. f_equal. lia.
  - subst w1.
    assert (El : interleaved ((n1, f1) :: l0) ++ g
                 = n1 ++ f1 :: (interleaved l0 ++ g)).
    { unfold interleaved. simpl. by rewrite <- !app_assoc. }
    rewrite El, deliver_app, deliver_cons.
    simpl in Hnoise, Hord, Htot. rewrite <- app_assoc in Hnoise.
    apply Forall_app in Hnoise as [Hn1 Hnoise].
    set (wa := deliver Unbounded n1 w).
    assert (Hwfa : wf_world Unbounded wa) by (by apply deliver_wf).
    destruct (Hord 0%nat f1 eq_refl) as (Hf & Hc & Hid & Hp).
    rewrite Z.add_0_r in Hf.
    assert (Hpa : previous f1 wa = (k, acc)).
    { unfold wa. rewrite previous_other_ids; [|done|by rewrite Hid].
      by apply Hprev. }
    assert (Hcf : s_count f1 <> s_fragment f1) by lia.
    pose proof (VDM_init_next Unbounded f1 wa k acc Hwfa Hp Hpa (eq_sym Hf) Hcf) as Hs.
    rewrite Hs. cbn [snd].
    set (o1 := set_payload (acc ++ s_payload f1)%string (new_VDM f1)) in *.
    set (wb := mkWorld _ _ _) in *.
    assert (Hwfb : wf_world Unbounded wb) by (by apply stored_wf).
    destruct (IH g (k + 1) (acc ++ s_payload f1)%string wb) as [Hwf1 Hprev1];
      try done.
    + lia.
    + by apply (in_order_tail _ _ _ f1).
    + lia.
    + intros s0 Hid0 Hf0. unfold previous.
      destruct (Z.eqb_spec (s_fragment s0) 1) as [|_]; [lia|].
      rewrite Hid0, <- Hid. unfold wb. cbn [SEQUENTIAL_MSG heap].
      destruct (stored_slot Unbounded f1 wa Hwfa) as (-> & _).
      rewrite list_lookup_middle by done. unfold o1.
      cbn [set_payload new_VDM fragment payload]. by rewrite Hf.
    + split; [done|]. rewrite Hprev1. f_equal.
      unfold concat_payloads. simpl. by rewrite append_assoc.
Qed.

(** X11: without a limit, the fragments of a message may arrive with any
    sentences of other ids between them, accepted or refused (the caller
    catching what they raise): when the last fragment arrives its call
    returns the completed object, whose payload is the concatenation of the
    message's fragments in order and whose sub-fields are the interpreted
    fields of that payload, and the slot of the id is gone.  The bit
    decoder is assumed to accept the assembled payload. *)
Theorem interleaved_message_completes id l0 g f w raw :
  wf_world Unbounded w ->
  in_order id (Z.of_nat (length l0) + 1) 0 (map snd l0 ++ [f]) ->
  Forall (fun s => s_sequential_msg_id s <> id) (concat (map fst l0) ++ g) ->
  aivdm_unpack (concat_payloads (map snd l0 ++ [f])) = inr raw ->
  let w1 := deliver Unbounded (interleaved l0 ++ g) w in
  exists w' o,
    VDM_init Unbounded f w1 = (inr (length (heap w1)), w')
    /\ heap w' !! length (heap w1) = Some o
    /\ is_complete o = true
    /\ payload o = concat_payloads (map snd l0 ++ [f])
    /\ sub_fields o = map interpret_field raw
    /\ OD.get id (SEQUENTIAL_MSG w') = None.
Proof.
  intros Hwf Hord Hnoise Hu w1.
  destruct (interleaved_chain id (Z.of_nat (length l0) + 1) f l0 g 0 ""%string w)
    as [Hwf1 Hprev]; try done.
  { intros s Hid Hf. unfold previous. simpl in Hf. by rewrite Hf. }
  fold w1 in Hwf1, Hprev. simpl in Hprev.
  destruct (Hord (length l0) f) as (Hf & Hc & Hid & Hp).
  { rewrite lookup_app_r by (by rewrite length_map).
    by rewrite length_map, Nat.sub_diag. }
  rewrite concat_payloads_app in Hu |- *.
  assert (E : concat_payloads [f] = s_payload f).
  { unfold concat_payloads. simpl. by rewrite append_empty_r. }
  rewrite E in Hu |- *.
  eexists _, _. split.
  { eapply (VDM_init_last Unbounded f w1 _ _ (map interpret_field raw) Hwf1 Hp Hprev).
    - lia.
    - lia.
    - unfold parse_complete_payload. by rewrite Hu. }
  cbn [heap SEQUENTIAL_MSG]. split; [by apply list_lookup_middle|].
  cbn [payload sub_fields set_payload set_sub_fields new_VDM].
  repeat split; try done.
  - unfold is_complete. apply Z.eqb_eq. simpl. lia.
  - rewrite <- Hid. by apply (without_wf Unbounded f w1 (new_VDM f) []).
Qed.

(** ** A limit below one *)
Lemma deliver_no_capacity n l w :
  n <= 0 -> SEQUENTIAL_MSG w = [] ->
  SEQUENTIAL_MSG (deliver (Bounded n) l w) = [].
Proof.
  intros Hn. revert w. induction l as [|s l IH]; intros w Hw; simpl; [done|].
  apply IH. destruct (String.eqb_spec (s_payload s) "") as [He|Hne].
  - by rewrite (VDM_init_unparsed (Bounded n) s w He).
  - by rewrite (VDM_init_no_capacity n s w Hn Hw Hne).
Qed.

(** X12: with a limit below one the map stays empty whatever arrives, so no
    message of more than one fragment is ever assembled.  Every parsing
    call stores its object, evicts it at once and passes its own id to
    [NOTIFY]; it then returns only for a fragment numbered 1 of a longer
    message, and ends in [KeyError] for every other sentence, a
    single-fragment message included. *)
Theorem limit_below_one_keeps_nothing n l s :
  n <= 0 ->
  let w := deliver (Bounded n) l init_world in
  SEQUENTIAL_MSG w = []
  /\ (s_payload s <> ""%string ->
      VDM_init (Bounded n) s w =
        (if (s_fragment s =? 1) && negb (s_count s =? 1)
         then inr (length (heap w))
         else inl (KeyError (s_sequential_msg_id s)),
         mkWorld [] (heap w ++ [new_VDM s])
                 (notified w ++ [limit_message (s_sequential_msg_id s)]))).
Proof.
  intros Hn w.
  assert (Hw : SEQUENTIAL_MSG w = []) by (by apply deliver_no_capacity).
  split; [done|]. intros Hp. by apply VDM_init_no_capacity.
Qed.

(** ** What an eviction costs *)
Lemma no_room_exceeds limit s w :
  wf_world limit w -> ~ has_room limit s w ->
  exceeds (length (OD.set (s_sequential_msg_id s) (length (heap w))
                          (SEQUENTIAL_MSG w))) limit = true.
Proof.
  intros (_ & _ & Hlim) Hno.
  destruct (OD.get (s_sequential_msg_id s) (SEQUENTIAL_MSG w)) as [p|] eqn:Hg.
  { exfalso. apply Hno. left. rewrite Hg. by eexists. }
  rewrite od_set_absent by done. rewrite length_app. simpl.
  destruct limit as [|b]; [exfalso; apply Hno; by right|].
  simpl in *. apply Z.ltb_lt.
  destruct (Z.lt_ge_cases b (Z.of_nat (length (SEQUENTIAL_MSG w) + 1)));
    [done|].
  exfalso. apply Hno. right. unfold within. lia.
Qed.

(** X18: with a limit of at least 1, in a state that satisfies the map's
    invariant (as every state reached under such a limit does): when the
    map has no room for a new id, the message at the front of the map pays
    for it: its slot goes, [NOTIFY] is called with the text that names its
    id, and each further fragment of it, unless numbered 1, is refused
    with the error that asks for fragment 1.  What was collected of that
    message is lost.  (With a limit below 1 the map is empty and the new
    id itself is evicted, see X12.) *)
Theorem evicted_message_cannot_finish limit s w s2 :
  wf_world limit w ->
  s_payload s <> ""%string ->
  ~ has_room limit s w ->
  exists old r rest,
    SEQUENTIAL_MSG w = (old, r) :: rest
    /\ notified (VDM_init limit s w).2
       = notified w
         ++ [("Failed to complete a sequential message with id "
              ++ repr_str old ++ " (limit reached).")%string]
    /\ (s_sequential_msg_id s2 = old ->
        s_payload s2 <> ""%string -> s_fragment s2 <> 1 ->
        (VDM_init limit s2 (VDM_init limit s w).2).1
        = inl (IncompleteMessageError
                 "Missing sequential message fragment 1!")).
Proof.
  intros Hwf Hp Hno. pose proof (no_room_exceeds limit s w Hwf Hno) as Hex.
  destruct (stored_evicts limit s w Hwf Hex)
    as (old & r & rest & E & Hne & Hnone & Hst).
  destruct (VDM_init_world limit s w Hwf Hp) as (Hnot & Hmap & _).
  destruct (without_wf limit s w (new_VDM s) [] Hwf eq_refl) as (_ & _ & Hoth).
  assert (Hwf' := VDM_init_wf limit s w Hwf).
  rewrite Hst in Hnot, Hmap, Hoth. cbn [SEQUENTIAL_MSG notified] in *.
  exists old, r, rest. split; [done|]. split; [done|].
  intros Hid Hp2 Hne1. set (w' := (VDM_init limit s w).2) in *.
  assert (Hgone : OD.get old (SEQUENTIAL_MSG w') = None).
  { assert (Hnd : NoDup (OD.keys ((old, r) :: rest))).
    { rewrite <- E. by destruct Hwf. }
    simpl in Hnd. apply NoDup_cons in Hnd as [Hold _].
    assert (Hrest : OD.get old
                      (rest ++ [(s_sequential_msg_id s, length (heap w))]) = None).
    { rewrite od_get_app_ne by done. by apply od_get_None_keys. }
    destruct Hmap as [-> | ->]; [done|]. by rewrite Hoth. }
  destruct (expected_next_spec s2 w') as (_ & Hexp & _).
  rewrite Hid in Hexp. specialize (Hexp Hgone).
  destruct (VDM_init_cases limit s2 w' Hwf' Hp2)
    as [(_ & ->)|[(Ht & _)|[(Ht & _)|(Ht & _)]]]; try congruence.
  by rewrite Hexp.
Qed.

(** ** What the reassembly does not look at *)
Lemma stored_same_key limit s s' w :
  s_sequential_msg_id s' = s_sequential_msg_id s ->
  SEQUENTIAL_MSG (stored limit s' w) = SEQUENTIAL_MSG (stored limit s w)
  /\ notified (stored limit s' w) = notified (stored limit s w).
Proof.
  intros Hid. unfold stored, evicted. cbn [SEQUENTIAL_MSG heap notified].
  rewrite Hid. destruct (exceeds _ limit); [|done].
  by destruct (OD.set _ _ _) as [|[old r] rest].
Qed.

(** X19: the radio channel and the number of fill bits play no part: a
    sentence that differs from another in these two fields only ends the
    same way, leaves the same map and the same notifications, and its
    object gets the same payload and the same sub-fields.  Fragments of
    one id are stitched together whatever channel each came on, and the
    fill bits are not passed to the decoder. *)
Theorem channel_and_fill_bits_ignored limit s w rc fb :
  wf_world limit w ->
  let s' := mkSentence (s_count s) (s_fragment s) (s_sequential_msg_id s) rc
                       (s_payload s) fb in
  (VDM_init limit s' w).1 = (VDM_init limit s w).1
  /\ SEQUENTIAL_MSG (VDM_init limit s' w).2 = SEQUENTIAL_MSG (VDM_init limit s w).2
  /\ notified (VDM_init limit s' w).2 = notified (VDM_init limit s w).2
  /\ exists o o',
       heap (VDM_init limit s w).2 = heap w ++ [o]
       /\ heap (VDM_init limit s' w).2 = heap w ++ [o']
       /\ payload o' = payload o
       /\ sub_fields o' = sub_fields o
       /\ radio_code o' = rc /\ fill_bits o' = fb.
Proof.
  intros Hwf s'.
  destruct (String.eqb_spec (s_payload s) "") as [He|Hne].
  { rewrite (VDM_init_unparsed limit s w He).
    rewrite (VDM_init_unparsed limit s' w He). cbn [fst snd heap].
    repeat split; try done. by eexists _, _. }
  assert (Hprev : previous s' w = previous s w) by done.
  assert (Hexp : expected_next s' w = expected_next s w) by done.
  destruct (stored_same_key limit s s' w eq_refl) as [Hmap Hnot].
  destruct (VDM_init_cases limit s w Hwf Hne)
    as [(H1 & E)|[(H1 & H2 & E)|[(H1 & H2 & e & H3 & E)|(H1 & H2 & raw & H3 & E)]]];
    destruct (VDM_init_cases limit s' w Hwf Hne)
      as [(H1' & E')|[(H1' & H2' & E')
         |[(H1' & H2' & e' & H3' & E')|(H1' & H2' & raw' & H3' & E')]]];
    rewrite ?Hexp, ?Hprev in *; cbn [s' s_count s_fragment s_payload] in *;
    try congruence;
    rewrite E, E'; cbn [fst snd SEQUENTIAL_MSG heap notified s'
                        s_sequential_msg_id];
    rewrite Hmap, Hnot, ?Hexp, ?Hprev; cbn [s_payload s'].
  - repeat split; try done. by eexists _, _.
  - repeat split; try done. by eexists _, _.
  - rewrite H3 in H3'. injection H3' as <-.
    repeat split; try done. by eexists _, _.
  - rewrite H3 in H3'. injection H3' as <-.
    repeat split; try done. by eexists _, _.
Qed.

(** ** Interpreted fields *)
Lemma interpret_field_length field :
  length (interpret_field field)
  = if (length field =? 5)%nat then 6%nat else length field.
Proof. by destruct field as [|f0 [|f1 [|f2 [|f3 [|f4 [|f5 field]]]]]]. Qed.

Lemma interpret_field_other field :
  length field <> 5%nat -> interpret_field field = field.
Proof. by destruct field as [|f0 [|f1 [|f2 [|f3 [|f4 [|f5 field]]]]]]. Qed.

(** X17: no interpreted field has five elements: a raw field with a
    formatter grows to six, every other raw field, also one of more than
    five elements, comes out as it went in.  So interpreting the fields of
    a decoded payload once more changes nothing. *)
Theorem interpreted_fields_are_final payload raw :
  aivdm_unpack payload = inr raw ->
  exists out,
    parse_complete_payload payload = inr out
    /\ Forall (fun f => length f <> 5%nat) out
    /\ map interpret_field out = out
    /\ (forall (i : nat) field,
          raw !! i = Some field -> length field <> 5%nat ->
          out !! i = Some field)
    /\ (forall (i : nat) field,
          raw !! i = Some field -> length field = 5%nat ->
          exists f, out !! i = Some f /\ length f = 6%nat).
Proof.
  intros Hu. exists (map interpret_field raw).
  unfold parse_complete_payload. rewrite Hu. split; [done|].
  assert (Hlen : Forall (fun f => length f <> 5%nat) (map interpret_field raw)).
  { rewrite List.Forall_map. apply Forall_forall. intros f _.
    rewrite interpret_field_length.
    destruct (Nat.eqb_spec (length f) 5); [done|done]. }
  split; [done|]. split.
  { induction Hlen as [|f l Hf _ IH]; simpl; [done|].
    by rewrite IH, interpret_field_other. }
  split.
  - intros i field Hi Hl. rewrite list_lookup_fmap, Hi. simpl.
    by rewrite (interpret_field_other field Hl).
  - intros i field Hi Hl. exists (interpret_field field). split.
    + by rewrite list_lookup_fmap, Hi.
    + by rewrite interpret_field_length, Hl.
Qed.

End AIS.

(** ** The matcher decides the language *)

Lemma nullable_lang r : nullable r = true <-> lang r [].
Proof.
  induction r as [| |p|r1 IH1 r2 IH2|r1 IH1 r2 IH2|r IH]; simpl.
  - done.
  - done.
  - split; [done|]. by intros (c & ? & _).
  - rewrite andb_true_iff, IH1, IH2. split.
    + intros [H1 H2]. by exists [], [].
    + intros (s1 & s2 & Hs & H1 & H2). symmetry in Hs.
      apply app_eq_nil in Hs as [-> ->]. done.
  - by rewrite orb_true_iff, IH1, IH2.
  - split; [|done]. intros _. exists []. by split; [|constructor].
Qed.

Lemma star_cons r c s :
  lang (Star r) (c :: s) <->
  exists s1 s2, s = s1 ++ s2 /\ lang r (c :: s1) /\ lang (Star r) s2.
Proof.
  split.
  - intros (ss & Hs & Hall). induction Hall as [|x ss Hx Hss IH]; [done|].
    destruct x as [|c' x]; [by apply IH|].
    simpl in Hs. injection Hs as <- ->.
    exists x, (concat ss). split; [done|]. split; [done|]. by exists ss.
  - intros (s1 & s2 & -> & H1 & ss & -> & Hall).
    exists ((c :: s1) :: ss). split; [done|]. by constructor.
Qed.

Lemma deriv_lang r : forall c s, lang (deriv c r) s <-> lang r (c :: s).
Proof.
  induction r as [| |p|r1 IH1 r2 IH2|r1 IH1 r2 IH2|r IH]; intros c s; simpl.
  - done.
  - done.
  - destruct (p c) eqn:Hp; simpl.
    + split.
      * intros ->. by exists c.
      * intros (c' & [= <- ->] & _). done.
    + split; [done|]. intros (c' & [= <- ->] & Hp'). congruence.
  - assert (Hseq : lang (Seq (deriv c r1) r2) s <->
                   exists s1 s2, s = s1 ++ s2 /\ lang r1 (c :: s1) /\ lang r2 s2).
    { simpl. split; intros (s1 & s2 & Hs & H1 & H2); exists s1, s2;
        (split; [done|]); (split; [by apply IH1|done]). }
    assert (Hgoal : (exists s1 s2, c :: s = s1 ++ s2 /\ lang r1 s1 /\ lang r2 s2)
                    <-> (lang (Seq (deriv c r1) r2) s
                         \/ (lang r1 [] /\ lang r2 (c :: s)))).
    { rewrite Hseq. split.
      - intros (s1 & s2 & Hs & H1 & H2). destruct s1 as [|c' s1].
        + right. simpl in Hs. by subst s2.
        + left. injection Hs as <- ->. by exists s1, s2.
      - intros [(s1 & s2 & -> & H1 & H2)|[H1 H2]].
        + by exists (c :: s1), s2.
        + by exists [], (c :: s). }
    rewrite Hgoal. destruct (nullable r1) eqn:Hn.
    + change (lang (Alt (Seq (deriv c r1) r2) (deriv c r2)) s)
        with (lang (Seq (deriv c r1) r2) s \/ lang (deriv c r2) s).
      rewrite IH2. apply nullable_lang in Hn. tauto.
    + split; [by left|]. intros [H|[H _]]; [done|].
      apply nullable_lang in H. congruence.
  - by rewrite IH1, IH2.
  - rewrite (star_cons r c s). split.
    + intros (s1 & s2 & Hs & H1 & H2). exists s1, s2.
      split; [done|]. split; [by apply IH|done].
    + intros (s1 & s2 & Hs & H1 & H2). exists s1, s2.
      split; [done|]. split; [by apply IH|done].
Qed.

Lemma derivs_lang l : forall r, nullable (derivs l r) = true <-> lang r l.
Proof.
  induction l as [|c l IH]; intros r; simpl.
  - apply nullable_lang.
  - by rewrite IH, deriv_lang.
Qed.

Lemma re_match_lang r line :
  re_match r line = true <-> lang r (list_ascii_of_string line).
Proof. apply derivs_lang. Qed.

(** ** The language of [sentence_re] *)

Lemma lang_star_class p s :
  lang (Star (Class p)) s <-> Forall (fun c => p c = true) s.
Proof.
  split.
  - intros (ss & -> & Hall). induction Hall as [|x ss (c & -> & Hc) _ IH]; simpl.
    + constructor.
    + by constructor.
  - intros Hall. exists (map (fun c => [c]) s). split.
    + induction s as [|c s IH]; simpl; [done|]. f_equal. apply IH.
      by inversion Hall.
    + induction Hall as [|c s Hc _ IH]; simpl; constructor; [by exists c|done].
Qed.

Lemma lang_class p s : lang (Class p) s <-> exists c, s = [c] /\ p c = true.
Proof. done. Qed.

Lemma lang_opt r s : lang (Opt r) s <-> lang r s \/ s = [].
Proof. done. Qed.

Lemma lang_rep2 p s :
  lang (Rep 2 (Class p)) s <->
  exists a b, s = [a; b] /\ p a = true /\ p b = true.
Proof.
  simpl. split.
  - intros (? & ? & -> & (a & -> & Ha) & ? & ? & -> & (b & -> & Hb) & ->).
    by exists a, b.
  - intros (a & b & -> & Ha & Hb).
    exists [a], [b]. split; [done|]. split; [by exists a|].
    exists [b], []. split; [done|]. split; [by exists b|done].
Qed.

Lemma lang_rep3 p s :
  lang (Rep 3 (Class p)) s <->
  exists a b c, s = [a; b; c] /\ p a = true /\ p b = true /\ p c = true.
Proof.
  change (Rep 3 (Class p)) with (Seq (Class p) (Rep 2 (Class p))).
  change (lang (Seq (Class p) (Rep 2 (Class p))) s)
    with (exists s1 s2, s = s1 ++ s2 /\ lang (Class p) s1
                        /\ lang (Rep 2 (Class p)) s2).
  split.
  - intros (? & s2 & -> & (a & -> & Ha) & H2).
    apply lang_rep2 in H2 as (b & c & -> & Hb & Hc). by exists a, b, c.
  - intros (a & b & c & -> & Ha & Hb & Hc).
    exists [a], [b; c]. split; [done|]. split; [by exists a|].
    apply lang_rep2. by exists b, c.
Qed.

Lemma lang_proprietary ty : lang re_proprietary ty <-> is_proprietary ty.
Proof.
  unfold re_proprietary, is_proprietary, lit.
  change (lang (Seq (Class (same_letter "P")) (Rep 3 (Class word))) ty)
    with (exists s1 s2, ty = s1 ++ s2 /\ lang (Class (same_letter "P")) s1
                        /\ lang (Rep 3 (Class word)) s2).
  split.
  - intros (? & s2 & -> & (p & -> & Hp) & H3).
    apply lang_rep3 in H3 as (a & b & c & -> & Ha & Hb & Hc).
    by exists p, a, b, c.
  - intros (p & a & b & c & -> & Hp & Ha & Hb & Hc).
    exists [p], [a; b; c]. split; [done|]. split; [by exists p|].
    apply lang_rep3. by exists a, b, c.
Qed.

Lemma same_letter_comma k : same_letter "," k = true <-> k = ","%char.
Proof.
  unfold same_letter. change (fold_case ",") with ","%char.
  rewrite Ascii.eqb_eq. split.
  - intros H. unfold fold_case in H. destruct (is_upper k) eqn:Hu; [|done].
    exfalso. revert Hu H.
    destruct k as [[] [] [] [] [] [] [] []]; vm_compute; congruence.
  - by intros ->.
Qed.

Lemma same_letter_star k : same_letter "*" k = true <-> k = "*"%char.
Proof.
  unfold same_letter. change (fold_case "*") with "*"%char.
  rewrite Ascii.eqb_eq. split.
  - intros H. unfold fold_case in H. destruct (is_upper k) eqn:Hu; [|done].
    exfalso. revert Hu H.
    destruct k as [[] [] [] [] [] [] [] []]; vm_compute; congruence.
  - by intros ->.
Qed.

Lemma lang_query ty : lang re_query ty <-> is_query ty.
Proof.
  unfold re_query, is_query, lit.
  change (lang (Seq (Rep 2 (Class word))
                 (Seq (Rep 2 (Class word))
                    (Seq (Class (same_letter "Q"))
                       (Seq (Class (same_letter ",")) (Rep 3 (Class word)))))) ty)
    with (exists s1 s2, ty = s1 ++ s2 /\ lang (Rep 2 (Class word)) s1 /\
          exists s3 s4, s2 = s3 ++ s4 /\ lang (Rep 2 (Class word)) s3 /\
          exists s5 s6, s4 = s5 ++ s6 /\ lang (Class (same_letter "Q")) s5 /\
          exists s7 s8, s6 = s7 ++ s8 /\ lang (Class (same_letter ",")) s7 /\
          lang (Rep 3 (Class word)) s8).
  split.
  - intros (s1 & ? & -> & H1 & s3 & ? & -> & H3 & ? & ? & -> & (q & -> & Hq)
            & ? & s8 & -> & (k & -> & Hk) & H8).
    apply lang_rep2 in H1 as (a & b & -> & Ha & Hb).
    apply lang_rep2 in H3 as (c & d & -> & Hc & Hd).
    apply lang_rep3 in H8 as (x & y & z & -> & Hx & Hy & Hz).
    apply same_letter_comma in Hk.
    exists a, b, c, d, q, k, x, y, z. done.
  - intros (a & b & c & d & q & k & x & y & z & -> & Ha & Hb & Hc & Hd & Hq
            & Hk & Hx & Hy & Hz).
    exists [a; b], [c; d; q; k; x; y; z]. split; [done|].
    split; [apply lang_rep2; by exists a, b|].
    exists [c; d], [q; k; x; y; z]. split; [done|].
    split; [apply lang_rep2; by exists c, d|].
    exists [q], [k; x; y; z]. split; [done|]. split; [by exists q|].
    exists [k], [x; y; z]. split; [done|].
    split; [exists k; split; [done|by apply same_letter_comma]|].
    apply lang_rep3. by exists x, y, z.
Qed.

Lemma lang_talker ty : lang re_talker ty <-> is_talker ty.
Proof.
  unfold re_talker, is_talker, lit.
  change (lang (Seq (Rep 2 (Class word))
                 (Seq (Rep 3 (Class word)) (Class (same_letter ",")))) ty)
    with (exists s1 s2, ty = s1 ++ s2 /\ lang (Rep 2 (Class word)) s1 /\
          exists s3 s4, s2 = s3 ++ s4 /\ lang (Rep 3 (Class word)) s3 /\
          lang (Class (same_letter ",")) s4).
  split.
  - intros (s1 & ? & -> & H1 & s3 & ? & -> & H3 & (k & -> & Hk)).
    apply lang_rep2 in H1 as (a & b & -> & Ha & Hb).
    apply lang_rep3 in H3 as (c & d & e & -> & Hc & Hd & He).
    apply same_letter_comma in Hk.
    exists a, b, c, d, e, k. done.
  - intros (a & b & c & d & e & k & -> & Ha & Hb & Hc & Hd & He & Hk).
    exists [a; b], [c; d; e; k]. split; [done|].
    split; [apply lang_rep2; by exists a, b|].
    exists [c; d; e], [k]. split; [done|].
    split; [apply lang_rep3; by exists c, d, e|].
    exists k. split; [done|by apply same_letter_comma].
Qed.

Lemma lang_sentence_type ty : lang re_sentence_type ty <-> is_sentence_type ty.
Proof.
  unfold re_sentence_type, is_sentence_type.
  change (lang (Alt re_proprietary (Alt re_query re_talker)) ty)
    with (lang re_proprietary ty \/ lang re_query ty \/ lang re_talker ty).
  by rewrite lang_proprietary, lang_query, lang_talker.
Qed.

Lemma lang_checksum cks : lang re_checksum cks <-> is_checksum cks.
Proof.
  unfold re_checksum, is_checksum, lit. rewrite lang_opt.
  change (lang (Seq (Class (same_letter "*")) (Rep 2 (Class hex))) cks)
    with (exists s1 s2, cks = s1 ++ s2 /\ lang (Class (same_letter "*")) s1
                        /\ lang (Rep 2 (Class hex)) s2).
  split.
  - intros [(? & s2 & -> & (k & -> & Hk) & H2)| ->]; [|by left].
    apply lang_rep2 in H2 as (a & b & -> & Ha & Hb).
    apply same_letter_star in Hk as ->. right. by exists a, b.
  - intros [->|(a & b & -> & Ha & Hb)]; [by right|]. left.
    exists ["*"%char], [a; b]. split; [done|].
    split; [by exists "*"%char|]. apply lang_rep2. by exists a, b.
Qed.

Lemma not_star_ne c : not_star c = true <-> c <> "*"%char.
Proof.
  unfold not_star. rewrite negb_true_iff. split.
  - intros H ->. done.
  - intros H. by apply Ascii.eqb_neq.
Qed.

Lemma cr_lf_space c : cr_lf c = true -> space c = true.
Proof.
  unfold cr_lf, space, between. rewrite orb_true_iff, !N.eqb_eq.
  by intros [->| ->].
Qed.

Lemma newline_space c : newline c = true -> space c = true.
Proof. unfold newline, space, between. rewrite N.eqb_eq. by intros ->. Qed.

(** What [sentence_re] accepts: whitespace, then the shape with [$], [|] or
    [!] as the optional marker. *)
Lemma lang_sentence_re line :
  lang sentence_re line <->
  exists lead rest,
    line = lead ++ rest
    /\ Forall (fun c => space c = true) lead
    /\ shaped start_flag rest.
Proof.
  unfold sentence_re.
  change (lang (Seq (Star (Class space))
            (Seq (Opt (Class start_flag))
               (Seq re_sentence_type
                  (Seq (Star (Class not_star))
                     (Seq re_checksum
                        (Seq (Star (Class space))
                           (Seq (Star (Class cr_lf)) re_end))))))) line)
    with (exists s1 r1, line = s1 ++ r1 /\ lang (Star (Class space)) s1 /\
          exists s2 r2, r1 = s2 ++ r2 /\ lang (Opt (Class start_flag)) s2 /\
          exists s3 r3, r2 = s3 ++ r3 /\ lang re_sentence_type s3 /\
          exists s4 r4, r3 = s4 ++ r4 /\ lang (Star (Class not_star)) s4 /\
          exists s5 r5, r4 = s5 ++ r5 /\ lang re_checksum s5 /\
          exists s6 r6, r5 = s6 ++ r6 /\ lang (Star (Class space)) s6 /\
          exists s7 s8, r6 = s7 ++ s8 /\ lang (Star (Class cr_lf)) s7 /\
          lang re_end s8).
  split.
  - intros (lead & ? & -> & Hlead & start & ? & -> & Hstart & ty & ? & -> & Hty
            & data & ? & -> & Hdata & cks & ? & -> & Hcks & t1 & ? & -> & Ht1
            & t2 & t3 & -> & Ht2 & Ht3).
    exists lead, (start ++ ty ++ data ++ cks ++ t1 ++ t2 ++ t3).
    split; [done|]. split; [by apply lang_star_class|].
    exists start, ty, data, cks, (t1 ++ t2 ++ t3). split; [done|].
    split.
    { apply lang_opt in Hstart as [(m & -> & Hm)| ->]; [right; by exists m|by left]. }
    split; [by apply lang_sentence_type|].
    split.
    { apply lang_star_class in Hdata. eapply Forall_impl; [exact Hdata|].
      intros c. apply not_star_ne. }
    split; [by apply lang_checksum|].
    apply Forall_app. split; [by apply lang_star_class|].
    apply Forall_app. split.
    { apply lang_star_class in Ht2. eapply Forall_impl; [exact Ht2|].
      apply cr_lf_space. }
    apply lang_opt in Ht3 as [(c & -> & Hc)| ->]; [|constructor].
    constructor; [by apply newline_space|constructor].
  - intros (lead & ? & -> & Hlead & start & ty & data & cks & trail & -> & Hstart
            & Hty & Hdata & Hcks & Htrail).
    exists lead, (start ++ ty ++ data ++ cks ++ trail). split; [done|].
    split; [by apply lang_star_class|].
    exists start, (ty ++ data ++ cks ++ trail). split; [done|].
    split.
    { apply lang_opt. destruct Hstart as [->|(m & -> & Hm)]; [by right|left; by exists m]. }
    exists ty, (data ++ cks ++ trail). split; [done|].
    split; [by apply lang_sentence_type|].
    exists data, (cks ++ trail). split; [done|].
    split.
    { apply lang_star_class. eapply Forall_impl; [exact Hdata|].
      intros c. apply not_star_ne. }
    exists cks, trail. split; [done|]. split; [by apply lang_checksum|].
    exists trail, []. split; [by rewrite app_nil_r|].
    split; [by apply lang_star_class|].
    exists [], []. split; [done|]. split; [apply lang_star_class; constructor|].
    apply lang_opt. by right.
Qed.

Ltac by_ascii c :=
  destruct c as [[] [] [] [] [] [] [] []]; vm_compute; congruence.

Lemma word_not_space c : word c = true -> space c = false.
Proof. by_ascii c. Qed.

Lemma letter_P_not_space c : same_letter "P" c = true -> space c = false.
Proof. by_ascii c. Qed.

Lemma dollar_or_bang_not_space c : dollar_or_bang c = true -> space c = false.
Proof. by_ascii c. Qed.

Lemma start_flag_cases c :
  start_flag c = true <-> c = "|"%char \/ dollar_or_bang c = true.
Proof.
  unfold start_flag, dollar_or_bang.
  rewrite !orb_true_iff, !Ascii.eqb_eq. tauto.
Qed.

Lemma first_visible_app lead rest :
  Forall (fun c => space c = true) lead ->
  first_visible (lead ++ rest) = first_visible rest.
Proof. induction 1 as [|c lead Hc _ IH]; simpl; [done|]. by rewrite Hc. Qed.

Lemma sentence_type_head ty :
  is_sentence_type ty -> exists c l, ty = c :: l /\ space c = false.
Proof.
  intros [(p & a & b & c & -> & Hp & _)
         |[(a & b & c & d & q & k & x & y & z & -> & Ha & _)
          |(a & b & c & d & e & k & -> & Ha & _)]].
  - eexists _, _. split; [done|]. by apply letter_P_not_space.
  - eexists _, _. split; [done|]. by apply word_not_space.
  - eexists _, _. split; [done|]. by apply word_not_space.
Qed.

(** A line of the shape the description gives does not begin with
    whitespace. *)
Lemma described_shape_head c l : described_shape (c :: l) -> space c = false.
Proof.
  intros (start & ty & data & cks & trail & Hl & Hstart & Hty & _).
  destruct Hstart as [->|(m & -> & Hm)].
  - destruct (sentence_type_head ty Hty) as (c' & l' & -> & Hc).
    simpl in Hl. by injection Hl as -> _.
  - simpl in Hl. injection Hl as -> _. by apply dollar_or_bang_not_space.
Qed.

Lemma shaped_marker (m1 m2 : ascii -> bool) line :
  (forall c, m1 c = true -> m2 c = true) -> shaped m1 line -> shaped m2 line.
Proof.
  intros Hm (start & ty & data & cks & trail & Hl & Hstart & Hrest).
  exists start, ty, data, cks, trail. split; [done|]. split; [|done].
  destruct Hstart as [->|(m & -> & H)]; [by left|]. right. exists m. auto.
Qed.

Lemma lang_padded_shape line :
  first_visible line <> Some "|"%char ->
  lang sentence_re line <-> padded_shape line.
Proof.
  intros Hbar. rewrite lang_sentence_re. unfold padded_shape, described_shape.
  split; intros (lead & rest & -> & Hlead & Hshape); exists lead, rest;
    (split; [done|]); (split; [done|]).
  - destruct Hshape as (start & ty & data & cks & trail & -> & Hstart & Hrest).
    exists start, ty, data, cks, trail. split; [done|]. split; [|done].
    destruct Hstart as [->|(m & -> & Hm)]; [by left|]. right. exists m.
    split; [done|]. apply start_flag_cases in Hm as [->|Hm]; [|done].
    exfalso. apply Hbar. by rewrite first_visible_app.
  - revert Hshape. apply shaped_marker. intros c Hc.
    apply start_flag_cases. by right.
Qed.

(** C6, as amended. For a line whose first visible character is not a bar,
    the pattern matches exactly when the line is, behind optional
    whitespace, of the shape: an optional [$] or [!], a sentence type (the
    letter P and three word characters; or four word characters, the letter
    Q, a comma and three word characters; or five word characters and a
    comma), data free of [*], an optional [*] with two hexadecimal digits,
    and trailing whitespace; letters of the pattern match in either case.
    A line that is not of this shape fails with [MalformedSentenceError],
    so a sentence record is produced only for lines of the shape.  A line
    of the shape is handed to the framework, whose checksum validation and
    dispatch on the registered sentence types decide whether a record
    results. *)
Theorem sentence_grammar framework line :
  first_visible (list_ascii_of_string line) <> Some "|"%char ->
  (re_match sentence_re line = true
   <-> padded_shape (list_ascii_of_string line))
  /\ (~ padded_shape (list_ascii_of_string line) ->
      parse framework line = MalformedSentenceError)
  /\ (forall r, parse framework line = SentenceRecord r ->
                padded_shape (list_ascii_of_string line))
  /\ (padded_shape (list_ascii_of_string line) ->
      parse framework line = framework line).
Proof.
  intros Hbar.
  assert (Hiff : re_match sentence_re line = true
                 <-> padded_shape (list_ascii_of_string line)).
  { by rewrite <- (lang_padded_shape _ Hbar), <- re_match_lang. }
  split; [exact Hiff|]. unfold parse.
  destruct (re_match sentence_re line).
  - assert (Hs : padded_shape (list_ascii_of_string line)) by (by apply Hiff).
    split; [done|]. split; done.
  - split; [done|]. split; [done|]. intros Hs. by apply Hiff in Hs.
Qed.

(** The bar of the class [[\$|\!]] is a start marker too. *)
Example bar_is_a_start_marker :
  re_match sentence_re "|AIVDM,1,1,,B,177KQJ5000G?tO`K>RA1wUbN0TKH,0*5C" = true.
Proof. vm_compute. reflexivity. Qed.

(** A line that begins with a space is matched by the pattern, and
    tokenized by a framework that accepts the sentence, although the shape
    of the description has nothing before the start marker. *)
Lemma leading_whitespace_tokenized :
  re_match sentence_re " !AIVDM,1,1,,B,177KQJ5000G?tO`K>RA1wUbN0TKH,0*5C" = true
  /\ parse every_type_registered
           " !AIVDM,1,1,,B,177KQJ5000G?tO`K>RA1wUbN0TKH,0*5C"
     = SentenceRecord " !AIVDM,1,1,,B,177KQJ5000G?tO`K>RA1wUbN0TKH,0*5C"
  /\ ~ described_shape
         (list_ascii_of_string
            " !AIVDM,1,1,,B,177KQJ5000G?tO`K>RA1wUbN0TKH,0*5C").
Proof.
  split; [vm_compute; reflexivity|]. split; [vm_compute; reflexivity|].
  intros H. apply described_shape_head in H. vm_compute in H. discriminate.
Qed.

Lemma sentence_grammar_witness :
  first_visible
    (list_ascii_of_string "!AIVDM,1,1,,B,177KQJ5000G?tO`K>RA1wUbN0TKH,0*5C")
  <> Some "|"%char
  /\ padded_shape
       (list_ascii_of_string "!AIVDM,1,1,,B,177KQJ5000G?tO`K>RA1wUbN0TKH,0*5C")
  /\ parse every_type_registered
           "!AIVDM,1,1,,B,177KQJ5000G?tO`K>RA1wUbN0TKH,0*5C"
     = SentenceRecord "!AIVDM,1,1,,B,177KQJ5000G?tO`K>RA1wUbN0TKH,0*5C"
  /\ parse every_type_registered "AIVDM" = MalformedSentenceError.
Proof.
  assert (H : first_visible
                (list_ascii_of_string
                   "!AIVDM,1,1,,B,177KQJ5000G?tO`K>RA1wUbN0TKH,0*5C")
              <> Some "|"%char).
  { vm_compute. discriminate. }
  assert (H' : first_visible (list_ascii_of_string "AIVDM") <> Some "|"%char).
  { vm_compute. discriminate. }
  destruct (sentence_grammar every_type_registered
              "!AIVDM,1,1,,B,177KQJ5000G?tO`K>RA1wUbN0TKH,0*5C" H)
    as (Hiff & _ & _ & Hpass).
  destruct (sentence_grammar every_type_registered "AIVDM" H')
    as (Hiff' & Hfail & _ & _).
  assert (Hshape : padded_shape
            (list_ascii_of_string
               "!AIVDM,1,1,,B,177KQJ5000G?tO`K>RA1wUbN0TKH,0*5C")).
  { apply Hiff. vm_compute. reflexivity. }
  split; [exact H|]. split; [exact Hshape|]. split; [exact (Hpass Hshape)|].
  apply Hfail. intros Hs. apply Hiff' in Hs. vm_compute in Hs. discriminate.
Defined.

(** * Further properties of the sentence pattern *)

(** ** Lines rewritten character by character *)
Lemma map_eq_concat {A B} (f : A -> B) (ss : list (list B)) :
  forall s, map f s = concat ss ->
    exists tt, s = concat tt /\ map (map f) tt = ss.
Proof.
  induction ss as [|x ss IH]; intros s Hs; simpl in Hs.
  - destruct s; [|done]. by exists [].
  - apply map_eq_app in Hs as (s1 & s2 & -> & H1 & H2).
    destruct (IH s2 H2) as (tt & -> & Htt).
    exists (s1 :: tt). split; [done|]. simpl. by rewrite H1, Htt.
Qed.

Lemma lang_map f r : blind_to f r -> forall s, lang r (map f s) <-> lang r s.
Proof.
  induction r as [| |p|r1 IH1 r2 IH2|r1 IH1 r2 IH2|r IH]; simpl; intros Hb s.
  - done.
  - split; [by destruct s|by intros ->].
  - split.
    + intros (c & Hs & Hp). destruct s as [|c0 [|? ?]]; try done.
      simpl in Hs. injection Hs as <-. exists c0. by rewrite <- Hb.
    + intros (c & -> & Hp). exists (f c). by rewrite Hb.
  - destruct Hb as [Hb1 Hb2]. split.
    + intros (s1 & s2 & Hs & H1 & H2).
      apply map_eq_app in Hs as (t1 & t2 & -> & <- & <-).
      exists t1, t2. split; [done|]. split; [by apply IH1|by apply IH2].
    + intros (s1 & s2 & -> & H1 & H2). exists (map f s1), (map f s2).
      split; [by rewrite map_app|]. split; [by apply IH1|by apply IH2].
  - destruct Hb as [Hb1 Hb2]. by rewrite (IH1 Hb1), (IH2 Hb2).
  - split.
    + intros (ss & Hs & Hall). apply map_eq_concat in Hs as (tt & -> & <-).
      exists tt. split; [done|]. rewrite List.Forall_map in Hall.
      eapply Forall_impl; [exact Hall|]. intros t. by apply IH.
    + intros (tt & -> & Hall). exists (map (map f) tt).
      split; [by rewrite concat_map|]. rewrite List.Forall_map.
      eapply Forall_impl; [exact Hall|]. intros t. by apply IH.
Qed.

Lemma re_match_map f r line :
  blind_to f r -> re_match r (map_line f line) = re_match r line.
Proof.
  intros Hb. apply eq_true_iff_eq. rewrite !re_match_lang. unfold map_line.
  rewrite list_ascii_of_string_of_list_ascii. by apply lang_map.
Qed.

(** X13: the pattern is blind to the case of ASCII letters (it is compiled
    with [re.IGNORECASE], line 60, and its literals and ranges are ASCII):
    a line is matched exactly when the line with its ASCII letters put in
    lower case is, and exactly when the line with its ASCII letters put in
    upper case is, every other character being left as it is.  On ASCII
    text the two rewritings are [str.lower] and [str.upper]. *)
Theorem sentence_re_ignores_case line :
  re_match sentence_re (map_line fold_case line) = re_match sentence_re line
  /\ re_match sentence_re (map_line upper_case line) = re_match sentence_re line.
Proof.
  split; apply re_match_map; unfold sentence_re; simpl;
    repeat split; intros c; by_ascii c.
Qed.

(** X14: the pattern treats [!] and [$] alike, which is what the class
    [[\$|\!]] is there for: exchanging the two characters throughout a line
    does not change whether it is matched. *)
Theorem sentence_re_bang_like_dollar line :
  re_match sentence_re (map_line swap_marker line) = re_match sentence_re line.
Proof.
  apply re_match_map; unfold sentence_re; simpl;
    repeat split; intros c; by_ascii c.
Qed.

(** ** Whitespace around a line *)
Lemma bar_not_space c : start_flag c = true -> space c = false.
Proof. by_ascii c. Qed.

Lemma hex_not_space c : hex c = true -> space c = false.
Proof. by_ascii c. Qed.

Lemma shaped_head c l : shaped start_flag (c :: l) -> space c = false.
Proof.
  intros (start & ty & data & cks & trail & Hl & Hstart & Hty & _).
  destruct Hstart as [->|(m & -> & Hm)].
  - destruct (sentence_type_head ty Hty) as (c' & l' & -> & Hc).
    simpl in Hl. by injection Hl as -> _.
  - simpl in Hl. injection Hl as -> _. by apply bar_not_space.
Qed.

Lemma shaped_not_nil : ~ shaped start_flag [].
Proof.
  intros (start & ty & data & cks & trail & Hl & _ & Hty & _).
  destruct (sentence_type_head ty Hty) as (c & l & -> & _).
  symmetry in Hl. apply app_eq_nil in Hl as [_ Hl]. done.
Qed.

Lemma sentence_type_last ty :
  is_sentence_type ty -> exists t c, ty = t ++ [c] /\ space c = false.
Proof.
  intros [(p & a & b & c & -> & _ & _ & _ & Hc)
         |[(a & b & c & d & q & k & x & y & z & -> & _ & _ & _ & _ & _ & _ & _ & _ & Hz)
          |(a & b & c & d & e & k & -> & _ & _ & _ & _ & _ & ->)]].
  - exists [p; a; b], c. split; [done|]. by apply word_not_space.
  - exists [a; b; c; d; q; k; x; y], z. split; [done|]. by apply word_not_space.
  - by exists [a; b; c; d; e], ","%char.
Qed.

Lemma tail_space_nil (X m k : list ascii) c :
  X ++ [c] = m ++ k -> Forall (fun c => space c = true) k ->
  space c = false -> k = [].
Proof.
  intros E Hk Hc. destruct k as [|x k] using rev_ind; [done|].
  rewrite app_assoc in E. apply app_inj_tail in E as [_ ->].
  apply Forall_app in Hk as [_ Hk]. inversion Hk. congruence.
Qed.

Lemma cut_tail (X Y l ws : list ascii) c :
  l ++ ws = (X ++ [c]) ++ Y ->
  Forall (fun c => space c = true) ws -> space c = false ->
  exists m, l = (X ++ [c]) ++ m /\ Y = m ++ ws.
Proof.
  intros E Hws Hc. apply app_eq_inv in E as [(k & -> & ->)|(k & E & ->)].
  - by exists k.
  - apply Forall_app in Hws as [Hk _].
    pose proof (tail_space_nil X l k c E Hk Hc) as ->.
    rewrite app_nil_r in E. subst l. exists []. by rewrite app_nil_r.
Qed.

Lemma lang_lead_space ws l :
  Forall (fun c => space c = true) ws ->
  lang sentence_re (ws ++ l) <-> lang sentence_re l.
Proof.
  intros Hws. rewrite !lang_sentence_re. split.
  - intros (lead & rest & E & Hlead & Hshape).
    apply app_eq_inv in E as [(k & -> & ->)|(k & -> & ->)].
    + apply Forall_app in Hws as [_ Hk]. destruct k as [|c k].
      * by exists [], l.
      * apply shaped_head in Hshape. inversion Hk. congruence.
    + apply Forall_app in Hlead as [_ Hk]. by exists k, rest.
  - intros (lead & rest & -> & Hlead & Hshape).
    exists (ws ++ lead), rest. split; [by rewrite app_assoc|].
    split; [|done]. apply Forall_app. by split.
Qed.

Lemma lang_trail_space ws l :
  Forall (fun c => space c = true) ws ->
  lang sentence_re (l ++ ws) <-> lang sentence_re l.
Proof.
  intros Hws. rewrite !lang_sentence_re. split.
  - intros (lead & rest & E & Hlead
            & start & ty & data & cks & trail & -> & Hstart & Hty & Hdata
            & Hcks & Htrail).
    destruct (sentence_type_last ty Hty) as (t & c & -> & Hc).
    assert (E1 : l ++ ws = ((lead ++ start ++ t) ++ [c]) ++ data ++ cks ++ trail).
    { rewrite E. by rewrite <- !app_assoc. }
    apply cut_tail in E1 as (m & -> & E2); [|done|done].
    assert (Hm : exists data' cks' trail',
               m = data' ++ cks' ++ trail'
               /\ Forall (fun c => c <> "*"%char) data'
               /\ is_checksum cks'
               /\ Forall (fun c => space c = true) trail').
    { destruct Hcks as [->|(h1 & h2 & -> & Hh1 & Hh2)].
      - exists m, [], []. rewrite app_nil_r. split; [done|].
        split; [|split; [by left|done]].
        assert (Hall : Forall (fun c => c <> "*"%char) (m ++ ws)).
        { rewrite <- E2. apply Forall_app. split; [done|].
          eapply Forall_impl; [exact Htrail|]. intros x Hx ->. done. }
        by apply Forall_app in Hall as [? _].
      - assert (E3 : m ++ ws = ((data ++ ["*"%char; h1]) ++ [h2]) ++ trail).
        { rewrite <- E2. by rewrite <- !app_assoc. }
        apply cut_tail in E3 as (k & -> & ->);
          [|done|by apply hex_not_space].
        apply Forall_app in Htrail as [Hk _].
        exists data, ["*"%char; h1; h2], k.
        split; [by rewrite <- !app_assoc|]. split; [done|].
        split; [|done]. right. by exists h1, h2. }
    destruct Hm as (data' & cks' & trail' & -> & Hdata' & Hcks' & Htrail').
    exists lead, (start ++ (t ++ [c]) ++ data' ++ cks' ++ trail').
    split; [by rewrite <- !app_assoc|]. split; [done|].
    by exists start, (t ++ [c]), data', cks', trail'.
  - intros (lead & rest & -> & Hlead
            & start & ty & data & cks & trail & -> & Hstart & Hty & Hdata
            & Hcks & Htrail).
    exists lead, (start ++ ty ++ data ++ cks ++ trail ++ ws).
    split; [by rewrite <- !app_assoc|]. split; [done|].
    exists start, ty, data, cks, (trail ++ ws). split; [done|].
    repeat split; try done. apply Forall_app. by split.
Qed.

Lemma list_ascii_of_string_app (a b : string) :
  list_ascii_of_string (a ++ b)%string
  = list_ascii_of_string a ++ list_ascii_of_string b.
Proof. induction a as [|c a IH]; simpl; [done|]. by rewrite IH. Qed.

(** X15: whitespace around a line does not count: a line with whitespace
    put before it and after it is matched exactly when the line itself is.
    The tail of the pattern, [\s*[\r\n]*$], asks for nothing more than
    trailing whitespace. *)
Theorem sentence_re_ignores_padding (before line after : string) :
  Forall (fun c => space c = true) (list_ascii_of_string before) ->
  Forall (fun c => space c = true) (list_ascii_of_string after) ->
  re_match sentence_re (before ++ line ++ after)%string
  = re_match sentence_re line.
Proof.
  intros Hb Ha. apply eq_true_iff_eq. rewrite !re_match_lang.
  rewrite !list_ascii_of_string_app.
  rewrite (lang_lead_space _ _ Hb). by apply lang_trail_space.
Qed.

(** ** The asterisk *)
Lemma space_not_star c : space c = true -> c <> "*"%char.
Proof. by_ascii c. Qed.

Lemma hex_not_star c : hex c = true -> c <> "*"%char.
Proof. by_ascii c. Qed.

Lemma bar_not_star c : start_flag c = true -> c <> "*"%char.
Proof. by_ascii c. Qed.

Lemma word_not_star c : word c = true -> c <> "*"%char.
Proof. by_ascii c. Qed.

Lemma letter_P_not_star c : same_letter "P" c = true -> c <> "*"%char.
Proof. by_ascii c. Qed.

Lemma letter_Q_not_star c : same_letter "Q" c = true -> c <> "*"%char.
Proof. by_ascii c. Qed.

Lemma sentence_type_no_star ty :
  is_sentence_type ty -> Forall (fun c => c <> "*"%char) ty.
Proof.
  intros [(p & a & b & c & -> & Hp & Ha & Hb & Hc)
         |[(a & b & c & d & q & k & x & y & z & -> & Ha & Hb & Hc & Hd & Hq
            & -> & Hx & Hy & Hz)
          |(a & b & c & d & e & k & -> & Ha & Hb & Hc & Hd & He & ->)]];
    repeat constructor;
    try (by apply word_not_star); try (by apply letter_P_not_star);
    try (by apply letter_Q_not_star); done.
Qed.

Lemma only_occurrence {A} (x : A) (pre post body rest : list A) :
  pre ++ x :: post = body ++ x :: rest ->
  Forall (fun c => c <> x) body -> Forall (fun c => c <> x) rest ->
  pre = body /\ post = rest.
Proof.
  revert body. induction pre as [|a pre IH]; intros body E Hbody Hrest.
  - destruct body as [|b body]; simpl in E.
    + by injection E as ->.
    + injection E as <- _. by inversion Hbody.
  - destruct body as [|b body]; simpl in E.
    + injection E as -> <-. apply Forall_app in Hrest as [_ Hrest].
      by inversion Hrest.
    + injection E as -> E. inversion Hbody as [|? ? _ Hbody']; subst.
      destruct (IH body E Hbody' Hrest) as [-> ->]. done.
Qed.

(** X16: an asterisk in a matched line can only be the one that introduces
    the checksum: nothing before it is an asterisk, and what follows it is
    two hexadecimal digits and then whitespace to the end of the line.  A
    line with an asterisk in its data, or with anything but whitespace
    behind the checksum, is not matched. *)
Theorem asterisk_only_before_checksum line pre post :
  re_match sentence_re line = true ->
  list_ascii_of_string line = pre ++ "*"%char :: post ->
  Forall (fun c => c <> "*"%char) pre
  /\ exists h1 h2 trail,
       post = h1 :: h2 :: trail
       /\ hex h1 = true /\ hex h2 = true
       /\ Forall (fun c => space c = true) trail.
Proof.
  rewrite re_match_lang, lang_sentence_re.
  intros (lead & rest & -> & Hlead
          & start & ty & data & cks & trail & -> & Hstart & Hty & Hdata
          & Hcks & Htrail) E.
  assert (Hbody : Forall (fun c => c <> "*"%char) (lead ++ start ++ ty ++ data)).
  { apply Forall_app. split.
    { eapply Forall_impl; [exact Hlead|]. apply space_not_star. }
    apply Forall_app. split.
    { destruct Hstart as [->|(m & -> & Hm)]; [constructor|].
      constructor; [by apply bar_not_star|constructor]. }
    apply Forall_app. split; [by apply sentence_type_no_star|done]. }
  assert (Htr : Forall (fun c => c <> "*"%char) trail).
  { eapply Forall_impl; [exact Htrail|]. apply space_not_star. }
  destruct Hcks as [->|(h1 & h2 & -> & Hh1 & Hh2)].
  - exfalso.
    assert (Hall : Forall (fun c => c <> "*"%char) (pre ++ "*"%char :: post)).
    { rewrite <- E. simpl. rewrite !app_assoc. apply Forall_app. split; [|done].
      by rewrite <- !app_assoc. }
    apply Forall_app in Hall as [_ Hall]. by inversion Hall.
  - assert (E' : pre ++ "*"%char :: post
                 = (lead ++ start ++ ty ++ data) ++ "*"%char :: h1 :: h2 :: trail).
    { rewrite <- E. by rewrite <- !app_assoc. }
    apply only_occurrence in E' as [-> ->]; [| done |].
    + split; [done|]. by exists h1, h2, trail.
    + constructor; [by apply hex_not_star|].
      constructor; [by apply hex_not_star|done].
Qed.

(** ** The theorems at work on the sample universe *)

Local Abbreviation sample_init :=
  (VDM_init Sample.Obj Sample.call Sample.getitem Sample.str Sample.int
            Sample.float Sample.repr Sample.unpack).

Local Abbreviation sample_accept_all :=
  (accept_all Sample.Obj Sample.call Sample.getitem Sample.str Sample.int
              Sample.float Sample.repr Sample.unpack).

Local Abbreviation sample_interpret :=
  (interpret_field Sample.Obj Sample.call Sample.getitem Sample.str Sample.int
                   Sample.float).

Local Abbreviation empty := (init_world Sample.Obj).

(** The map with the first of two fragments of message ["3"] in flight. *)
Local Abbreviation one_in_flight :=
  (mkWorld Sample.Obj [("3", 0%nat)]
           [mkVDM Sample.Obj 2 1 "3" "B" "AAAA" "0" []] []).

(** The map with the first of two fragments of message ["7"] in flight. *)
Local Abbreviation seven_in_flight :=
  (mkWorld Sample.Obj [("7", 0%nat)]
           [mkVDM Sample.Obj 2 1 "7" "A" "EEEE" "0" []] []).

Lemma empty_wf limit : within limit 0 -> wf_world Sample.Obj limit empty.
Proof.
  intros H. split; [apply NoDup_nil_2|]. split; [apply Forall_nil_2|exact H].
Defined.

Lemma one_in_flight_wf limit :
  within limit 1 -> wf_world Sample.Obj limit one_in_flight.
Proof.
  intros H. split; [apply NoDup_singleton|]. split; [|exact H].
  apply Forall_cons. split; [|apply Forall_nil_2].
  eexists. split; reflexivity.
Defined.

Lemma seven_in_flight_wf limit :
  within limit 1 -> wf_world Sample.Obj limit seven_in_flight.
Proof.
  intros H. split; [apply NoDup_singleton|]. split; [|exact H].
  apply Forall_cons. split; [|apply Forall_nil_2].
  eexists. split; reflexivity.
Defined.

Lemma in_order_delivery_completes_witness :
  exists rs r w' o,
    sample_accept_all Unbounded
      [mkSentence 2 1 "3" "B" "AAAA" "0"; mkSentence 2 2 "3" "B" "BBBB" "0"]
      empty = (inr rs, w')
    /\ length rs = 2%nat
    /\ last rs = Some r
    /\ heap Sample.Obj w' !! r = Some o
    /\ is_complete Sample.Obj o = true
    /\ payload Sample.Obj o = "AAAABBBB"
    /\ sub_fields Sample.Obj o = map sample_interpret Sample.raw_fields
    /\ OD.get "3" (SEQUENTIAL_MSG Sample.Obj w') = None.
Proof.
  apply (in_order_delivery_completes Sample.Obj Sample.call Sample.getitem
           Sample.str Sample.int Sample.float Sample.repr Sample.unpack
           Unbounded "3"
           [mkSentence 2 1 "3" "B" "AAAA" "0"; mkSentence 2 2 "3" "B" "BBBB" "0"]
           empty Sample.raw_fields).
  - apply empty_wf. exact I.
  - discriminate.
  - intros i s Hi. destruct i as [|[|i]]; simpl in Hi; try discriminate;
      injection Hi as <-; simpl; repeat split; discriminate.
  - reflexivity.
Defined.

Lemma out_of_turn_fragment_witness :
  s_fragment (mkSentence 3 3 "3" "B" "CCCC" "0")
    <> expected_next Sample.Obj (mkSentence 3 3 "3" "B" "CCCC" "0")
                     one_in_flight
  /\ (sample_init Unbounded (mkSentence 3 3 "3" "B" "CCCC" "0")
                  one_in_flight).1
     = inl (IncompleteMessageError "Missing sequential message fragment 2!")
  /\ expected_next Sample.Obj (mkSentence 3 3 "3" "B" "CCCC" "0")
                   one_in_flight = 1 + 1
  /\ OD.get "3"
       (SEQUENTIAL_MSG Sample.Obj
          (sample_init Unbounded (mkSentence 3 3 "3" "B" "CCCC" "0")
                       one_in_flight).2)
     = None
  /\ exists w'' o,
       sample_init Unbounded (mkSentence 2 1 "3" "B" "Y" "0")
         (sample_init Unbounded (mkSentence 3 3 "3" "B" "CCCC" "0")
                      one_in_flight).2
       = (inr 2%nat, w'')
       /\ heap Sample.Obj w'' !! 2%nat = Some o
       /\ payload Sample.Obj o = "Y"
       /\ OD.get "3" (SEQUENTIAL_MSG Sample.Obj w'') = Some 2%nat.
Proof.
  assert (Hturn : s_fragment (mkSentence 3 3 "3" "B" "CCCC" "0")
                  <> expected_next Sample.Obj
                       (mkSentence 3 3 "3" "B" "CCCC" "0") one_in_flight).
  { vm_compute. discriminate. }
  split; [exact Hturn|].
  destruct (out_of_turn_fragment Sample.Obj Sample.call Sample.getitem
              Sample.str Sample.int Sample.float Sample.repr Sample.unpack
              Unbounded (mkSentence 3 3 "3" "B" "CCCC" "0") one_in_flight
              (one_in_flight_wf Unbounded I))
    as ((digits & Herr & Hnum) & _ & Hsome & Hgone & Hnext).
  - discriminate.
  - exact Hturn.
  - apply NilZero.sis in Hnum. vm_compute in Hnum. subst digits.
    split; [exact Herr|]. split.
    { apply (Hsome 0%nat (mkVDM Sample.Obj 2 1 "3" "B" "AAAA" "0" []));
        reflexivity. }
    split; [exact Hgone|].
    apply (Hnext (mkSentence 2 1 "3" "B" "Y" "0")).
    + reflexivity.
    + reflexivity.
    + discriminate.
    + discriminate.
Defined.

Lemma single_fragment_completes_witness :
  (exists w' o,
     sample_init (Bounded 1) (mkSentence 1 1 "" "B" "X" "0") one_in_flight
     = (inr 1%nat, w')
     /\ heap Sample.Obj w' !! 1%nat = Some o
     /\ is_complete Sample.Obj o = true
     /\ payload Sample.Obj o = "X"
     /\ sub_fields Sample.Obj o = map sample_interpret Sample.raw_fields
     /\ OD.get "" (SEQUENTIAL_MSG Sample.Obj w') = None
     /\ (forall k, OD.get k (SEQUENTIAL_MSG Sample.Obj w') <> Some 1%nat)
     /\ bind Sample.Obj (seq_set Sample.Obj "" 1%nat)
             (fun _ => enforce_limit Sample.Obj Sample.repr (Bounded 1))
             (allocated Sample.Obj (mkSentence 1 1 "" "B" "X" "0") one_in_flight)
        = (inr tt,
           stored Sample.Obj Sample.repr (Bounded 1)
                  (mkSentence 1 1 "" "B" "X" "0") one_in_flight)
     /\ OD.get "" (SEQUENTIAL_MSG Sample.Obj
                     (stored Sample.Obj Sample.repr (Bounded 1)
                             (mkSentence 1 1 "" "B" "X" "0") one_in_flight))
        = Some 1%nat
     /\ SEQUENTIAL_MSG Sample.Obj w'
        = without "" (SEQUENTIAL_MSG Sample.Obj
                        (stored Sample.Obj Sample.repr (Bounded 1)
                                (mkSentence 1 1 "" "B" "X" "0") one_in_flight))
     /\ notified Sample.Obj w'
        = notified Sample.Obj
            (stored Sample.Obj Sample.repr (Bounded 1)
                    (mkSentence 1 1 "" "B" "X" "0") one_in_flight))
  /\ SEQUENTIAL_MSG Sample.Obj
       (sample_init (Bounded 0) (mkSentence 2 1 "3" "B" "AAAA" "0") empty).2
     = []
  /\ sample_init (Bounded 0) (mkSentence 1 1 "5" "B" "X" "0")
       (sample_init (Bounded 0) (mkSentence 2 1 "3" "B" "AAAA" "0") empty).2
     = (inl (KeyError "5"),
        mkWorld Sample.Obj []
          [mkVDM Sample.Obj 2 1 "3" "B" "AAAA" "0" [];
           mkVDM Sample.Obj 1 1 "5" "B" "X" "0" []]
          ["Failed to complete a sequential message with id '3' (limit reached).";
           "Failed to complete a sequential message with id '5' (limit reached)."]).
Proof.
  destruct (single_fragment_completes Sample.Obj Sample.call Sample.getitem
              Sample.str Sample.int Sample.float Sample.repr Sample.unpack)
    as [Hok Hzero].
  split.
  - apply (Hok (Bounded 1) (mkSentence 1 1 "" "B" "X" "0") one_in_flight
               Sample.raw_fields).
    + apply one_in_flight_wf. simpl. lia.
    + reflexivity.
    + reflexivity.
    + discriminate.
    + reflexivity.
  - apply (Hzero 0 (mkSentence 1 1 "5" "B" "X" "0")
                 (sample_init (Bounded 0) (mkSentence 2 1 "3" "B" "AAAA" "0")
                              empty).2).
    + lia.
    + apply reach_step. apply reach_init.
    + reflexivity.
    + reflexivity.
    + discriminate.
Defined.

(** A single-fragment message is held in the map while it is parsed: with a
    limit of 1 and message ["3"] in flight, lines 165-172 leave the
    single-fragment message as the only slot, and the call ends with
    message ["3"] evicted and notified. *)
Lemma single_fragment_held_in_map :
  bind Sample.Obj (seq_set Sample.Obj "" 1%nat)
       (fun _ => enforce_limit Sample.Obj Sample.repr (Bounded 1))
       (allocated Sample.Obj (mkSentence 1 1 "" "B" "X" "0") one_in_flight)
  = (inr tt,
     mkWorld Sample.Obj [("", 1%nat)]
       [mkVDM Sample.Obj 2 1 "3" "B" "AAAA" "0" [];
        mkVDM Sample.Obj 1 1 "" "B" "X" "0" []]
       ["Failed to complete a sequential message with id '3' (limit reached)."])
  /\ sample_init (Bounded 1) (mkSentence 1 1 "" "B" "X" "0") one_in_flight
     = (inr 1%nat,
        mkWorld Sample.Obj []
          [mkVDM Sample.Obj 2 1 "3" "B" "AAAA" "0" [];
           mkVDM Sample.Obj 1 1 "" "B" "X" "0"
                 (map sample_interpret Sample.raw_fields)]
          ["Failed to complete a sequential message with id '3' (limit reached)."]).
Proof. split; vm_compute; reflexivity. Qed.

Lemma restart_discards_chain_witness :
  exists w' o,
    sample_init Unbounded (mkSentence 2 1 "3" "B" "CCCC" "0") one_in_flight
    = (inr 1%nat, w')
    /\ heap Sample.Obj w' !! 1%nat = Some o
    /\ payload Sample.Obj o = "CCCC"
    /\ OD.get "3" (SEQUENTIAL_MSG Sample.Obj w') = Some 1%nat
    /\ (forall k, OD.get k (SEQUENTIAL_MSG Sample.Obj w') <> Some 0%nat)
    /\ heap Sample.Obj w' !! 0%nat
       = Some (mkVDM Sample.Obj 2 1 "3" "B" "AAAA" "0" []).
Proof.
  apply (restart_discards_chain Sample.Obj Sample.call Sample.getitem
           Sample.str Sample.int Sample.float Sample.repr Sample.unpack
           Unbounded (mkSentence 2 1 "3" "B" "CCCC" "0") one_in_flight 0%nat
           (mkVDM Sample.Obj 2 1 "3" "B" "AAAA" "0" [])).
  - apply one_in_flight_wf. exact I.
  - reflexivity.
  - reflexivity.
  - reflexivity.
  - discriminate.
  - discriminate.
Defined.

Lemma capacity_eviction_witness :
  (notified Sample.Obj
     (sample_init (Bounded 1) (mkSentence 2 1 "4" "B" "X" "0")
                  seven_in_flight).2
   = ["Failed to complete a sequential message with id '7' (limit reached)."]
   /\ OD.get "7"
        (SEQUENTIAL_MSG Sample.Obj
           (sample_init (Bounded 1) (mkSentence 2 1 "4" "B" "X" "0")
                        seven_in_flight).2) = None
   /\ (sample_init (Bounded 1) (mkSentence 2 1 "4" "B" "X" "0")
                   seven_in_flight).1 = inr 1%nat)
  /\ (notified Sample.Obj
        (sample_init (Bounded 1) (mkSentence 2 1 "4" "B" "X" "0")
                     one_in_flight).2
      = ["Failed to complete a sequential message with id '3' (limit reached)."]
      /\ OD.get "3"
           (SEQUENTIAL_MSG Sample.Obj
              (sample_init (Bounded 1) (mkSentence 2 1 "4" "B" "X" "0")
                           one_in_flight).2) = None).
Proof.
  destruct (capacity_eviction Sample.Obj Sample.call Sample.getitem
              Sample.str Sample.int Sample.float Sample.repr Sample.unpack)
    as [Hgen Hone].
  split.
  - destruct (Hgen (Bounded 1) (mkSentence 2 1 "4" "B" "X" "0") seven_in_flight)
      as (old & r & rest & E & _ & Hnot & Hgone & _ & _ & _ & _ & Hret & _).
    + apply seven_in_flight_wf. simpl. lia.
    + discriminate.
    + reflexivity.
    + simpl in E. injection E as <- <- <-.
      split; [exact Hnot|]. split; [exact Hgone|].
      apply Hret; [reflexivity|discriminate].
  - apply (Hone (mkSentence 2 1 "4" "B" "X" "0") one_in_flight "3" 0%nat).
    + apply one_in_flight_wf. simpl. lia.
    + reflexivity.
    + discriminate.
    + discriminate.
Defined.

(** A call that evicts may still raise: with a limit of 1 and message ["3"]
    in flight, the second fragment of the new message ["4"] is stored,
    message ["3"] is evicted and notified, and the call then fails for the
    missing first fragment. *)
Lemma eviction_then_refusal :
  exceeds (length (OD.set "4" 1%nat
                          (SEQUENTIAL_MSG Sample.Obj one_in_flight)))
          (Bounded 1) = true
  /\ sample_init (Bounded 1) (mkSentence 2 2 "4" "B" "X" "0") one_in_flight
     = (inl (IncompleteMessageError "Missing sequential message fragment 1!"),
        mkWorld Sample.Obj []
          [mkVDM Sample.Obj 2 1 "3" "B" "AAAA" "0" [];
           mkVDM Sample.Obj 2 2 "4" "B" "X" "0" []]
          ["Failed to complete a sequential message with id '3' (limit reached)."]).
Proof. split; vm_compute; reflexivity. Qed.

Lemma decoder_field_interpreted_witness :
  exists out v val,
    parse_complete_payload Sample.Obj Sample.call Sample.getitem Sample.str
      Sample.int Sample.float Sample.unpack "X" = inr out
    /\ decoded Sample.Obj Sample.call Sample.getitem Sample.OStatus
               (Sample.OInt 1) v
    /\ coerced Sample.Obj Sample.str Sample.int Sample.float v val
    /\ out !! 1%nat
       = Some [Sample.OStr "status"; val; Sample.OStr "e";
               Sample.OStr "Navigation Status"; Sample.OInt 1; Sample.OStatus].
Proof.
  apply (decoder_field_interpreted Sample.Obj Sample.call Sample.getitem
           Sample.str Sample.int Sample.float Sample.unpack "X"
           Sample.raw_fields 1%nat).
  - reflexivity.
  - reflexivity.
Defined.

Lemma empty_payload_untouched_witness :
  exists w',
    sample_init (Bounded 1) (mkSentence 1 1 "" "B" "" "0") one_in_flight
    = (inr 1%nat, w')
    /\ SEQUENTIAL_MSG Sample.Obj w' = [("3", 0%nat)]
    /\ notified Sample.Obj w' = []
    /\ heap Sample.Obj w'
       = [mkVDM Sample.Obj 2 1 "3" "B" "AAAA" "0" [];
          mkVDM Sample.Obj 1 1 "" "B" "" "0" []]
    /\ sub_fields Sample.Obj
         (new_VDM Sample.Obj (mkSentence 1 1 "" "B" "" "0")) = [].
Proof.
  apply (empty_payload_untouched Sample.Obj Sample.call Sample.getitem
           Sample.str Sample.int Sample.float Sample.repr Sample.unpack
           (Bounded 1) (mkSentence 1 1 "" "B" "" "0") one_in_flight).
  reflexivity.
Defined.

Lemma pop_of_current_id_safe_witness :
  (sample_init (Bounded 1) (mkSentence 2 2 "3" "B" "BBBB" "0")
     (sample_init (Bounded 1) (mkSentence 2 1 "3" "B" "AAAA" "0") empty).2).1
  <> inl (KeyError "3")
  /\ (sample_init (Bounded 1) (mkSentence 2 2 "3" "B" "BBBB" "0")
        one_in_flight).1
     <> inl (KeyError "3")
  /\ (sample_init (Bounded 0) (mkSentence 1 1 "" "B" "X" "0") empty).1
     = inl (KeyError "").
Proof.
  destruct (pop_of_current_id_safe Sample.Obj Sample.call Sample.getitem
              Sample.str Sample.int Sample.float Sample.repr Sample.unpack)
    as (Hreach & Hsafe & Hzero).
  split; [|split].
  - apply Hreach.
    + simpl. lia.
    + apply reach_step. apply reach_init.
  - apply Hsafe. apply one_in_flight_wf. simpl. lia.
  - apply (Hzero (mkSentence 1 1 "" "B" "X" "0")).
    + discriminate.
    + reflexivity.
    + reflexivity.
Defined.

(** The invariant is lost when the limit is lowered below the number of
    slots in flight.  With messages ["3"] and ["4"] in flight, as two calls
    without a limit leave them, and the limit then set to 1, the second
    fragment of ["3"] is written over the front slot, the eviction takes
    that slot, and the pop of line 197 fails. *)
Lemma lowered_limit_evicts_current_id :
  (sample_init Unbounded (mkSentence 2 1 "4" "B" "DDDD" "0")
     (sample_init Unbounded (mkSentence 2 1 "3" "B" "AAAA" "0") empty).2).2
  = mkWorld Sample.Obj [("3", 0%nat); ("4", 1%nat)]
      [mkVDM Sample.Obj 2 1 "3" "B" "AAAA" "0" [];
       mkVDM Sample.Obj 2 1 "4" "B" "DDDD" "0" []] []
  /\ (sample_init (Bounded 1) (mkSentence 2 2 "3" "B" "BBBB" "0")
        (mkWorld Sample.Obj [("3", 0%nat); ("4", 1%nat)]
           [mkVDM Sample.Obj 2 1 "3" "B" "AAAA" "0" [];
            mkVDM Sample.Obj 2 1 "4" "B" "DDDD" "0" []] [])).1
     = inl (KeyError "3").
Proof. split; vm_compute; reflexivity. Qed.

Lemma plain_field_unchanged_witness :
  exists out,
    parse_complete_payload Sample.Obj Sample.call Sample.getitem Sample.str
      Sample.int Sample.float Sample.unpack "X" = inr out
    /\ length out = 4%nat
    /\ (forall i : nat, out !! i = sample_interpret <$> Sample.raw_fields !! i)
    /\ (forall (i : nat) field,
          Sample.raw_fields !! i = Some field -> (length field < 5)%nat ->
          out !! i = Some field).
Proof.
  apply (plain_field_unchanged Sample.Obj Sample.call Sample.getitem
           Sample.str Sample.int Sample.float Sample.unpack "X"
           Sample.raw_fields).
  reflexivity.
Defined.

(** ** The further properties at work on the sample universe *)

Local Abbreviation sample_deliver :=
  (deliver Sample.Obj Sample.call Sample.getitem Sample.str Sample.int
           Sample.float Sample.repr Sample.unpack).

(** The map with the first of three fragments of message ["3"] and the
    first of two fragments of message ["4"] in flight. *)
Local Abbreviation two_in_flight :=
  (mkWorld Sample.Obj [("3", 0%nat); ("4", 1%nat)]
           [mkVDM Sample.Obj 3 1 "3" "B" "AAAA" "0" [];
            mkVDM Sample.Obj 2 1 "4" "B" "DDDD" "0" []] []).

Lemma two_in_flight_wf limit :
  within limit 2 -> wf_world Sample.Obj limit two_in_flight.
Proof.
  intros H. split.
  { apply NoDup_cons. split; [|apply NoDup_singleton].
    intros Hin. inversion Hin as [|? ? ? Hin']. inversion Hin'. }
  split; [|exact H].
  apply Forall_cons. split; [eexists; split; reflexivity|].
  apply Forall_cons. split; [eexists; split; reflexivity|apply Forall_nil_2].
Defined.

Lemma buffer_stays_within_limit_witness :
  Z.of_nat (length (SEQUENTIAL_MSG Sample.Obj
                      (sample_deliver (Bounded 1)
                         [mkSentence 2 1 "3" "B" "AAAA" "0";
                          mkSentence 2 1 "4" "B" "DDDD" "0";
                          mkSentence 2 2 "3" "B" "BBBB" "0"] empty))) <= 1
  /\ NoDup (OD.keys (SEQUENTIAL_MSG Sample.Obj
                       (sample_deliver (Bounded 1)
                          [mkSentence 2 1 "3" "B" "AAAA" "0";
                           mkSentence 2 1 "4" "B" "DDDD" "0";
                           mkSentence 2 2 "3" "B" "BBBB" "0"] empty))).
Proof.
  destruct (buffer_stays_within_limit Sample.Obj Sample.call Sample.getitem
              Sample.str Sample.int Sample.float Sample.repr Sample.unpack 1
              [mkSentence 2 1 "3" "B" "AAAA" "0";
               mkSentence 2 1 "4" "B" "DDDD" "0";
               mkSentence 2 2 "3" "B" "BBBB" "0"] empty) as (Hlen & Hnd & _).
  - apply empty_wf. simpl. lia.
  - split; [exact Hlen|exact Hnd].
Defined.

Lemma slots_hold_unfinished_messages_witness :
  exists o,
    heap Sample.Obj
      (sample_deliver Unbounded
         [mkSentence 2 2 "4" "B" "DDDD" "0";
          mkSentence 3 2 "3" "B" "BBBB" "0"] two_in_flight) !! 3%nat = Some o
    /\ 1 <= fragment Sample.Obj o
    /\ is_complete Sample.Obj o = false
    /\ payload Sample.Obj o <> ""%string
    /\ sub_fields Sample.Obj o = [].
Proof.
  apply (slots_hold_unfinished_messages Sample.Obj Sample.call Sample.getitem
           Sample.str Sample.int Sample.float Sample.repr Sample.unpack
           Unbounded
           [mkSentence 2 2 "4" "B" "DDDD" "0";
            mkSentence 3 2 "3" "B" "BBBB" "0"] two_in_flight
           (two_in_flight_wf Unbounded I)) with (k := "3"%string).
  - intros k r. simpl.
    destruct (String.eqb k "3").
    + intros [= <-]. eexists. split; [reflexivity|].
      repeat split; simpl; try lia; discriminate.
    + destruct (String.eqb k "4"); [|discriminate].
      intros [= <-]. eexists. split; [reflexivity|].
      repeat split; simpl; try lia; discriminate.
  - vm_compute. reflexivity.
Defined.

Lemma fragment_in_turn_accumulates_witness :
  exists w' o,
    sample_init Unbounded (mkSentence 3 2 "3" "B" "BBBB" "0") two_in_flight
    = (inr 2%nat, w')
    /\ heap Sample.Obj w' !! 2%nat = Some o
    /\ payload Sample.Obj o = "AAAABBBB"
    /\ fragment Sample.Obj o = 2
    /\ is_complete Sample.Obj o = false
    /\ sub_fields Sample.Obj o = []
    /\ OD.get "3" (SEQUENTIAL_MSG Sample.Obj w') = Some 2%nat
    /\ heap Sample.Obj w' !! 0%nat
       = Some (mkVDM Sample.Obj 3 1 "3" "B" "AAAA" "0" []).
Proof.
  apply (fragment_in_turn_accumulates Sample.Obj Sample.call Sample.getitem
           Sample.str Sample.int Sample.float Sample.repr Sample.unpack
           Unbounded (mkSentence 3 2 "3" "B" "BBBB" "0") two_in_flight 0%nat
           (mkVDM Sample.Obj 3 1 "3" "B" "AAAA" "0" [])).
  - apply two_in_flight_wf. exact I.
  - discriminate.
  - reflexivity.
  - reflexivity.
  - discriminate.
  - reflexivity.
  - discriminate.
Defined.

Lemma failed_decoding_drops_message_witness :
  exists w' o,
    sample_init Unbounded (mkSentence 1 1 "7" "B" "?" "0") two_in_flight
    = (inl (DecodeError "bad armor"), w')
    /\ OD.get "7" (SEQUENTIAL_MSG Sample.Obj w') = None
    /\ heap Sample.Obj w' !! 2%nat = Some o
    /\ payload Sample.Obj o = "?"
    /\ sub_fields Sample.Obj o = [].
Proof.
  destruct (failed_decoding_drops_message Sample.Obj Sample.call Sample.getitem
              Sample.str Sample.int Sample.float Sample.repr Sample.unpack
              Unbounded (mkSentence 1 1 "7" "B" "?" "0") two_in_flight
              "bad armor")
    as (w' & o & Hrun & Hgone & Ho & Hpay & Hsf & _).
  - apply two_in_flight_wf. exact I.
  - discriminate.
  - reflexivity.
  - reflexivity.
  - reflexivity.
  - exists w', o. repeat split; assumption.
Defined.

Lemma other_messages_untouched_witness :
  notified Sample.Obj
    (sample_init (Bounded 2) (mkSentence 3 2 "3" "B" "BBBB" "0")
                 two_in_flight).2 = []
  /\ forall k, k <> "3"%string ->
       OD.get k (SEQUENTIAL_MSG Sample.Obj
                   (sample_init (Bounded 2) (mkSentence 3 2 "3" "B" "BBBB" "0")
                                two_in_flight).2)
       = OD.get k [("3"%string, 0%nat); ("4"%string, 1%nat)].
Proof.
  apply (other_messages_untouched Sample.Obj Sample.call Sample.getitem
           Sample.str Sample.int Sample.float Sample.repr Sample.unpack
           (Bounded 2) (mkSentence 3 2 "3" "B" "BBBB" "0") two_in_flight).
  - apply two_in_flight_wf. simpl. lia.
  - left. eexists. reflexivity.
Defined.

Lemma earlier_objects_never_change_witness :
  (forall r o,
     heap Sample.Obj two_in_flight !! r = Some o ->
     heap Sample.Obj
       (sample_deliver Unbounded
          [mkSentence 3 2 "3" "B" "BBBB" "0";
           mkSentence 3 3 "3" "B" "CCCC" "0"] two_in_flight) !! r = Some o)
  /\ length (heap Sample.Obj
               (sample_deliver Unbounded
                  [mkSentence 3 2 "3" "B" "BBBB" "0";
                   mkSentence 3 3 "3" "B" "CCCC" "0"] two_in_flight))
     = 4%nat.
Proof.
  apply (earlier_objects_never_change Sample.Obj Sample.call Sample.getitem
           Sample.str Sample.int Sample.float Sample.repr Sample.unpack
           Unbounded
           [mkSentence 3 2 "3" "B" "BBBB" "0";
            mkSentence 3 3 "3" "B" "CCCC" "0"] two_in_flight).
  apply two_in_flight_wf. exact I.
Defined.

Lemma accepted_fragment_keeps_age_witness :
  OD.keys (SEQUENTIAL_MSG Sample.Obj
             (sample_init (Bounded 2) (mkSentence 3 2 "3" "B" "BBBB" "0")
                          two_in_flight).2)
  = ["3"%string; "4"%string]
  /\ OD.get "3" (SEQUENTIAL_MSG Sample.Obj
                   (sample_init (Bounded 2) (mkSentence 3 2 "3" "B" "BBBB" "0")
                                two_in_flight).2)
     = Some 2%nat.
Proof.
  apply (accepted_fragment_keeps_age Sample.Obj Sample.call Sample.getitem
           Sample.str Sample.int Sample.float Sample.repr Sample.unpack
           (Bounded 2) (mkSentence 3 2 "3" "B" "BBBB" "0") two_in_flight).
  - apply two_in_flight_wf. simpl. lia.
  - discriminate.
  - eexists. reflexivity.
  - reflexivity.
  - discriminate.
Defined.

Lemma returned_object_tells_slot_witness :
  exists o,
    heap Sample.Obj
      (sample_init Unbounded (mkSentence 2 2 "4" "B" "EEEE" "0")
                   two_in_flight).2 !! 2%nat = Some o
    /\ sequential_msg_id Sample.Obj o = "4"%string
    /\ if is_complete Sample.Obj o
       then OD.get "4"
              (SEQUENTIAL_MSG Sample.Obj
                 (sample_init Unbounded (mkSentence 2 2 "4" "B" "EEEE" "0")
                              two_in_flight).2) = None
            /\ exists raw,
                 Sample.unpack (payload Sample.Obj o) = inr raw
                 /\ sub_fields Sample.Obj o = map sample_interpret raw
       else OD.get "4"
              (SEQUENTIAL_MSG Sample.Obj
                 (sample_init Unbounded (mkSentence 2 2 "4" "B" "EEEE" "0")
                              two_in_flight).2) = Some 2%nat
            /\ sub_fields Sample.Obj o = [].
Proof.
  apply (returned_object_tells_slot Sample.Obj Sample.call Sample.getitem
           Sample.str Sample.int Sample.float Sample.repr Sample.unpack
           Unbounded (mkSentence 2 2 "4" "B" "EEEE" "0") two_in_flight 2%nat).
  - apply two_in_flight_wf. exact I.
  - discriminate.
  - vm_compute. reflexivity.
Defined.

Lemma refused_chain_needs_restart_witness :
  (sample_init Unbounded (mkSentence 3 2 "3" "B" "BBBB" "0")
     (sample_init Unbounded (mkSentence 3 3 "3" "B" "CCCC" "0")
                  two_in_flight).2).1
  = inl (IncompleteMessageError "Missing sequential message fragment 1!").
Proof.
  apply (refused_chain_needs_restart Sample.Obj Sample.call Sample.getitem
           Sample.str Sample.int Sample.float Sample.repr Sample.unpack
           Unbounded (mkSentence 3 3 "3" "B" "CCCC" "0") two_in_flight
           (mkSentence 3 2 "3" "B" "BBBB" "0")).
  - apply two_in_flight_wf. exact I.
  - discriminate.
  - vm_compute. discriminate.
  - reflexivity.
  - discriminate.
  - discriminate.
Defined.

Lemma unlimited_map_never_forgets_witness :
  notified Sample.Obj
    (sample_deliver Unbounded
       [mkSentence 2 1 "5" "B" "X" "0"; mkSentence 1 1 "6" "B" "?" "0";
        mkSentence 2 2 "4" "B" "EEEE" "0"] two_in_flight) = []
  /\ OD.get "3"
       (SEQUENTIAL_MSG Sample.Obj
          (sample_deliver Unbounded
             [mkSentence 2 1 "5" "B" "X" "0"; mkSentence 1 1 "6" "B" "?" "0";
              mkSentence 2 2 "4" "B" "EEEE" "0"] two_in_flight))
     = Some 0%nat.
Proof.
  destruct (unlimited_map_never_forgets Sample.Obj Sample.call Sample.getitem
              Sample.str Sample.int Sample.float Sample.repr Sample.unpack
              [mkSentence 2 1 "5" "B" "X" "0"; mkSentence 1 1 "6" "B" "?" "0";
               mkSentence 2 2 "4" "B" "EEEE" "0"] two_in_flight
              (two_in_flight_wf Unbounded I)) as [Hquiet Hkept].
  split; [exact Hquiet|].
  apply (Hkept "3"%string). repeat constructor; discriminate.
Defined.

Lemma interleaved_message_completes_witness :
  exists w' o,
    sample_init Unbounded (mkSentence 2 2 "3" "B" "BBBB" "0")
      (sample_deliver Unbounded
         [mkSentence 2 2 "8" "B" "X" "0"; mkSentence 2 1 "3" "B" "AAAA" "0";
          mkSentence 2 1 "9" "B" "Y" "0"] empty)
    = (inr 3%nat, w')
    /\ heap Sample.Obj w' !! 3%nat = Some o
    /\ is_complete Sample.Obj o = true
    /\ payload Sample.Obj o = "AAAABBBB"
    /\ sub_fields Sample.Obj o = map sample_interpret Sample.raw_fields
    /\ OD.get "3" (SEQUENTIAL_MSG Sample.Obj w') = None.
Proof.
  apply (interleaved_message_completes Sample.Obj Sample.call Sample.getitem
           Sample.str Sample.int Sample.float Sample.repr Sample.unpack
           "3"
           [([mkSentence 2 2 "8" "B" "X" "0"],
             mkSentence 2 1 "3" "B" "AAAA" "0")]
           [mkSentence 2 1 "9" "B" "Y" "0"]
           (mkSentence 2 2 "3" "B" "BBBB" "0") empty Sample.raw_fields).
  - apply empty_wf. exact I.
  - intros i s Hi. destruct i as [|[|i]]; simpl in Hi; try discriminate;
      injection Hi as <-; simpl; repeat split; discriminate.
  - repeat constructor; discriminate.
  - reflexivity.
Defined.

Lemma limit_below_one_keeps_nothing_witness :
  SEQUENTIAL_MSG Sample.Obj
    (sample_deliver (Bounded 0) [mkSentence 2 1 "3" "B" "AAAA" "0"] empty) = []
  /\ sample_init (Bounded 0) (mkSentence 2 2 "3" "B" "BBBB" "0")
       (sample_deliver (Bounded 0) [mkSentence 2 1 "3" "B" "AAAA" "0"] empty)
     = (inl (KeyError "3"),
        mkWorld Sample.Obj []
          [mkVDM Sample.Obj 2 1 "3" "B" "AAAA" "0" [];
           mkVDM Sample.Obj 2 2 "3" "B" "BBBB" "0" []]
          ["Failed to complete a sequential message with id '3' (limit reached).";
           "Failed to complete a sequential message with id '3' (limit reached)."]).
Proof.
  destruct (limit_below_one_keeps_nothing Sample.Obj Sample.call Sample.getitem
              Sample.str Sample.int Sample.float Sample.repr Sample.unpack
              0 [mkSentence 2 1 "3" "B" "AAAA" "0"]
              (mkSentence 2 2 "3" "B" "BBBB" "0")) as [Hempty Hrun].
  - lia.
  - split; [exact Hempty|]. apply Hrun. discriminate.
Defined.

Lemma interpreted_fields_are_final_witness :
  exists out,
    parse_complete_payload Sample.Obj Sample.call Sample.getitem Sample.str
      Sample.int Sample.float Sample.unpack "X" = inr out
    /\ Forall (fun f => length f <> 5%nat) out
    /\ map sample_interpret out = out
    /\ (forall (i : nat) field,
          Sample.raw_fields !! i = Some field -> length field <> 5%nat ->
          out !! i = Some field)
    /\ (forall (i : nat) field,
          Sample.raw_fields !! i = Some field -> length field = 5%nat ->
          exists f, out !! i = Some f /\ length f = 6%nat).
Proof.
  apply (interpreted_fields_are_final Sample.Obj Sample.call Sample.getitem
           Sample.str Sample.int Sample.float Sample.unpack "X"
           Sample.raw_fields).
  reflexivity.
Defined.

Lemma sentence_re_ignores_padding_witness :
  re_match sentence_re
    (" " ++ "!AIVDM,1,1,,B,177KQJ5000G?tO`K>RA1wUbN0TKH,0*5C"
         ++ String "013" (String "010" ""))%string
  = re_match sentence_re "!AIVDM,1,1,,B,177KQJ5000G?tO`K>RA1wUbN0TKH,0*5C".
Proof.
  apply (sentence_re_ignores_padding " "
           "!AIVDM,1,1,,B,177KQJ5000G?tO`K>RA1wUbN0TKH,0*5C"
           (String "013" (String "010" ""))).
  - repeat constructor.
  - repeat constructor.
Defined.

Lemma asterisk_only_before_checksum_witness :
  Forall (fun c => c <> "*"%char)
    (list_ascii_of_string "!AIVDM,1,1,,B,177KQJ5000G?tO`K>RA1wUbN0TKH,0")
  /\ exists h1 h2 trail,
       ["5"%char; "C"%char] = h1 :: h2 :: trail
       /\ hex h1 = true /\ hex h2 = true
       /\ Forall (fun c => space c = true) trail.
Proof.
  apply (asterisk_only_before_checksum
           "!AIVDM,1,1,,B,177KQJ5000G?tO`K>RA1wUbN0TKH,0*5C"
           (list_ascii_of_string "!AIVDM,1,1,,B,177KQJ5000G?tO`K>RA1wUbN0TKH,0")
           ["5"%char; "C"%char]).
  - vm_compute. reflexivity.
  - reflexivity.
Defined.

Lemma evicted_message_cannot_finish_witness :
  notified Sample.Obj
    (sample_init (Bounded 2) (mkSentence 2 1 "5" "B" "X" "0") two_in_flight).2
  = ["Failed to complete a sequential message with id '3' (limit reached)."]
  /\ (sample_init (Bounded 2) (mkSentence 3 2 "3" "B" "BBBB" "0")
        (sample_init (Bounded 2) (mkSentence 2 1 "5" "B" "X" "0")
                     two_in_flight).2).1
     = inl (IncompleteMessageError "Missing sequential message fragment 1!").
Proof.
  destruct (evicted_message_cannot_finish Sample.Obj Sample.call Sample.getitem
              Sample.str Sample.int Sample.float Sample.repr Sample.unpack
              (Bounded 2) (mkSentence 2 1 "5" "B" "X" "0") two_in_flight
              (mkSentence 3 2 "3" "B" "BBBB" "0"))
    as (old & r & rest & E & Hnot & Hlost).
  - apply two_in_flight_wf. simpl. lia.
  - discriminate.
  - intros [[p Hp]|[_ H]]; [discriminate|]. simpl in H. lia.
  - simpl in E. injection E as <- <- <-. split; [exact Hnot|].
    apply Hlost.
    + reflexivity.
    + discriminate.
    + discriminate.
Defined.

Lemma channel_and_fill_bits_ignored_witness :
  (sample_init Unbounded (mkSentence 3 2 "3" "A" "BBBB" "2") two_in_flight).1
  = (sample_init Unbounded (mkSentence 3 2 "3" "B" "BBBB" "0") two_in_flight).1
  /\ SEQUENTIAL_MSG Sample.Obj
       (sample_init Unbounded (mkSentence 3 2 "3" "A" "BBBB" "2")
                    two_in_flight).2
     = SEQUENTIAL_MSG Sample.Obj
         (sample_init Unbounded (mkSentence 3 2 "3" "B" "BBBB" "0")
                      two_in_flight).2.
Proof.
  destruct (channel_and_fill_bits_ignored Sample.Obj Sample.call Sample.getitem
              Sample.str Sample.int Sample.float Sample.repr Sample.unpack
              Unbounded (mkSentence 3 2 "3" "B" "BBBB" "0") two_in_flight
              "A" "2" (two_in_flight_wf Unbounded I)) as (Hout & Hmap & _).
  split; [exact Hout|exact Hmap].
Defined.
